(** * Binary-heap algorithms of [mas/core/heap.hpp]

    A shallow embedding of the max-heap algorithms of the maslib header
    [heap.hpp] (namespace [mas::heap]) and the proofs of its documented
    properties.

    - The sequence [first, last) is a [list A]; an iterator is the signed
      offset from [first], a [Z] ([SizeType] is the iterator's
      [difference_type]).  Signed [/] is [Z.quot], as in C++.
    - Dereferencing an offset outside the sequence is undefined behaviour
      in the source; here every read and write is checked and yields
      [OutOfRange].
    - The one exception the header can raise by itself is the
      [std::length_error] of [std::vector::reserve] in
      [parallel_make_heap]; it is the outcome [LengthError].
    - [while] loops run on fuel; each entry point supplies as much fuel as
      the loop can use, and the theorems show that [OutOfFuel] is not
      returned.
    - The comparator is a function [compare : A -> A -> bool]; the
      overloads without a comparator are the same text with [<] for
      [compare] and are the instance [compare := <].  The one overload
      that differs, of [parallel_make_heap], is embedded on its own.
    - The observer ([moved]) is modelled by the list of its calls, in the
      order they are made. *)

From stdpp Require Import base list.
From Stdlib Require Import ZArith Lia.
Local Open Scope Z_scope.

Ltac Zify.zify_post_hook ::= Z.to_euclidean_division_equations.

(** ** Outcomes *)

Inductive res (X : Type) : Type :=
| Ok (x : X)
| OutOfRange
| OutOfFuel
| LengthError.
Arguments Ok {X} x.
Arguments OutOfRange {X}.
Arguments OutOfFuel {X}.
Arguments LengthError {X}.

Definition bind {X Y : Type} (m : res X) (k : X -> res Y) : res Y :=
  match m with
  | Ok x => k x
  | OutOfRange => OutOfRange
  | OutOfFuel => OutOfFuel
  | LengthError => LengthError
  end.

Notation "x <- m ;; k" := (bind m (fun x => k))
  (at level 100, m at next level, right associativity).

(** ** The sequence *)

Section Memory.
Context {A : Type}.

(** [a.[i]]: the element at offset [i], if [i] is inside the sequence. *)
Definition at_ (a : list A) (i : Z) : option A :=
  if 0 <=? i then a !! Z.to_nat i else None.

Definition len (a : list A) : Z := Z.of_nat (length a).

(** [*(first + i)] read. *)
Definition rd (a : list A) (i : Z) : res A :=
  match at_ a i with
  | Some x => Ok x
  | None => OutOfRange
  end.

(** [*(first + i) = v]. *)
Definition wr (a : list A) (i : Z) (v : A) : res (list A) :=
  if (0 <=? i) && (i <? len a) then Ok (<[Z.to_nat i := v]> a)
  else OutOfRange.
End Memory.

(** ** Sift primitives and the standard operations *)

Section Heap.
Context {A : Type} (compare : A -> A -> bool).

(** [__up_heap(first, pos, p, compare)]: the [while] loop, with
    [parent] and [child] as in the source. *)
Fixpoint up_loop (fuel : nat) (a : list A) (parent child : Z) (p : A)
  : res (list A) :=
  if 0 <? child then
    x <- rd a parent ;;
    if compare x p then
      match fuel with
      | O => OutOfFuel
      | S fuel' =>
          a1 <- wr a child x ;;
          up_loop fuel' a1 ((parent - 1) ÷ 2) parent p
      end
    else wr a child p
  else wr a child p.

Definition __up_heap (a : list A) (pos : Z) (p : A) : res (list A) :=
  up_loop (Z.to_nat pos) a ((pos - 1) ÷ 2) pos p.

(** The first [if] of the loop body of [__down_heap]: which child is
    the candidate. *)
Definition select_child (a : list A) (length child : Z) : res Z :=
  if child <? length - 1 then
    x <- rd a child ;;
    y <- rd a (child + 1) ;;
    Ok (if compare x y then child + 1 else child)
  else Ok child.

(** One pass through the loop body of [__down_heap]. *)
Inductive down_step : Type :=
| Break
| Descend (a' : list A) (parent' child' : Z).

Definition down_body (a : list A) (length parent child : Z) (p : A)
  : res down_step :=
  c <- select_child a length child ;;
  x <- rd a c ;;
  if compare x p then Ok Break
  else
    a1 <- wr a parent x ;;
    Ok (Descend a1 c (2 * c + 1)).

Fixpoint down_loop (fuel : nat) (a : list A) (length parent child : Z)
  (p : A) : res (list A) :=
  if child <? length then
    match fuel with
    | O => OutOfFuel
    | S fuel' =>
        s <- down_body a length parent child p ;;
        match s with
        | Break => wr a parent p
        | Descend a1 parent' child' =>
            down_loop fuel' a1 length parent' child' p
        end
    end
  else wr a parent p.

(** [__down_heap(first, length, hole, p, compare)]. *)
Definition __down_heap (a : list A) (length hole : Z) (p : A)
  : res (list A) :=
  down_loop (Z.to_nat length) a length hole (2 * hole + 1) p.

(** [__pop_heap(first, last, result, compare)]. *)
Definition __pop_heap (a : list A) (last result : Z) : res (list A) :=
  value <- rd a last ;;
  x <- rd a 0 ;;
  a1 <- wr a result x ;;
  __down_heap a1 last 0 value.

(** [make_heap]: [for (parent = len / 2; parent-- > 0;)]; the counter
    of the loop is the recursion argument. *)
Fixpoint make_heap_loop (parent : nat) (a : list A) (length : Z)
  : res (list A) :=
  match parent with
  | O => Ok a
  | S parent' =>
      p <- rd a (Z.of_nat parent') ;;
      a1 <- __down_heap a length (Z.of_nat parent') p ;;
      make_heap_loop parent' a1 length
  end.

Definition make_heap (a : list A) : res (list A) :=
  make_heap_loop (Z.to_nat (len a ÷ 2)) a (len a).

Definition push_heap (a : list A) : res (list A) :=
  let last := len a in
  let lastPos := last - 1 in
  let parent := (lastPos - 1) ÷ 2 in
  if 0 <? lastPos then
    x <- rd a parent ;;
    y <- rd a (last - 1) ;;
    if compare x y then
      p <- rd a lastPos ;;
      __up_heap a lastPos p
    else Ok a
  else Ok a.

Definition pop_heap (a : list A) : res (list A) :=
  let last := len a in
  if 1 <? last then __pop_heap a (last - 1) (last - 1) else Ok a.

Fixpoint sort_loop (fuel : nat) (a : list A) (last : Z) : res (list A) :=
  if 1 <? last then
    match fuel with
    | O => OutOfFuel
    | S fuel' =>
        a1 <- __pop_heap a (last - 1) (last - 1) ;;
        sort_loop fuel' a1 (last - 1)
    end
  else Ok a.

Definition sort_heap (a : list A) : res (list A) :=
  sort_loop (length a) a (len a).

(** [is_heap_until]: the iterators [parent] and [child] as offsets;
    the result is the offset of the returned iterator. *)
Fixpoint is_heap_loop (fuel : nat) (a : list A) (last parent child : Z)
  : res Z :=
  if child <? last then
    match fuel with
    | O => OutOfFuel
    | S fuel' =>
        x <- rd a parent ;;
        y <- rd a child ;;
        if compare x y then Ok child
        else
          let child := child + 1 in
          if child <? last then
            z <- rd a child ;;
            if compare x z then Ok child
            else is_heap_loop fuel' a last (parent + 1) (child + 1)
          else is_heap_loop fuel' a last (parent + 1) (child + 1)
    end
  else Ok last.

Definition is_heap_until (a : list A) : res Z :=
  is_heap_loop (length a) a (len a) 0 1.

Definition is_heap (a : list A) : res bool :=
  r <- is_heap_until a ;;
  Ok (r =? len a).

(** ** Non-standard additions *)

(** [__pop_heap_pos(first, last, pos, result, compare)]. *)
Definition __pop_heap_pos (a : list A) (last pos result : Z)
  : res (list A) :=
  value <- rd a result ;;
  x <- rd a pos ;;
  a1 <- wr a result x ;;
  let hole := pos in
  let parent := (hole - 1) ÷ 2 in
  if 0 <? pos then
    y <- rd a1 parent ;;
    if compare y value then __up_heap a1 hole value
    else __down_heap a1 last hole value
  else __down_heap a1 last hole value.

Definition update_heap (a : list A) (pos : Z) : res (list A) :=
  let last := len a in
  let posd := pos in
  if 0 <? pos then
    x <- rd a ((posd - 1) ÷ 2) ;;
    y <- rd a posd ;;
    if compare x y then
      p <- rd a posd ;;
      __up_heap a posd p
    else
      p <- rd a posd ;;
      __down_heap a last posd p
  else
    p <- rd a posd ;;
    __down_heap a last posd p.

(** The positional [pop_heap(first, last, pos, compare)]. *)
Definition pop_heap_pos (a : list A) (pos : Z) : res (list A) :=
  let last := len a in
  if 1 <? last - pos then __pop_heap_pos a (last - 1) pos (last - 1)
  else Ok a.
End Heap.

(** ** Callback versions

    [moved(val, from, to)] is recorded as the event [(val, from, to)];
    each operation returns the sequence and the events in call order. *)

Definition event (A : Type) : Type := (A * Z * Z)%type.

Definition ev_val {A} (e : event A) : A := e.1.1.
Definition ev_from {A} (e : event A) : Z := e.1.2.
Definition ev_to {A} (e : event A) : Z := e.2.

Section Callback.
Context {A : Type} (compare : A -> A -> bool).

(** [moved( *(first + i), from, to)]: the element is passed by
    reference, so slot [i] must exist. *)
Definition moved (a : list A) (i from to : Z) : res (event A) :=
  v <- rd a i ;;
  Ok (v, from, to).

(** The last two statements of the sift primitives:
    [*(first + slot) = p; moved( *(first + slot), ppos, slot)]. *)
Definition place_moved (a : list A) (slot : Z) (p : A) (ppos : Z)
  : res (list A * list (event A)) :=
  a1 <- wr a slot p ;;
  e <- moved a1 slot ppos slot ;;
  Ok (a1, [e]).

Fixpoint up_loop_moved (fuel : nat) (a : list A) (parent child : Z)
  (p : A) (ppos : Z) : res (list A * list (event A)) :=
  if 0 <? child then
    x <- rd a parent ;;
    if compare x p then
      match fuel with
      | O => OutOfFuel
      | S fuel' =>
          a1 <- wr a child x ;;
          e <- moved a1 child parent child ;;
          r <- up_loop_moved fuel' a1 ((parent - 1) ÷ 2) parent p ppos ;;
          Ok (r.1, e :: r.2)
      end
    else place_moved a child p ppos
  else place_moved a child p ppos.

Definition __up_heap_moved (a : list A) (pos : Z) (p : A) (ppos : Z)
  : res (list A * list (event A)) :=
  up_loop_moved (Z.to_nat pos) a ((pos - 1) ÷ 2) pos p ppos.

Fixpoint down_loop_moved (fuel : nat) (a : list A)
  (length parent child : Z) (p : A) (ppos : Z)
  : res (list A * list (event A)) :=
  if child <? length then
    match fuel with
    | O => OutOfFuel
    | S fuel' =>
        c <- select_child compare a length child ;;
        x <- rd a c ;;
        if compare x p then place_moved a parent p ppos
        else
          a1 <- wr a parent x ;;
          e <- moved a1 parent c parent ;;
          r <- down_loop_moved fuel' a1 length c (2 * c + 1) p ppos ;;
          Ok (r.1, e :: r.2)
    end
  else place_moved a parent p ppos.

Definition __down_heap_moved (a : list A) (length hole : Z) (p : A)
  (ppos : Z) : res (list A * list (event A)) :=
  down_loop_moved (Z.to_nat length) a length hole (2 * hole + 1) p ppos.

Definition __pop_heap_moved (a : list A) (last result : Z)
  : res (list A * list (event A)) :=
  value <- rd a last ;;
  x <- rd a 0 ;;
  a1 <- wr a result x ;;
  let ppos := last in
  __down_heap_moved a1 ppos 0 value ppos.

Definition __pop_heap_pos_moved (a : list A) (last pos result : Z)
  : res (list A * list (event A)) :=
  value <- rd a last ;;
  x <- rd a pos ;;
  a1 <- wr a result x ;;
  let hole := pos in
  let parent := (hole - 1) ÷ 2 in
  if 0 <? pos then
    y <- rd a1 parent ;;
    if compare y value then __up_heap_moved a1 hole value last
    else __down_heap_moved a1 last hole value last
  else __down_heap_moved a1 last hole value last.

Fixpoint make_heap_loop_moved (parent : nat) (a : list A) (length : Z)
  : res (list A * list (event A)) :=
  match parent with
  | O => Ok (a, [])
  | S parent' =>
      p <- rd a (Z.of_nat parent') ;;
      r1 <- __down_heap_moved a length (Z.of_nat parent') p
              (Z.of_nat parent') ;;
      r2 <- make_heap_loop_moved parent' r1.1 length ;;
      Ok (r2.1, r1.2 ++ r2.2)
  end.

Definition make_heap_moved (a : list A) : res (list A * list (event A)) :=
  make_heap_loop_moved (Z.to_nat (len a ÷ 2)) a (len a).

Definition push_heap_moved (a : list A) : res (list A * list (event A)) :=
  let last := len a in
  let lastPos := last - 1 in
  let parent := (lastPos - 1) ÷ 2 in
  if 0 <? lastPos then
    x <- rd a parent ;;
    y <- rd a (last - 1) ;;
    if compare x y then
      p <- rd a lastPos ;;
      __up_heap_moved a lastPos p lastPos
    else
      e <- moved a lastPos lastPos lastPos ;;
      Ok (a, [e])
  else
    e <- moved a lastPos lastPos lastPos ;;
    Ok (a, [e]).

Definition pop_heap_moved (a : list A) : res (list A * list (event A)) :=
  let last := len a in
  r <- (if 1 <? last then __pop_heap_moved a (last - 1) (last - 1)
        else Ok (a, [])) ;;
  e <- moved r.1 (last - 1) 0 (last - 1) ;;
  Ok (r.1, r.2 ++ [e]).

Definition pop_heap_pos_moved (a : list A) (pos : Z)
  : res (list A * list (event A)) :=
  let last := len a in
  r <- (if 1 <? last - pos
        then __pop_heap_pos_moved a (last - 1) pos (last - 1)
        else Ok (a, [])) ;;
  e <- moved r.1 (last - 1) pos (last - 1) ;;
  Ok (r.1, r.2 ++ [e]).

Fixpoint sort_loop_moved (fuel : nat) (a : list A) (last : Z)
  : res (list A * list (event A)) :=
  if 1 <? last then
    match fuel with
    | O => OutOfFuel
    | S fuel' =>
        let last := last - 1 in
        r1 <- __pop_heap_moved a last last ;;
        e <- moved r1.1 last 0 last ;;
        r2 <- sort_loop_moved fuel' r1.1 last ;;
        Ok (r2.1, r1.2 ++ e :: r2.2)
    end
  else Ok (a, []).

Definition sort_heap_moved (a : list A) : res (list A * list (event A)) :=
  sort_loop_moved (length a) a (len a).

Definition update_heap_moved (a : list A) (pos : Z)
  : res (list A * list (event A)) :=
  let last := len a in
  let posd := pos in
  if 0 <? pos then
    x <- rd a ((posd - 1) ÷ 2) ;;
    y <- rd a posd ;;
    if compare x y then
      p <- rd a posd ;;
      __up_heap_moved a posd p posd
    else
      p <- rd a posd ;;
      __down_heap_moved a last posd p posd
  else
    p <- rd a posd ;;
    __down_heap_moved a last posd p posd.
End Callback.

(** ** Parallel versions

    [size_t] and [SizeType] are [w] bits wide.  The counter
    [blocksRemaining] is a [size_t]: its decrement and the sum in the
    emptiness test wrap modulo [2^w].  The threads, the rolling barrier
    and the worker list are not part of [heap.hpp]; the run modelled here
    is the one in which every block is processed as soon as it has been
    claimed, so that no barrier wait is pending. *)

Section Parallel.
Context {A : Type} (compare : A -> A -> bool).
Variable w : Z.

Definition to_size_t (x : Z) : Z := x mod 2 ^ w.

Definition to_SizeType (x : Z) : Z :=
  let y := x mod 2 ^ w in
  if y <? 2 ^ (w - 1) then y else y - 2 ^ w.

(** [__down_block]: [blockLength] sift-downs, from the highest index
    of the block down. *)
Fixpoint down_block_loop (i : nat) (a : list A) (length parent : Z)
  : res (list A) :=
  match i with
  | O => Ok a
  | S i' =>
      p <- rd a parent ;;
      a1 <- __down_heap compare a length parent p ;;
      down_block_loop i' a1 length (parent - 1)
  end.

Definition __down_block (a : list A) (length blockFront blockLength : Z)
  : res (list A) :=
  down_block_loop (Z.to_nat blockLength) a length
    (blockFront + blockLength - 1).

(** [processBlock = --blocksRemaining] and the test
    [processBlock + nthreads < (size_t) nthreads]. *)
Definition claim (nthreads blocksRemaining : Z) : Z * bool :=
  let processBlock := to_size_t (blocksRemaining - 1) in
  (processBlock,
   to_size_t (processBlock + nthreads) <? to_size_t nthreads).

Record shared : Type := Shared {
  blocksRemaining : Z;
  heap : list A
}.

(** One iteration of [while (!complete)] in [__thread_worker]; the
    boolean is [complete]. *)
Definition worker_iter (nthreads blockSize length : Z) (s : shared)
  : res (bool * shared) :=
  let (processBlock, empty) := claim nthreads (blocksRemaining s) in
  if empty then Ok (true, Shared processBlock (heap s))
  else
    let blockFront := to_SizeType (processBlock * blockSize) in
    a1 <- __down_block (heap s) length blockFront blockSize ;;
    Ok (false, Shared processBlock a1).

Fixpoint __thread_worker (fuel : nat) (nthreads blockSize length : Z)
  (s : shared) : res shared :=
  match fuel with
  | O => OutOfFuel
  | S fuel' =>
      r <- worker_iter nthreads blockSize length s ;;
      if r.1 then Ok r.2
      else __thread_worker fuel' nthreads blockSize length r.2
  end.

(** The workers [0 .. nthreads - 2], run one after the other. *)
Fixpoint spawned_workers (n fuel : nat) (nthreads blockSize length : Z)
  (s : shared) : res shared :=
  match n with
  | O => Ok s
  | S n' =>
      s1 <- __thread_worker fuel nthreads blockSize length s ;;
      spawned_workers n' fuel nthreads blockSize length s1
  end.

Definition number_of_blocks (processEnd blockSize : Z) : Z :=
  let nblocks := to_size_t (processEnd ÷ blockSize) in
  if negb (Z.rem processEnd blockSize =? 0) then to_size_t (nblocks + 1)
  else nblocks.

(** [hw] is the value of [std::thread::hardware_concurrency()]. *)
Definition max_threads (hw maxThreads : Z) : Z :=
  if maxThreads <=? 0 then Z.max hw 2 else maxThreads.

(** [threads.reserve(n)], with [n] a [size_t].  [std::vector::reserve]
    throws [std::length_error] when [n] exceeds [max_size()], and
    [max_size()] is never more than [PTRDIFF_MAX = 2^(w-1) - 1]: a
    request of [2^(w-1)] or more throws.  A smaller request is taken to
    succeed (the thread counts come from an [int]; memory is not
    modelled). *)
Definition reserve (n : Z) : res unit :=
  if 2 ^ (w - 1) <=? n then LengthError else Ok tt.

(** The block "current thread's work" of [parallel_make_heap], and
    then the spawned workers. *)
Definition parallel_work (a : list A) (length processEnd nblocks : Z)
  (nthreads blockSize : Z) : res (list A) :=
  let processBlock := to_size_t (nblocks - 1) in
  let blockFront := to_SizeType (processBlock * blockSize) in
  let blockLength := processEnd - blockFront in
  a1 <- __down_block a length blockFront blockLength ;;
  let fuel := S (Z.to_nat nblocks) in
  s1 <- __thread_worker fuel nthreads blockSize length
          (Shared processBlock a1) ;;
  s2 <- spawned_workers (Z.to_nat (nthreads - 1)) fuel nthreads blockSize
          length s1 ;;
  Ok (heap s2).

(** [parallel_make_heap(first, last, compare, blockSize, maxThreads)].
    [maxThreads] is positive once [max_threads] has been applied, so the
    conversions in [(int)(std::min(nblocks, (size_t) maxThreads))] keep
    the value.  [nthreads] is an [int] of at least 1, and
    [nthreads - 1] is converted to the [size_t] that [reserve] takes.
    [blockSize = 0] divides by zero in the source; the theorems take
    [blockSize >= 1]. *)
Definition parallel_make_heap (hw : Z) (a : list A)
  (blockSize maxThreads : Z) : res (list A) :=
  let length := len a in
  let processEnd := length ÷ 2 in
  let nblocks := number_of_blocks processEnd blockSize in
  let maxThreads := max_threads hw maxThreads in
  let nthreads := Z.min nblocks maxThreads in
  let nthreads := if nthreads <? 1 then 1 else nthreads in
  _ <- reserve (to_size_t (nthreads - 1)) ;;
  parallel_work a length processEnd nblocks nthreads blockSize.

(** [parallel_make_heap(first, last, blockSize, maxThreads)], the
    overload without a comparator: [nthreads] is a [size_t] and is not
    raised to 1, so with no block [nthreads - 1] wraps to [2^w - 1] and
    [reserve] throws before any element is read. *)
Definition parallel_make_heap_default (hw : Z) (a : list A)
  (blockSize maxThreads : Z) : res (list A) :=
  let length := len a in
  let processEnd := length ÷ 2 in
  let nblocks := number_of_blocks processEnd blockSize in
  let maxThreads := max_threads hw maxThreads in
  let nthreads := Z.min nblocks maxThreads in
  _ <- reserve (to_size_t (nthreads - 1)) ;;
  parallel_work a length processEnd nblocks nthreads blockSize.

(** *** The claim protocol under any interleaving

    The workers share only the counter.  [claim_step t] is one claim
    by worker [t]; a worker that has seen "empty" has left its loop and
    claims no more.  The log records every claim: the worker, the value
    it took and whether it read it as "empty". *)
Record claim_state : Type := ClaimState {
  counter : Z;
  complete : list bool;
  claims : list (nat * Z * bool)
}.

Definition claim_step (nthreads : Z) (s : claim_state) (t : nat)
  : claim_state :=
  match complete s !! t with
  | Some false =>
      let (processBlock, empty) := claim nthreads (counter s) in
      ClaimState processBlock
        (if empty then <[t := true]> (complete s) else complete s)
        (claims s ++ [(t, processBlock, empty)])
  | _ => s
  end.

(** The calling thread (worker [nthreads - 1]) takes its first block
    without the test, before it enters the loop. *)
Definition claim_init (nthreads nblocks : Z) : claim_state :=
  ClaimState (to_size_t (nblocks - 1))
    (replicate (Z.to_nat nthreads) false)
    [(Z.to_nat (nthreads - 1), to_size_t (nblocks - 1), false)].

Definition claim_run (nthreads nblocks : Z) (schedule : list nat)
  : claim_state :=
  foldl (claim_step nthreads) (claim_init nthreads nblocks) schedule.
End Parallel.

(** ** Specification vocabulary *)

(** The slot written by [*(first + i) = v]. *)
Definition upd {A} (a : list A) (i : Z) (v : A) : list A :=
  if 0 <=? i then <[Z.to_nat i := v]> a else a.

(** The parent of index [i], as every function of the source computes
    it. *)
Definition parent_of (i : Z) : Z := (i - 1) ÷ 2.

(** A comparator that induces a strict weak order: irreflexive,
    transitive, and with a transitive incomparability. *)
Record StrictWeakOrder {A} (lt : A -> A -> bool) : Prop := {
  swo_irrefl : forall x, lt x x = false;
  swo_trans : forall x y z, lt x y = true -> lt y z = true -> lt x z = true;
  swo_incomp : forall x y z,
    lt x y = false -> lt y x = false ->
    lt y z = false -> lt z y = false ->
    lt x z = false /\ lt z x = false
}.

(** The claim log without the worker: the value taken and the outcome
    of the emptiness test. *)
Definition claim_view (c : nat * Z * bool) : Z * bool := (c.1.2, c.2).

(** The first [m] claims of a counter that starts at [nblocks]. *)
Definition valid_claims (nblocks : Z) (m : nat) : list (Z * bool) :=
  (fun i : nat => (nblocks - 1 - Z.of_nat i, false)) <$> seq 0 m.

(** The first [e] claims after the counter has reached zero. *)
Definition empty_claims (w : Z) (e : nat) : list (Z * bool) :=
  (fun i : nat => (2 ^ w - 1 - Z.of_nat i, true)) <$> seq 0 e.

Fixpoint count_true (l : list bool) : nat :=
  match l with
  | [] => 0
  | b :: l' => (if b then 1 else 0) + count_true l'
  end.

(** The state of the claim protocol after [m] claims that took a block
    and [e] claims that found the counter empty. *)
Definition claim_inv (w nthreads nblocks : Z) (s : claim_state)
  (m e : nat) : Prop :=
  1 <= Z.of_nat m <= nblocks /\
  Z.of_nat e <= nthreads /\
  ((0 < e)%nat -> Z.of_nat m = nblocks) /\
  counter s = to_size_t w (nblocks - Z.of_nat m - Z.of_nat e) /\
  Z.of_nat (length (complete s)) = nthreads /\
  count_true (complete s) = e /\
  claim_view <$> claims s = valid_claims nblocks m ++ empty_claims w e /\
  (forall t v, (t, v, true) ∈ claims s -> complete s !! t = Some true).

(** Records ordered by their key alone: two records with the same key
    are equivalent and still distinguishable. *)
Definition key_lt (x y : Z * Z) : bool := x.1 <? y.1.

Section Properties.
Context {A : Type} (compare : A -> A -> bool).

(** The parent of [j] does not compare less than [j]. *)
Definition edge_ok (a : list A) (j : Z) : Prop :=
  forall x y,
    at_ a (parent_of j) = Some x -> at_ a j = Some y ->
    compare x y = false.

(** The heap property on the nodes of [0, n) whose parent is at [lo]
    or above. *)
Definition heap_from (lo n : Z) (a : list A) : Prop :=
  forall j, 0 < j < n -> lo <= parent_of j -> edge_ok a j.

(** The heap invariant H on [0, n). *)
Definition heap_on (n : Z) (a : list A) : Prop := heap_from 0 n a.

(** [__down_heap] in progress: [hole] is empty, [p] is in hand. *)
Definition down_inv (lo n : Z) (a : list A) (hole : Z) (p : A) : Prop :=
  (forall j, 0 < j < n -> lo <= parent_of j ->
             parent_of j <> hole -> j <> hole -> edge_ok a j) /\
  (0 < hole -> lo <= parent_of hole ->
   forall x, at_ a (parent_of hole) = Some x ->
     compare x p = false /\
     forall j y, 0 < j < n -> parent_of j = hole -> at_ a j = Some y ->
                 compare x y = false).

(** [__up_heap] in progress. *)
Definition up_inv (n : Z) (a : list A) (hole : Z) (p : A) : Prop :=
  (forall j, 0 < j < n -> parent_of j <> hole -> j <> hole ->
             edge_ok a j) /\
  (forall j y, 0 < j < n -> parent_of j = hole -> at_ a j = Some y ->
               compare p y = false) /\
  (0 < hole ->
   forall x, at_ a (parent_of hole) = Some x ->
     forall j y, 0 < j < n -> parent_of j = hole -> at_ a j = Some y ->
                 compare x y = false).

(** The events [E] account for the change from [a0] to [a1]: every
    event carries the value that was in slot [from] of [a0] and is in
    slot [to] of [a1]; no slot is the target, or the origin, of two
    events; a slot that is no event's target holds what it held. *)
Definition relocation (a0 a1 : list A) (E : list (event A)) : Prop :=
  len a1 = len a0 /\
  (forall e, e ∈ E ->
     at_ a0 (ev_from e) = Some (ev_val e) /\
     at_ a1 (ev_to e) = Some (ev_val e)) /\
  NoDup (ev_to <$> E) /\
  NoDup (ev_from <$> E) /\
  (forall i, i ∉ (ev_to <$> E) -> at_ a1 i = at_ a0 i).


(** The events of one sift: moves into the slots of [tlo .. thi] of
    values taken from the slots of [flo .. fhi], and [p], which came
    from [ppos], put in its slot. *)
Definition sift_events (b0 b1 : list A) (p : A) (ppos tlo thi flo fhi : Z)
  (E : list (event A)) : Prop :=
  len b1 = len b0 /\
  Forall (fun e =>
    tlo <= ev_to e <= thi /\
    at_ b1 (ev_to e) = Some (ev_val e) /\
    ((ev_from e = ppos /\ ev_val e = p) \/
     (flo <= ev_from e <= fhi /\
      at_ b0 (ev_from e) = Some (ev_val e)))) E /\
  NoDup (ev_to <$> E) /\
  NoDup (ev_from <$> E) /\
  (forall i, i ∉ (ev_to <$> E) -> at_ b1 i = at_ b0 i) /\
  (exists e, e ∈ E /\ ev_from e = ppos /\ ev_val e = p).
End Properties.

(** The directions of a sift: [to_child hole from] says that the value
    that fills [hole] comes from a child of [hole] (sift down),
    [to_parent hole from] that it comes from the parent of [hole] (sift
    up). *)
Definition to_child (hole from : Z) : Prop :=
  0 <= hole /\ (from = 2 * hole + 1 \/ from = 2 * hole + 2).

Definition to_parent (hole from : Z) : Prop :=
  0 < hole /\ from = parent_of hole.

Section MoreProperties.
Context {A : Type} (compare : A -> A -> bool).

(** Ascending order under the comparator: no element compares less
    than an element before it. *)
Definition ascending (a : list A) : Prop :=
  forall i j x y,
    0 <= i <= j -> at_ a i = Some x -> at_ a j = Some y ->
    compare y x = false.

(** A heap on [0, n) without ties along its edges: every node compares
    less than its parent. *)
Definition strict_heap_on (n : Z) (a : list A) : Prop :=
  forall j x y,
    0 < j < n -> at_ a (parent_of j) = Some x -> at_ a j = Some y ->
    compare y x = true.

(** [sort_heap] in progress: [0, last) is a heap, no element from [last]
    on compares less than an element before it. *)
Definition sort_inv (last : Z) (a : list A) : Prop :=
  heap_on compare last a /\
  forall i j x y,
    0 <= i <= j -> last <= j -> at_ a i = Some x -> at_ a j = Some y ->
    compare y x = false.

(** The events of one sift are a chain: each event fills the slot the
    event before it emptied, [dir] says on which side the next slot
    lies, and the last event puts [p], which came from [ppos], in the
    slot left empty. *)
Fixpoint move_chain (dir : Z -> Z -> Prop) (hole : Z) (p : A) (ppos : Z)
  (E : list (event A)) : Prop :=
  match E with
  | [] => False
  | e :: E' =>
      ev_to e = hole /\
      match E' with
      | [] => ev_from e = ppos /\ ev_val e = p
      | _ :: _ => dir hole (ev_from e) /\ move_chain dir (ev_from e) p ppos E'
      end
  end.
End MoreProperties.

(** An observer that keeps, for every value, the slot it was last
    reported in. *)
Definition observe {A} `{EqDecision A} (pos : A -> Z) (e : event A)
  : A -> Z :=
  fun v => if decide (v = ev_val e) then ev_to e else pos v.

Definition track {A} `{EqDecision A} (pos : A -> Z) (E : list (event A))
  : A -> Z :=
  foldl observe pos E.

(** The index map [pos] gives the slot of every element of [a]. *)
Definition locates {A} (pos : A -> Z) (a : list A) : Prop :=
  forall i v, at_ a i = Some v -> pos v = i.

(** ** Reading and writing *)

Section MemoryFacts.
Context {A : Type}.
Implicit Types (a : list A) (i j : Z) (v x : A).

Lemma at_lookup a i : 0 <= i -> at_ a i = a !! Z.to_nat i.
Proof. intros Hi. unfold at_. destruct (Z.leb_spec 0 i); [done | lia]. Qed.

Lemma at_Some_range a i x : at_ a i = Some x -> 0 <= i < len a.
Proof.
  unfold at_, len. destruct (Z.leb_spec 0 i); [| done].
  intros Hl%lookup_lt_Some. lia.
Qed.

Lemma at_in_range a i : 0 <= i < len a -> exists x, at_ a i = Some x.
Proof.
  intros [H0 H1]. rewrite at_lookup by done.
  destruct (lookup_lt_is_Some_2 a (Z.to_nat i)) as [x Hx]; [unfold len in H1; lia |].
  eauto.
Qed.

Lemma at_None a i : ~ (0 <= i < len a) -> at_ a i = None.
Proof.
  intros Hn. destruct (at_ a i) eqn:E; [| done].
  apply at_Some_range in E. contradiction.
Qed.

Lemma rd_Ok a i x : at_ a i = Some x -> rd a i = Ok x.
Proof. unfold rd. by intros ->. Qed.

Lemma rd_Ok_inv a i x : rd a i = Ok x -> at_ a i = Some x.
Proof. unfold rd. destruct (at_ a i); [by intros [= ->] | done]. Qed.

Lemma rd_out a i : ~ (0 <= i < len a) -> rd a i = OutOfRange.
Proof. intros Hn. unfold rd. by rewrite at_None. Qed.

Lemma wr_Ok a i v : 0 <= i < len a -> wr a i v = Ok (upd a i v).
Proof.
  intros [H0 H1]. unfold wr, upd.
  destruct (Z.leb_spec 0 i); [| lia].
  destruct (Z.ltb_spec i (len a)); [done | lia].
Qed.

Lemma upd_insert a i v : 0 <= i -> upd a i v = <[Z.to_nat i := v]> a.
Proof. intros Hi. unfold upd. destruct (Z.leb_spec 0 i); [done | lia]. Qed.

Lemma len_upd a i v : len (upd a i v) = len a.
Proof.
  unfold len, upd. destruct (0 <=? i); [| done]. by rewrite length_insert.
Qed.

Lemma at_upd_eq a i v : 0 <= i < len a -> at_ (upd a i v) i = Some v.
Proof.
  intros [H0 H1]. rewrite at_lookup, upd_insert by done.
  apply list_lookup_insert_eq. unfold len in H1. lia.
Qed.

Lemma at_upd_ne a i j v : i <> j -> at_ (upd a i v) j = at_ a j.
Proof.
  intros Hne. unfold at_, upd. destruct (Z.leb_spec 0 j); [| done].
  destruct (Z.leb_spec 0 i); [| done].
  apply list_lookup_insert_ne. lia.
Qed.

Lemma upd_upd a i v x : upd (upd a i v) i x = upd a i x.
Proof.
  unfold upd. destruct (0 <=? i); [| done]. apply list_insert_insert_eq.
Qed.

Lemma upd_same a i x : at_ a i = Some x -> upd a i x = a.
Proof.
  intros Hx. pose proof (at_Some_range _ _ _ Hx) as Hr.
  rewrite at_lookup in Hx by lia. rewrite upd_insert by lia.
  by apply list_insert_id.
Qed.

(** Two writes that exchange what two slots hold keep the multiset. *)
Lemma upd_swap_perm a i j x y :
  at_ a i = Some x -> at_ a j = Some y ->
  upd (upd a i y) j x ≡ₚ a.
Proof.
  intros Hx Hy.
  pose proof (at_Some_range _ _ _ Hx). pose proof (at_Some_range _ _ _ Hy).
  rewrite at_lookup in Hx, Hy by lia. rewrite !upd_insert by lia.
  by apply Permutation_insert_swap.
Qed.

(** Moving the hole from [h] to [c]: the value of [c] goes to [h]. *)
Lemma upd_hole_perm a h c x p :
  h <> c -> 0 <= h < len a -> at_ a c = Some x ->
  upd (upd a h x) c p ≡ₚ upd a h p.
Proof.
  intros Hne Hh Hc.
  rewrite <- (upd_upd a h p x).
  apply upd_swap_perm.
  - by rewrite at_upd_eq.
  - by rewrite at_upd_ne.
Qed.

End MemoryFacts.

(** ** Index arithmetic *)

Lemma parent_of_child (j h : Z) :
  0 < j -> (parent_of j = h <-> j = 2 * h + 1 \/ j = 2 * h + 2).
Proof. unfold parent_of. lia. Qed.

Lemma parent_of_lt (j : Z) : 0 < j -> 0 <= parent_of j < j.
Proof. unfold parent_of. lia. Qed.

Lemma parent_of_left (h : Z) : 0 <= h -> parent_of (2 * h + 1) = h.
Proof. unfold parent_of. lia. Qed.

Lemma parent_of_right (h : Z) : 0 <= h -> parent_of (2 * h + 2) = h.
Proof. unfold parent_of. lia. Qed.

(** ** Consequences of a strict weak order *)

Section Order.
Context {A : Type} (compare : A -> A -> bool).
Hypothesis Hswo : StrictWeakOrder compare.

Lemma lt_asym x y : compare x y = true -> compare y x = false.
Proof.
  intros Hxy. destruct (compare y x) eqn:Hyx; [| done].
  pose proof (swo_trans _ Hswo _ _ _ Hxy Hyx) as Hxx.
  by rewrite (swo_irrefl _ Hswo) in Hxx.
Qed.

(** "Not less than" is transitive. *)
Lemma ge_trans x y z :
  compare x y = false -> compare y z = false -> compare x z = false.
Proof.
  intros Hxy Hyz. destruct (compare x z) eqn:Hxz; [| done].
  destruct (compare y x) eqn:Hyx.
  { pose proof (swo_trans _ Hswo _ _ _ Hyx Hxz). congruence. }
  destruct (compare z y) eqn:Hzy.
  { pose proof (swo_trans _ Hswo _ _ _ Hxz Hzy). congruence. }
  destruct (swo_incomp _ Hswo x y z); congruence.
Qed.

Lemma lt_ge_trans x p y :
  compare x p = true -> compare x y = false -> compare p y = false.
Proof.
  intros Hxp Hxy. apply ge_trans with x; [by apply lt_asym | done].
Qed.
End Order.

(** ** The sift primitives restore the heap property *)

Section SiftFacts.
Context {A : Type} (compare : A -> A -> bool).
Hypothesis Hswo : StrictWeakOrder compare.
Implicit Types (a : list A) (p x : A).

(** The candidate child exists and no child of the hole compares
    greater than it. *)
Lemma select_child_spec a n hole :
  0 <= hole -> 2 * hole + 1 < n <= len a ->
  exists c x,
    select_child compare a n (2 * hole + 1) = Ok c /\
    at_ a c = Some x /\
    (c = 2 * hole + 1 \/ c = 2 * hole + 2) /\ c < n /\
    forall j y, parent_of j = hole -> 0 < j < n -> at_ a j = Some y ->
                compare x y = false.
Proof.
  intros Hh Hn. unfold select_child.
  destruct (at_in_range a (2 * hole + 1)) as [l Hl]; [lia |].
  destruct (Z.ltb_spec (2 * hole + 1) (n - 1)) as [Hlt | Hge].
  - destruct (at_in_range a (2 * hole + 1 + 1)) as [r Hr]; [lia |].
    rewrite (rd_Ok _ _ _ Hl), (rd_Ok _ _ _ Hr). simpl.
    destruct (compare l r) eqn:Hlr.
    + exists (2 * hole + 1 + 1), r. split; [done |]. split; [done |].
      split; [lia |]. split; [lia |].
      intros j y Hj Hjn Hy. apply parent_of_child in Hj; [| lia].
      destruct Hj as [-> | ->].
      * rewrite Hl in Hy. injection Hy as <-. by apply (lt_asym compare).
      * replace (2 * hole + 2) with (2 * hole + 1 + 1) in Hy by lia.
        rewrite Hr in Hy. injection Hy as <-. apply (swo_irrefl _ Hswo).
    + exists (2 * hole + 1), l. split; [done |]. split; [done |].
      split; [lia |]. split; [lia |].
      intros j y Hj Hjn Hy. apply parent_of_child in Hj; [| lia].
      destruct Hj as [-> | ->].
      * rewrite Hl in Hy. injection Hy as <-. apply (swo_irrefl _ Hswo).
      * replace (2 * hole + 2) with (2 * hole + 1 + 1) in Hy by lia.
        rewrite Hr in Hy. by injection Hy as <-.
  - exists (2 * hole + 1), l. split; [done |]. split; [done |].
    split; [lia |]. split; [lia |].
    intros j y Hj Hjn Hy. apply parent_of_child in Hj; [| lia].
    destruct Hj as [-> | ->]; [| lia].
    rewrite Hl in Hy. injection Hy as <-. apply (swo_irrefl _ Hswo).
Qed.

(** Putting [p] in the hole when no child compares greater. *)
Lemma down_place lo n a hole p :
  0 <= hole < n -> n <= len a ->
  down_inv compare lo n a hole p ->
  (forall j y, 0 < j < n -> parent_of j = hole -> at_ a j = Some y ->
               compare p y = false) ->
  heap_from compare lo n (upd a hole p).
Proof.
  intros Hh Hn [Hedges Hup] Hkids j Hj Hlo x y Hx Hy.
  destruct (decide (j = hole)) as [-> | Hjh].
  - rewrite at_upd_eq in Hy by lia. injection Hy as <-.
    pose proof (parent_of_lt hole ltac:(lia)).
    rewrite at_upd_ne in Hx by lia.
    by apply (Hup ltac:(lia) Hlo x Hx).
  - rewrite at_upd_ne in Hy by done.
    destruct (decide (parent_of j = hole)) as [Hpj | Hpj].
    + rewrite Hpj, at_upd_eq in Hx by lia. injection Hx as <-.
      by apply (Hkids j y).
    + rewrite at_upd_ne in Hx by done.
      by apply (Hedges j Hj Hlo Hpj Hjh x y).
Qed.

(** [__down_heap]'s loop: from a state that satisfies [down_inv] it
    returns, with the heap property on the nodes at [lo] and above,
    the same multiset as the input with [p] in the hole, and every slot
    before [hole] or from [n] on untouched. *)
Lemma down_loop_spec lo n p fuel : forall a hole,
  0 <= lo <= hole -> hole < n -> n <= len a ->
  n <= 2 * hole + 1 + Z.of_nat fuel ->
  down_inv compare lo n a hole p ->
  exists a',
    down_loop compare fuel a n hole (2 * hole + 1) p = Ok a' /\
    len a' = len a /\
    heap_from compare lo n a' /\
    a' ≡ₚ upd a hole p /\
    forall i, i < hole \/ n <= i -> at_ a' i = at_ a i.
Proof.
  induction fuel as [| fuel IH]; intros a hole Hlo Hh Hn Hfuel Hinv.
  - simpl. destruct (Z.ltb_spec (2 * hole + 1) n); [lia |].
    rewrite wr_Ok by lia. exists (upd a hole p).
    split; [done |]. split; [apply len_upd |].
    split; [| split; [done |]].
    + apply down_place; [lia | done | done |].
      intros j y Hj Hpj. apply parent_of_child in Hpj; lia.
    + intros i Hi. apply at_upd_ne. lia.
  - simpl. destruct (Z.ltb_spec (2 * hole + 1) n) as [Hc | Hc].
    + destruct (select_child_spec a n hole) as (c & x & Hsel & Hx & Hcc & Hcn & Hbig);
        [lia | lia |].
      unfold down_body. rewrite Hsel. simpl. rewrite (rd_Ok _ _ _ Hx). simpl.
      destruct (compare x p) eqn:Hxp; simpl.
      * rewrite wr_Ok by lia. exists (upd a hole p).
        split; [done |]. split; [apply len_upd |].
        split; [| split; [done |]].
        -- apply down_place; [lia | done | done |].
           intros j y Hj Hpj Hy.
           apply (lt_ge_trans compare Hswo x); [done |].
           by apply (Hbig j y).
        -- intros i Hi. apply at_upd_ne. lia.
      * rewrite wr_Ok by lia. simpl.
        destruct (IH (upd a hole x) c) as (a' & Hrun & Hlen & Hheap & Hperm & Hframe).
        -- lia.
        -- lia.
        -- rewrite len_upd. lia.
        -- lia.
        -- destruct Hinv as [Hedges Hup]. split.
           ++ intros j Hj Hloj Hpj Hjc u v Hu Hv.
              destruct (decide (j = hole)) as [-> | Hjh].
              ** rewrite at_upd_eq in Hv by lia. injection Hv as <-.
                 pose proof (parent_of_lt hole ltac:(lia)).
                 rewrite at_upd_ne in Hu by lia.
                 destruct (Hup ltac:(lia) Hloj u Hu) as [_ Hk].
                 apply (Hk c x); [lia | | done].
                 apply parent_of_child; lia.
              ** rewrite at_upd_ne in Hv by done.
                 destruct (decide (parent_of j = hole)) as [Hpjh | Hpjh].
                 --- rewrite Hpjh, at_upd_eq in Hu by lia.
                     injection Hu as <-. by apply (Hbig j v).
                 --- rewrite at_upd_ne in Hu by done.
                     by apply (Hedges j Hj Hloj Hpjh Hjh u v).
           ++ intros Hc0 Hloc u Hu.
              assert (parent_of c = hole) as Hpc
                  by (apply parent_of_child; lia).
              rewrite Hpc, at_upd_eq in Hu by lia. injection Hu as <-.
              split; [done |].
              intros j y Hj Hpj Hy.
              assert (hole < j) by (apply parent_of_child in Hpj; lia).
              rewrite at_upd_ne in Hy by lia.
              apply (Hedges j Hj); [lia | lia | lia | | done].
              by rewrite Hpj.
        -- exists a'. split; [done |]. split; [by rewrite Hlen, len_upd |].
           split; [done |]. split.
           ++ rewrite Hperm. apply upd_hole_perm; [lia | lia | done].
           ++ intros i Hi. rewrite Hframe by lia. apply at_upd_ne. lia.
    + rewrite wr_Ok by lia. exists (upd a hole p).
      split; [done |]. split; [apply len_upd |].
      split; [| split; [done |]].
      * apply down_place; [lia | done | done |].
        intros j y Hj Hpj. apply parent_of_child in Hpj; lia.
      * intros i Hi. apply at_upd_ne. lia.
Qed.

Lemma down_heap_spec lo n p a hole :
  0 <= lo <= hole -> hole < n -> n <= len a ->
  down_inv compare lo n a hole p ->
  exists a',
    __down_heap compare a n hole p = Ok a' /\
    len a' = len a /\
    heap_from compare lo n a' /\
    a' ≡ₚ upd a hole p /\
    forall i, i < hole \/ n <= i -> at_ a' i = at_ a i.
Proof.
  intros. unfold __down_heap. apply (down_loop_spec lo); try done. lia.
Qed.

(** Putting [p] in the hole when its parent does not compare less. *)
Lemma up_place n a hole p :
  0 <= hole < n -> n <= len a ->
  up_inv compare n a hole p ->
  (0 < hole -> forall x, at_ a (parent_of hole) = Some x ->
                         compare x p = false) ->
  heap_on compare n (upd a hole p).
Proof.
  intros Hh Hn (Hedges & Hkids & _) Hpar j Hj _ x y Hx Hy.
  destruct (decide (j = hole)) as [-> | Hjh].
  - rewrite at_upd_eq in Hy by lia. injection Hy as <-.
    pose proof (parent_of_lt hole ltac:(lia)).
    rewrite at_upd_ne in Hx by lia.
    apply Hpar; [lia | done].
  - rewrite at_upd_ne in Hy by done.
    destruct (decide (parent_of j = hole)) as [Hpj | Hpj].
    + rewrite Hpj, at_upd_eq in Hx by lia. injection Hx as <-.
      by apply (Hkids j y).
    + rewrite at_upd_ne in Hx by done.
      by apply (Hedges j Hj Hpj Hjh x y).
Qed.

(** [__up_heap]'s loop: from a state that satisfies [up_inv] it returns
    a heap on [0, n) with the multiset of the input with [p] in the
    hole; the slots after [hole] are untouched. *)
Lemma up_loop_spec n p fuel : forall a hole,
  0 <= hole < n -> n <= len a ->
  hole <= Z.of_nat fuel ->
  up_inv compare n a hole p ->
  exists a',
    up_loop compare fuel a (parent_of hole) hole p = Ok a' /\
    len a' = len a /\
    heap_on compare n a' /\
    a' ≡ₚ upd a hole p /\
    forall i, hole < i -> at_ a' i = at_ a i.
Proof.
  assert (Hdone : forall a hole,
    0 <= hole < n -> n <= len a -> up_inv compare n a hole p ->
    (0 < hole -> forall x, at_ a (parent_of hole) = Some x ->
                           compare x p = false) ->
    exists a',
      wr a hole p = Ok a' /\ len a' = len a /\ heap_on compare n a' /\
      a' ≡ₚ upd a hole p /\ forall i, hole < i -> at_ a' i = at_ a i).
  { intros a hole Hh Hn Hinv Hpar. rewrite wr_Ok by lia.
    exists (upd a hole p). split; [done |]. split; [apply len_upd |].
    split; [by apply up_place |]. split; [done |].
    intros i Hi. apply at_upd_ne. lia. }
  induction fuel as [| fuel IH]; intros a hole Hh Hn Hfuel Hinv.
  - simpl. destruct (Z.ltb_spec 0 hole); [lia |].
    apply Hdone; [done | done | done | lia].
  - simpl. destruct (Z.ltb_spec 0 hole) as [Hpos | Hpos];
      [| apply Hdone; [done | done | done | lia]].
    pose proof (parent_of_lt hole Hpos) as Hpl.
    destruct (at_in_range a (parent_of hole)) as [x Hx]; [lia |].
    rewrite (rd_Ok _ _ _ Hx). simpl.
    destruct (compare x p) eqn:Hxp;
      [| apply Hdone; [done | done | done |];
         intros _ x' Hx'; congruence].
    rewrite wr_Ok by lia. simpl.
    change ((parent_of hole - 1) ÷ 2) with (parent_of (parent_of hole)).
    destruct (IH (upd a hole x) (parent_of hole))
      as (a' & Hrun & Hlen & Hheap & Hperm & Hframe).
    + lia.
    + rewrite len_upd. lia.
    + lia.
    + destruct Hinv as (Hedges & Hkids & Hgrand). split; [| split].
      * intros j Hj Hpj Hjp u v Hu Hv.
        destruct (decide (j = hole)) as [-> | Hjh]; [done |].
        rewrite at_upd_ne in Hv by done.
        destruct (decide (parent_of j = hole)) as [Hpjh | Hpjh].
        -- rewrite Hpjh, at_upd_eq in Hu by lia. injection Hu as <-.
           by apply (Hgrand Hpos x Hx j v).
        -- rewrite at_upd_ne in Hu by done.
           by apply (Hedges j Hj Hpjh Hjh u v).
      * intros j y Hj Hpj Hy.
        destruct (decide (j = hole)) as [-> | Hjh].
        -- rewrite at_upd_eq in Hy by lia. injection Hy as <-.
           by apply (lt_asym compare).
        -- rewrite at_upd_ne in Hy by done.
           apply (lt_ge_trans compare Hswo x); [done |].
           apply (Hedges j Hj); [lia | done | by rewrite Hpj | done].
      * intros Hppos z Hz j y Hj Hpj Hy.
        pose proof (parent_of_lt (parent_of hole) Hppos) as Hppl.
        rewrite at_upd_ne in Hz by lia.
        assert (compare z x = false) as Hzx.
        { apply (Hedges (parent_of hole)); [lia | lia | lia | done | done]. }
        destruct (decide (j = hole)) as [-> | Hjh].
        -- rewrite at_upd_eq in Hy by lia. by injection Hy as <-.
        -- rewrite at_upd_ne in Hy by done.
           apply (ge_trans compare Hswo z x y); [done |].
           apply (Hedges j Hj); [lia | done | by rewrite Hpj | done].
    + exists a'. split; [done |]. split; [by rewrite Hlen, len_upd |].
      split; [done |]. split.
      * rewrite Hperm. apply upd_hole_perm; [lia | lia | done].
      * intros i Hi. rewrite Hframe by lia. apply at_upd_ne. lia.
Qed.

Lemma up_heap_spec n p a hole :
  0 <= hole < n -> n <= len a ->
  up_inv compare n a hole p ->
  exists a',
    __up_heap compare a hole p = Ok a' /\
    len a' = len a /\
    heap_on compare n a' /\
    a' ≡ₚ upd a hole p /\
    forall i, hole < i -> at_ a' i = at_ a i.
Proof.
  intros. unfold __up_heap. apply (up_loop_spec n); try done. lia.
Qed.
End SiftFacts.

(** ** [make_heap], [is_heap] and the positional operations *)

Section HeapFacts.
Context {A : Type} (compare : A -> A -> bool).
Hypothesis Hswo : StrictWeakOrder compare.
Implicit Types (a r : list A) (p x v : A).

Lemma make_heap_loop_spec n k : forall a,
  Z.of_nat k <= n ÷ 2 -> n <= len a ->
  heap_from compare (Z.of_nat k) n a ->
  exists a',
    make_heap_loop compare k a n = Ok a' /\
    len a' = len a /\ heap_on compare n a' /\ a' ≡ₚ a.
Proof.
  induction k as [| k IH]; intros a Hk Hn Hheap.
  - exists a. by repeat split.
  - simpl.
    destruct (at_in_range a (Z.of_nat k)) as [p Hp]; [lia |].
    rewrite (rd_Ok _ _ _ Hp). simpl.
    destruct (down_heap_spec compare Hswo (Z.of_nat k) n p a (Z.of_nat k))
      as (a1 & Hrun & Hlen & Hheap1 & Hperm & _); [lia | lia | lia | |].
    { split.
      - intros j Hj Hlo Hpj _. apply Hheap; [done | lia].
      - intros Hpos Hlo. pose proof (parent_of_lt _ Hpos). lia. }
    rewrite Hrun. simpl.
    destruct (IH a1) as (a' & Hrun' & Hlen' & Hheap' & Hperm');
      [lia | lia | done |].
    exists a'. split; [done |]. split; [congruence |]. split; [done |].
    by rewrite Hperm', Hperm, (upd_same _ _ _ Hp).
Qed.

Lemma make_heap_spec a :
  exists a',
    make_heap compare a = Ok a' /\
    len a' = len a /\ heap_on compare (len a) a' /\ a' ≡ₚ a.
Proof.
  unfold make_heap. apply make_heap_loop_spec; [| lia |].
  - assert (0 <= len a) by (unfold len; lia). lia.
  - intros j Hj Hlo. unfold parent_of in Hlo.
    assert (0 <= len a) by (unfold len; lia). lia.
Qed.

(** On a heap the scan of [is_heap_until] reaches [last]. *)
Lemma is_heap_loop_heap a fuel : forall parent,
  heap_on compare (len a) a ->
  0 <= parent -> len a <= 2 * parent + 1 + 2 * Z.of_nat fuel ->
  is_heap_loop compare fuel a (len a) parent (2 * parent + 1) = Ok (len a).
Proof.
  induction fuel as [| fuel IH]; intros parent Hheap Hp Hfuel; simpl.
  - destruct (Z.ltb_spec (2 * parent + 1) (len a)); [lia | done].
  - destruct (Z.ltb_spec (2 * parent + 1) (len a)) as [Hc | Hc]; [| done].
    destruct (at_in_range a parent) as [x Hx]; [lia |].
    destruct (at_in_range a (2 * parent + 1)) as [y Hy]; [lia |].
    rewrite (rd_Ok _ _ _ Hx), (rd_Ok _ _ _ Hy). simpl.
    rewrite (Hheap (2 * parent + 1)); [| lia | unfold parent_of; lia | | done];
      [| by rewrite parent_of_left].
    replace (2 * parent + 1 + 1 + 1) with (2 * (parent + 1) + 1) by lia.
    destruct (Z.ltb_spec (2 * parent + 1 + 1) (len a)) as [Hc2 | Hc2].
    + destruct (at_in_range a (2 * parent + 1 + 1)) as [z Hz]; [lia |].
      rewrite (rd_Ok _ _ _ Hz). simpl.
      rewrite (Hheap (2 * parent + 2)); [| lia | unfold parent_of; lia | | ];
        [| by rewrite parent_of_right
         | by replace (2 * parent + 2) with (2 * parent + 1 + 1) by lia ].
      apply IH; [done | lia | lia].
    + apply IH; [done | lia | lia].
Qed.

Lemma is_heap_true a : heap_on compare (len a) a -> is_heap compare a = Ok true.
Proof.
  intros Hheap. unfold is_heap, is_heap_until.
  change 1 with (2 * 0 + 1).
  rewrite (is_heap_loop_heap a (length a) 0 Hheap); [| lia | unfold len; lia].
  simpl. by rewrite Z.eqb_refl.
Qed.

(** A heap [r] with slot [k] replaced by [v] is ready for the sift that
    the comparison with the parent of [k] selects. *)
Lemma edited_up_inv r a n k v y :
  heap_on compare n r -> n <= len r ->
  0 < k < n ->
  (forall i, i <> k -> 0 <= i < n -> at_ a i = at_ r i) ->
  at_ a (parent_of k) = Some y -> compare y v = true ->
  up_inv compare n a k v.
Proof.
  intros Hheap Hn Hk Hagree Hy Hyv.
  pose proof (parent_of_lt k ltac:(lia)) as Hpk.
  destruct (at_in_range r k) as [x Hx]; [lia |].
  rewrite Hagree in Hy by lia.
  assert (compare y x = false) as Hyx.
  { apply (Hheap k); [lia | lia | done | done]. }
  assert (forall j yj, 0 < j < n -> parent_of j = k -> at_ a j = Some yj ->
                       compare y yj = false) as Hkids.
  { intros j yj Hj Hpj Hyj.
    assert (k < j) by (apply parent_of_child in Hpj; lia).
    rewrite Hagree in Hyj by lia.
    apply (ge_trans compare Hswo y x yj); [done |].
    apply (Hheap j); [done | lia | by rewrite Hpj | done]. }
  split; [| split].
  - intros j Hj Hpj Hjk s t Hs Ht.
    pose proof (parent_of_lt j ltac:(lia)).
    rewrite Hagree in Hs, Ht by lia.
    apply (Hheap j); [done | lia | done | done].
  - intros j yj Hj Hpj Hyj.
    apply (lt_ge_trans compare Hswo y); [done |]. by apply (Hkids j).
  - intros _ z Hz j yj Hj Hpj Hyj.
    rewrite Hagree in Hz by lia.
    assert (z = y) as -> by congruence. by apply (Hkids j).
Qed.

Lemma edited_down_inv r a n k v :
  heap_on compare n r -> n <= len r ->
  0 <= k < n ->
  (forall i, i <> k -> 0 <= i < n -> at_ a i = at_ r i) ->
  (0 < k -> forall y, at_ a (parent_of k) = Some y -> compare y v = false) ->
  down_inv compare 0 n a k v.
Proof.
  intros Hheap Hn Hk Hagree Hpar. split.
  - intros j Hj _ Hpj Hjk s t Hs Ht.
    pose proof (parent_of_lt j ltac:(lia)).
    rewrite Hagree in Hs, Ht by lia.
    apply (Hheap j); [done | lia | done | done].
  - intros Hpos _ y Hy. split; [by apply Hpar |].
    pose proof (parent_of_lt k Hpos) as Hpk.
    destruct (at_in_range r k) as [x Hx]; [lia |].
    rewrite Hagree in Hy by lia.
    intros j yj Hj Hpj Hyj.
    assert (k < j) by (apply parent_of_child in Hpj; lia).
    rewrite Hagree in Hyj by lia.
    apply (ge_trans compare Hswo y x yj).
    + apply (Hheap k); [lia | lia | done | done].
    + apply (Hheap j); [done | lia | by rewrite Hpj | done].
Qed.

Lemma heap_on_prefix n m a : m <= n -> heap_on compare n a -> heap_on compare m a.
Proof. intros Hm Hheap j Hj Hlo. apply Hheap; [lia | done]. Qed.
End HeapFacts.

Section HeapCheck.
Context {A : Type} (compare : A -> A -> bool).
Implicit Types (a : list A).

(** When the scan of [is_heap_until] reaches [last], every edge it
    passed is in order. *)
Lemma is_heap_loop_sound a fuel : forall parent,
  0 <= parent ->
  is_heap_loop compare fuel a (len a) parent (2 * parent + 1) = Ok (len a) ->
  forall j, 2 * parent + 1 <= j < len a -> edge_ok compare a j.
Proof.
  induction fuel as [| fuel IH]; intros parent Hp; simpl.
  - destruct (Z.ltb_spec (2 * parent + 1) (len a)); [done | lia].
  - destruct (Z.ltb_spec (2 * parent + 1) (len a)) as [Hc | Hc]; [| lia].
    destruct (rd a parent) as [x | | |] eqn:Hx; [| done | done | done].
    destruct (rd a (2 * parent + 1)) as [y | | |] eqn:Hy; [| done | done | done].
    simpl. apply rd_Ok_inv in Hx, Hy.
    destruct (compare x y) eqn:Hxy; [intros [= Heq]; lia |].
    replace (2 * parent + 1 + 1 + 1) with (2 * (parent + 1) + 1) by lia.
    assert (edge_ok compare a (2 * parent + 1)) as Hleft.
    { intros x' y'. rewrite parent_of_left by done. congruence. }
    destruct (Z.ltb_spec (2 * parent + 1 + 1) (len a)) as [Hc2 | Hc2].
    + destruct (rd a (2 * parent + 1 + 1)) as [z | | |] eqn:Hz; [| done | done | done].
      simpl. apply rd_Ok_inv in Hz.
      destruct (compare x z) eqn:Hxz; [intros [= Heq]; lia |].
      intros Hrun j Hj.
      destruct (decide (j = 2 * parent + 1)) as [-> | Hj1]; [done |].
      destruct (decide (j = 2 * parent + 2)) as [-> | Hj2].
      * intros x' z'. rewrite parent_of_right by done.
        replace (2 * parent + 2) with (2 * parent + 1 + 1) by lia. congruence.
      * apply (IH (parent + 1)); [lia | done | lia].
    + intros Hrun j Hj.
      destruct (decide (j = 2 * parent + 1)) as [-> | Hj1]; [done | lia].
Qed.

Lemma is_heap_heap_on a : is_heap compare a = Ok true -> heap_on compare (len a) a.
Proof.
  unfold is_heap, is_heap_until. change 1 with (2 * 0 + 1).
  destruct (is_heap_loop compare (length a) a (len a) 0 (2 * 0 + 1))
    as [r | | |] eqn:Hrun; [| done | done | done].
  simpl. intros [= Heq%Z.eqb_eq]. subst r.
  intros j Hj _. apply (is_heap_loop_sound a (length a) 0); [lia | done | lia].
Qed.

(** The last slot and the prefix before it make up the sequence. *)
Lemma last_and_prefix a x :
  at_ a (len a - 1) = Some x ->
  x :: take (Z.to_nat (len a - 1)) a ≡ₚ a.
Proof.
  intros Hx. pose proof (at_Some_range _ _ _ Hx) as Hr.
  rewrite at_lookup in Hx by lia.
  rewrite Permutation_cons_append, <- (take_S_r _ _ _ Hx).
  rewrite take_ge; [done |]. unfold len in *. lia.
Qed.
End HeapCheck.

Lemma Zltb_swo : StrictWeakOrder Z.ltb.
Proof.
  split.
  - intros x. apply Z.ltb_irrefl.
  - intros x y z Hxy%Z.ltb_lt Hyz%Z.ltb_lt. apply Z.ltb_lt. lia.
  - intros x y z Hxy%Z.ltb_ge Hyx%Z.ltb_ge Hyz%Z.ltb_ge Hzy%Z.ltb_ge.
    split; apply Z.ltb_ge; lia.
Qed.

(** ** The documented properties *)

(** C5. For every sequence and every comparator that induces a strict
    weak order, [make_heap] returns a sequence on which [is_heap] answers
    true (no index [0 < i < n] has a parent that compares less than it),
    and which is a permutation of the input. *)
Theorem make_heap_establishes_heap {A} (compare : A -> A -> bool) (a : list A) :
  StrictWeakOrder compare ->
  exists a',
    make_heap compare a = Ok a' /\
    is_heap compare a' = Ok true /\
    (forall i x y, 0 < i < len a' ->
       at_ a' ((i - 1) ÷ 2) = Some x -> at_ a' i = Some y ->
       compare x y = false) /\
    a' ≡ₚ a.
Proof.
  intros Hswo.
  destruct (make_heap_spec compare Hswo a) as (a' & Hrun & Hlen & Hheap & Hperm).
  rewrite <- Hlen in Hheap.
  exists a'. split; [done |]. split; [by apply is_heap_true |].
  split; [| done].
  intros i x y Hi Hx Hy. apply (Hheap i); [done | | done | done].
  unfold parent_of. lia.
Qed.

Lemma make_heap_establishes_heap_witness :
  exists a',
    make_heap Z.ltb [4; 1; 3; 2; 16; 9; 10; 14; 8; 7] = Ok a' /\
    is_heap Z.ltb a' = Ok true /\
    (forall i x y, 0 < i < len a' ->
       at_ a' ((i - 1) ÷ 2) = Some x -> at_ a' i = Some y ->
       (x <? y) = false) /\
    a' ≡ₚ [4; 1; 3; 2; 16; 9; 10; 14; 8; 7].
Proof.
  exact (make_heap_establishes_heap Z.ltb [4; 1; 3; 2; 16; 9; 10; 14; 8; 7]
           Zltb_swo).
Defined.

(** C1. On a heap of length [n], the positional [pop_heap] at any
    [0 <= k < n] returns; slot [n - 1] then holds the original [a[k]],
    the prefix [0, n - 1) is a heap, and that prefix together with
    [a[k]] is a permutation of the original sequence. *)
Theorem pop_heap_pos_spec {A} (compare : A -> A -> bool) (a : list A) (k : Z) :
  StrictWeakOrder compare ->
  heap_on compare (len a) a ->
  0 <= k < len a ->
  exists a' x,
    pop_heap_pos compare a k = Ok a' /\
    at_ a k = Some x /\
    at_ a' (len a - 1) = Some x /\
    len a' = len a /\
    heap_on compare (len a - 1) a' /\
    x :: take (Z.to_nat (len a - 1)) a' ≡ₚ a.
Proof.
  intros Hswo Hheap Hk.
  destruct (at_in_range a k) as [x Hx]; [done |].
  assert (forall a', len a' = len a -> at_ a' (len a - 1) = Some x ->
                     a' ≡ₚ a ->
                     x :: take (Z.to_nat (len a - 1)) a' ≡ₚ a) as Hfin.
  { intros a' Hlen Hlast Hperm. rewrite <- Hlen in *.
    by rewrite last_and_prefix. }
  unfold pop_heap_pos.
  destruct (Z.ltb_spec 1 (len a - k)) as [Hpop | Hend].
  2: { assert (k = len a - 1) as -> by lia.
       exists a, x. repeat split; try done.
       - apply (heap_on_prefix compare (len a)); [lia | done].
       - by apply Hfin. }
  set (m := len a - 1).
  destruct (at_in_range a m) as [v Hv]; [lia |].
  unfold __pop_heap_pos.
  rewrite (rd_Ok _ _ _ Hv), (rd_Ok _ _ _ Hx). simpl.
  rewrite wr_Ok by lia. simpl.
  set (a1 := upd a m x).
  assert (heap_on compare m a) as Hpre
    by (apply (heap_on_prefix compare (len a)); [lia | done]).
  assert (forall i, i <> k -> 0 <= i < m -> at_ a1 i = at_ a i) as Hagree.
  { intros i _ Hi. apply at_upd_ne. lia. }
  assert (len a1 = len a) as Hlen1 by apply len_upd.
  assert (at_ a1 m = Some x) as Hlast by (apply at_upd_eq; lia).
  assert (upd a1 k v ≡ₚ a) as Hperm1 by by apply upd_swap_perm.
  assert (down_case : (0 < k -> forall y, at_ a1 (parent_of k) = Some y ->
                                          compare y v = false) ->
    exists a' x0,
      __down_heap compare a1 m k v = Ok a' /\ at_ a k = Some x0 /\
      at_ a' m = Some x0 /\ len a' = len a /\ heap_on compare m a' /\
      x0 :: take (Z.to_nat m) a' ≡ₚ a).
  { intros Hpar.
    destruct (down_heap_spec compare Hswo 0 m v a1 k)
      as (a' & Hrun & Hlen & Hheap' & Hperm & Hframe); [lia | lia | lia | |].
    { apply (edited_down_inv compare Hswo a); try done; lia. }
    assert (at_ a' m = Some x) as Hlast' by (rewrite Hframe; [done | lia]).
    exists a', x. repeat split; try done; [congruence |].
    apply Hfin; [congruence | done | by rewrite Hperm]. }
  destruct (Z.ltb_spec 0 k) as [Hpos | Hzero].
  - pose proof (parent_of_lt k Hpos) as Hpk.
    destruct (at_in_range a1 (parent_of k)) as [y Hy]; [lia |].
    change ((k - 1) ÷ 2) with (parent_of k).
    rewrite (rd_Ok _ _ _ Hy). simpl.
    destruct (compare y v) eqn:Hyv.
    + destruct (up_heap_spec compare Hswo m v a1 k)
        as (a' & Hrun & Hlen & Hheap' & Hperm & Hframe); [lia | lia | |].
      { apply (edited_up_inv compare Hswo a a1 m k v y); try done; lia. }
      assert (at_ a' m = Some x) as Hlast' by (rewrite Hframe; [done | lia]).
      exists a', x. repeat split; try done; [congruence |].
      apply Hfin; [congruence | done | by rewrite Hperm].
    + apply down_case. intros _ y' Hy'. congruence.
  - apply down_case. lia.
Qed.

Lemma pop_heap_pos_spec_witness :
  exists a' x,
    pop_heap_pos Z.ltb [16; 14; 10; 8; 7; 9; 3; 2; 4; 1] 4 = Ok a' /\
    at_ [16; 14; 10; 8; 7; 9; 3; 2; 4; 1] 4 = Some x /\
    at_ a' (len [16; 14; 10; 8; 7; 9; 3; 2; 4; 1] - 1) = Some x /\
    len a' = len [16; 14; 10; 8; 7; 9; 3; 2; 4; 1] /\
    heap_on Z.ltb (len [16; 14; 10; 8; 7; 9; 3; 2; 4; 1] - 1) a' /\
    x :: take (Z.to_nat (len [16; 14; 10; 8; 7; 9; 3; 2; 4; 1] - 1)) a'
      ≡ₚ [16; 14; 10; 8; 7; 9; 3; 2; 4; 1].
Proof.
  apply (pop_heap_pos_spec Z.ltb [16; 14; 10; 8; 7; 9; 3; 2; 4; 1] 4 Zltb_swo).
  - apply is_heap_heap_on. reflexivity.
  - unfold len. simpl. lia.
Defined.

(** C2. Let [r] be a heap and let slot [k] be overwritten with an
    arbitrary value [v].  [update_heap] at [k] returns a heap on the
    whole range ([is_heap] answers true) that is a permutation of the
    edited sequence. *)
Theorem update_heap_restores_heap {A} (compare : A -> A -> bool)
  (r : list A) (k : Z) (v : A) :
  StrictWeakOrder compare ->
  heap_on compare (len r) r ->
  0 <= k < len r ->
  exists a',
    update_heap compare (upd r k v) k = Ok a' /\
    heap_on compare (len r) a' /\
    is_heap compare a' = Ok true /\
    a' ≡ₚ upd r k v.
Proof.
  intros Hswo Hheap Hk.
  set (a := upd r k v).
  assert (len a = len r) as Hlen by apply len_upd.
  assert (at_ a k = Some v) as Hv by (apply at_upd_eq; lia).
  assert (forall i, i <> k -> 0 <= i < len r -> at_ a i = at_ r i) as Hagree.
  { intros i Hi _. by apply at_upd_ne. }
  assert (forall a', len a' = len a -> heap_on compare (len r) a' ->
                     a' ≡ₚ upd a k v ->
                     heap_on compare (len r) a' /\
                     is_heap compare a' = Ok true /\ a' ≡ₚ a) as Hfin.
  { intros a' Hlen' Hheap' Hperm. split; [done |]. split.
    - apply is_heap_true. by rewrite Hlen', Hlen.
    - by rewrite Hperm, (upd_same _ _ _ Hv). }
  assert (down_case : (0 < k -> forall y, at_ a (parent_of k) = Some y ->
                                          compare y v = false) ->
    exists a',
      __down_heap compare a (len a) k v = Ok a' /\
      heap_on compare (len r) a' /\ is_heap compare a' = Ok true /\ a' ≡ₚ a).
  { intros Hpar. rewrite Hlen.
    destruct (down_heap_spec compare Hswo 0 (len r) v a k)
      as (a' & Hrun & Hlen' & Hheap' & Hperm & _); [lia | lia | lia | |].
    { by apply (edited_down_inv compare Hswo r). }
    exists a'. split; [done |]. by apply Hfin. }
  unfold update_heap.
  destruct (Z.ltb_spec 0 k) as [Hpos | Hzero].
  - pose proof (parent_of_lt k Hpos) as Hpk.
    destruct (at_in_range a (parent_of k)) as [y Hy]; [lia |].
    change ((k - 1) ÷ 2) with (parent_of k).
    rewrite (rd_Ok _ _ _ Hy), (rd_Ok _ _ _ Hv). simpl.
    destruct (compare y v) eqn:Hyv.
    + destruct (up_heap_spec compare Hswo (len r) v a k)
        as (a' & Hrun & Hlen' & Hheap' & Hperm & _); [lia | lia | |].
      { apply (edited_up_inv compare Hswo r a (len r) k v y); try done; lia. }
      exists a'. split; [done |]. by apply Hfin.
    + apply down_case. intros _ y' Hy'. congruence.
  - rewrite (rd_Ok _ _ _ Hv). simpl. apply down_case. lia.
Qed.

Lemma update_heap_restores_heap_witness :
  exists a',
    update_heap Z.ltb (upd [16; 14; 10; 8; 7; 9; 3; 2; 4; 1] 7 20) 7 = Ok a' /\
    heap_on Z.ltb (len [16; 14; 10; 8; 7; 9; 3; 2; 4; 1]) a' /\
    is_heap Z.ltb a' = Ok true /\
    a' ≡ₚ upd [16; 14; 10; 8; 7; 9; 3; 2; 4; 1] 7 20.
Proof.
  apply (update_heap_restores_heap Z.ltb [16; 14; 10; 8; 7; 9; 3; 2; 4; 1] 7 20
           Zltb_swo).
  - apply is_heap_heap_on. reflexivity.
  - unfold len. simpl. lia.
Defined.

(** The precondition of C2 is a heap with one slot overwritten.  It is
    not enough that every edge away from [k] is in order: in
    [[5; 1; 4; 9]] only the edges at slot 1 are out of order, no value
    in slot 1 makes it a heap, and [update_heap] at 1 leaves 9 below
    5. *)
Example update_heap_not_an_edited_heap :
  update_heap Z.ltb [5; 1; 4; 9] 1 = Ok [5; 9; 4; 1] /\
  is_heap Z.ltb [5; 9; 4; 1] = Ok false.
Proof. split; reflexivity. Qed.

(** C10. When [pos] is the last element of the range ([last - pos <= 1])
    the positional [pop_heap] without observer returns the sequence as
    it is: the guard skips the body, whatever the comparator. *)
Theorem pop_heap_pos_at_end {A} (compare : A -> A -> bool) (a : list A)
  (pos : Z) :
  len a - pos <= 1 -> pop_heap_pos compare a pos = Ok a.
Proof.
  intros Hend. unfold pop_heap_pos.
  destruct (Z.ltb_spec 1 (len a - pos)); [lia | done].
Qed.

Lemma pop_heap_pos_at_end_witness :
  len [9; 4; 7] - 2 <= 1 /\ pop_heap_pos Z.ltb [9; 4; 7] 2 = Ok [9; 4; 7].
Proof.
  assert (len [9; 4; 7] - 2 <= 1) as H by (unfold len; simpl; lia).
  split; [exact H | exact (pop_heap_pos_at_end Z.ltb [9; 4; 7] 2 H)].
Defined.

(** C6, as stated, fails: the hole is slot 0, its only child [(4, 1)] is
    equivalent to the displaced value [(4, 2)], and the loop body moves
    the child up and descends; [p] ends below it. *)
Lemma sift_down_moves_equivalent_child :
  select_child key_lt [(9, 0); (4, 1)] 2 1 = Ok 1 /\
  key_lt (4, 1) (4, 2) = false /\ key_lt (4, 2) (4, 1) = false /\
  down_body key_lt [(9, 0); (4, 1)] 2 0 1 (4, 2)
    = Ok (Descend [(4, 1); (4, 1)] 1 3) /\
  __down_heap key_lt [(9, 0); (4, 1)] 2 0 (4, 2) = Ok [(4, 1); (4, 2)] /\
  __down_heap key_lt [(9, 0); (4, 1)] 2 0 (4, 2)
    <> Ok (upd [(9, 0); (4, 1)] 0 (4, 2)).
Proof. repeat split; try reflexivity. discriminate. Qed.

(** C6 (amended). In [__down_heap] the descent stops when there is no
    child, or when the candidate child compares less than the displaced
    value [p]; otherwise, and so also when the candidate is equivalent
    to [p], the candidate is moved up into the hole and the descent
    continues from its slot. *)
Theorem sift_down_step {A} (compare : A -> A -> bool) (a : list A)
  (n parent child : Z) (p : A) :
  0 <= parent < len a ->
  (forall fuel, n <= child ->
     down_loop compare fuel a n parent child p = Ok (upd a parent p)) /\
  (forall c x,
     select_child compare a n child = Ok c -> at_ a c = Some x ->
     (compare x p = true ->
        down_body compare a n parent child p = Ok Break /\
        forall fuel, child < n ->
          down_loop compare (S fuel) a n parent child p
            = Ok (upd a parent p)) /\
     (compare x p = false ->
        down_body compare a n parent child p
          = Ok (Descend (upd a parent x) c (2 * c + 1)) /\
        forall fuel, child < n ->
          down_loop compare (S fuel) a n parent child p
            = down_loop compare fuel (upd a parent x) n c (2 * c + 1) p)).
Proof.
  intros Hp. split.
  - intros fuel Hn. destruct fuel; simpl;
      (destruct (Z.ltb_spec child n); [lia |]); by apply wr_Ok.
  - intros c x Hsel Hx. split; intros Hxp.
    + assert (down_body compare a n parent child p = Ok Break) as Hbody.
      { unfold down_body. rewrite Hsel. simpl.
        rewrite (rd_Ok _ _ _ Hx). simpl. by rewrite Hxp. }
      split; [done |]. intros fuel Hc. simpl.
      destruct (Z.ltb_spec child n); [| lia].
      rewrite Hbody. simpl. by apply wr_Ok.
    + assert (down_body compare a n parent child p
              = Ok (Descend (upd a parent x) c (2 * c + 1))) as Hbody.
      { unfold down_body. rewrite Hsel. simpl.
        rewrite (rd_Ok _ _ _ Hx). simpl. rewrite Hxp.
        by rewrite wr_Ok. }
      split; [done |]. intros fuel Hc. simpl.
      destruct (Z.ltb_spec child n); [| lia].
      by rewrite Hbody.
Qed.

Lemma sift_down_step_witness :
  (forall fuel, 2 <= 1 ->
     down_loop key_lt fuel [(9, 0); (4, 1)] 2 0 1 (4, 2)
       = Ok (upd [(9, 0); (4, 1)] 0 (4, 2))) /\
  (forall c x,
     select_child key_lt [(9, 0); (4, 1)] 2 1 = Ok c ->
     at_ [(9, 0); (4, 1)] c = Some x ->
     (key_lt x (4, 2) = true ->
        down_body key_lt [(9, 0); (4, 1)] 2 0 1 (4, 2) = Ok Break /\
        forall fuel, 1 < 2 ->
          down_loop key_lt (S fuel) [(9, 0); (4, 1)] 2 0 1 (4, 2)
            = Ok (upd [(9, 0); (4, 1)] 0 (4, 2))) /\
     (key_lt x (4, 2) = false ->
        down_body key_lt [(9, 0); (4, 1)] 2 0 1 (4, 2)
          = Ok (Descend (upd [(9, 0); (4, 1)] 0 x) c (2 * c + 1)) /\
        forall fuel, 1 < 2 ->
          down_loop key_lt (S fuel) [(9, 0); (4, 1)] 2 0 1 (4, 2)
            = down_loop key_lt fuel (upd [(9, 0); (4, 1)] 0 x) 2 c
                (2 * c + 1) (4, 2))).
Proof.
  apply (sift_down_step key_lt [(9, 0); (4, 1)] 2 0 1 (4, 2)).
  unfold len. simpl. lia.
Defined.

(** C7, as stated, fails: the two children of slot 0 are equivalent and
    the candidate is the left one, index 1, not index 2. *)
Lemma select_child_tie_takes_left :
  key_lt (4, 1) (4, 2) = false /\ key_lt (4, 2) (4, 1) = false /\
  select_child key_lt [(9, 0); (4, 1); (4, 2)] 3 (2 * 0 + 1)
    = Ok (2 * 0 + 1) /\
  select_child key_lt [(9, 0); (4, 1); (4, 2)] 3 (2 * 0 + 1)
    <> Ok (2 * 0 + 2).
Proof. repeat split; try reflexivity. discriminate. Qed.

(** C7 (amended). When the hole has two children, the candidate is the
    right child, index [2 * hole + 2], exactly when the left child
    compares less than the right one; when it does not, and so also
    when the two children are equivalent, the candidate is the left
    child, index [2 * hole + 1]. *)
Theorem select_child_two_children {A} (compare : A -> A -> bool)
  (a : list A) (n hole : Z) (l r : A) :
  2 * hole + 2 < n ->
  at_ a (2 * hole + 1) = Some l ->
  at_ a (2 * hole + 2) = Some r ->
  select_child compare a n (2 * hole + 1)
    = Ok (if compare l r then 2 * hole + 2 else 2 * hole + 1) /\
  (compare l r = false -> compare r l = false ->
   select_child compare a n (2 * hole + 1) = Ok (2 * hole + 1)).
Proof.
  intros Hn Hl Hr.
  assert (select_child compare a n (2 * hole + 1)
          = Ok (if compare l r then 2 * hole + 2 else 2 * hole + 1)) as Hsel.
  { unfold select_child. destruct (Z.ltb_spec (2 * hole + 1) (n - 1)); [| lia].
    replace (2 * hole + 1 + 1) with (2 * hole + 2) by lia.
    by rewrite (rd_Ok _ _ _ Hl), (rd_Ok _ _ _ Hr). }
  split; [done |]. intros Hlr _. by rewrite Hsel, Hlr.
Qed.

Lemma select_child_two_children_witness :
  select_child key_lt [(9, 0); (4, 1); (4, 2)] 3 (2 * 0 + 1)
    = Ok (if key_lt (4, 1) (4, 2) then 2 * 0 + 2 else 2 * 0 + 1) /\
  (key_lt (4, 1) (4, 2) = false -> key_lt (4, 2) (4, 1) = false ->
   select_child key_lt [(9, 0); (4, 1); (4, 2)] 3 (2 * 0 + 1)
     = Ok (2 * 0 + 1)).
Proof.
  apply (select_child_two_children key_lt [(9, 0); (4, 1); (4, 2)] 3 0
           (4, 1) (4, 2)); [lia | reflexivity | reflexivity].
Defined.

(** ** The parallel build when there is nothing to sift *)

Section NoBlocks.
Context {A : Type} (compare : A -> A -> bool).
Variable w : Z.
Hypothesis Hw : 0 < w.

Lemma pow2_half : 2 ^ w = 2 * 2 ^ (w - 1).
Proof. rewrite <- Z.pow_succ_r by lia. f_equal. lia. Qed.

Lemma pow2_pos : 0 < 2 ^ (w - 1).
Proof. apply Z.pow_pos_nonneg; lia. Qed.

(** The decrement of a zero counter wraps to the largest [size_t], and
    the block front computed from it is [- blockSize]. *)
Lemma wrapped_block_front (blockSize : Z) :
  1 <= blockSize <= 2 ^ (w - 1) ->
  to_SizeType w (to_size_t w (0 - 1) * blockSize) = - blockSize.
Proof.
  intros Hbs. pose proof pow2_half. pose proof pow2_pos.
  unfold to_SizeType, to_size_t.
  assert ((0 - 1) mod 2 ^ w = 2 ^ w - 1) as ->.
  { symmetry. apply (Z.mod_unique _ _ (-1)); lia. }
  assert (((2 ^ w - 1) * blockSize) mod 2 ^ w = 2 ^ w - blockSize) as ->.
  { symmetry. apply (Z.mod_unique _ _ (blockSize - 1)); lia. }
  destruct (Z.ltb_spec (2 ^ w - blockSize) (2 ^ (w - 1))); lia.
Qed.

(** With no block to process the calling thread still takes one: it
    starts at index [-1]. *)
Lemma parallel_work_no_blocks (a : list A) (length nthreads blockSize : Z) :
  1 <= blockSize <= 2 ^ (w - 1) ->
  parallel_work compare w a length 0 0 nthreads blockSize = OutOfRange.
Proof.
  intros Hbs. unfold parallel_work.
  rewrite wrapped_block_front by done.
  unfold __down_block.
  replace (0 - - blockSize) with blockSize by lia.
  destruct (Z.to_nat blockSize) as [| i] eqn:Hi; [lia |].
  simpl. rewrite rd_out; [done | lia].
Qed.

Lemma number_of_blocks_zero (blockSize : Z) :
  number_of_blocks w 0 blockSize = 0.
Proof.
  unfold number_of_blocks, to_size_t.
  change (Z.rem 0 blockSize) with 0. change (0 ÷ blockSize) with 0. simpl.
  apply Z.mod_0_l. pose proof pow2_half. pose proof pow2_pos. lia.
Qed.

(** [reserve] takes every request below [2^(w-1)], and throws on the
    wrapped [0 - 1]. *)
Lemma reserve_small (n : Z) : n < 2 ^ (w - 1) -> reserve w n = Ok tt.
Proof.
  intros Hn. unfold reserve. destruct (Z.leb_spec (2 ^ (w - 1)) n); [lia | done].
Qed.

Lemma reserve_wrapped : reserve w (to_size_t w (0 - 1)) = LengthError.
Proof.
  pose proof pow2_half. pose proof pow2_pos. unfold reserve, to_size_t.
  assert ((0 - 1) mod 2 ^ w = 2 ^ w - 1) as ->.
  { symmetry. apply (Z.mod_unique _ _ (-1)); lia. }
  destruct (Z.leb_spec (2 ^ (w - 1)) (2 ^ w - 1)); [done | lia].
Qed.

Lemma max_threads_pos (hw maxThreads : Z) : 1 <= max_threads hw maxThreads.
Proof. unfold max_threads. destruct (Z.leb_spec maxThreads 0); lia. Qed.

(** On a sequence of fewer than two elements, for every block size and
    thread count, [parallel_make_heap] with a comparator reads the slot
    before [first], and the overload without comparator throws from
    [reserve]. *)
Lemma parallel_make_heap_small (hw : Z) (a : list A) (blockSize maxThreads : Z) :
  len a <= 1 ->
  1 <= blockSize <= 2 ^ (w - 1) ->
  parallel_make_heap compare w hw a blockSize maxThreads = OutOfRange /\
  parallel_make_heap_default compare w hw a blockSize maxThreads = LengthError.
Proof.
  intros Hlen Hbs.
  assert (len a ÷ 2 = 0) as Hpe.
  { assert (0 <= len a) by (unfold len; lia). lia. }
  pose proof (max_threads_pos hw maxThreads) as Hmt.
  unfold parallel_make_heap, parallel_make_heap_default.
  rewrite Hpe, number_of_blocks_zero.
  rewrite Z.min_l by lia. change (0 <? 1) with true. cbv iota.
  split.
  - change (1 - 1) with 0. unfold to_size_t at 1.
    rewrite Z.mod_0_l by (pose proof pow2_half; pose proof pow2_pos; lia).
    rewrite reserve_small by apply pow2_pos. cbn [bind].
    by apply parallel_work_no_blocks.
  - by rewrite reserve_wrapped.
Qed.
End NoBlocks.

(** C8. On the empty range the operations without observer, [is_heap],
    and the observer variants of [make_heap] and [sort_heap] return and
    leave the range empty.  The observer variants of [push_heap] and
    [pop_heap] dereference [last - 1], and [parallel_make_heap] with a
    comparator (here 64-bit, block size 1, one thread) sifts from index
    [-1]: all three read outside the range.  [parallel_make_heap]
    without comparator reads nothing: with no block its thread count is
    0, and [threads.reserve(nthreads - 1)] throws [std::length_error]. *)
Theorem empty_range_operations {A} (compare : A -> A -> bool) (hw : Z) :
  make_heap compare [] = Ok [] /\
  push_heap compare [] = Ok [] /\
  pop_heap compare [] = Ok [] /\
  sort_heap compare [] = Ok [] /\
  is_heap compare [] = Ok true /\
  make_heap_moved compare [] = Ok ([], []) /\
  sort_heap_moved compare [] = Ok ([], []) /\
  push_heap_moved compare [] = OutOfRange /\
  pop_heap_moved compare [] = OutOfRange /\
  parallel_make_heap compare 64 hw [] 1 1 = OutOfRange /\
  parallel_make_heap_default compare 64 hw [] 1 1 = LengthError.
Proof. repeat split; reflexivity. Qed.

(** C4. On a one-element sequence, with block size 1 and one thread (so
    that the call runs on the calling thread alone), [parallel_make_heap]
    has no block to process, takes one all the same, and reads the slot
    before [first]; [make_heap] returns the sequence. *)
Theorem parallel_make_heap_singleton {A} (compare : A -> A -> bool) (hw : Z)
  (x : A) :
  parallel_make_heap compare 64 hw [x] 1 1 = OutOfRange /\
  make_heap compare [x] = Ok [x].
Proof. split; reflexivity. Qed.

(** ** The block counter *)

Lemma count_true_replicate (n : nat) : count_true (replicate n false) = 0%nat.
Proof. induction n; simpl; done. Qed.

Lemma count_true_set (l : list bool) (t : nat) :
  l !! t = Some false ->
  count_true (<[t := true]> l) = S (count_true l) /\
  (count_true l < length l)%nat.
Proof.
  revert t. induction l as [| b l IH]; intros [| t] Ht; simplify_eq/=.
  - split; [done |].
    assert (count_true l <= length l)%nat; [| lia].
    clear. induction l as [| [] l IH]; simpl; lia.
  - destruct (IH t Ht) as [-> Hlt]. destruct b; simpl; lia.
Qed.

Section Counter.
Variable w : Z.
Hypothesis Hw : 0 < w.

Lemma mod_wrap_down (x : Z) : - 2 ^ w <= x < 0 -> x mod 2 ^ w = x + 2 ^ w.
Proof. intros Hx. symmetry. apply (Z.mod_unique _ _ (-1)); lia. Qed.

Lemma mod_wrap_up (x : Z) : 2 ^ w <= x < 2 * 2 ^ w -> x mod 2 ^ w = x - 2 ^ w.
Proof. intros Hx. symmetry. apply (Z.mod_unique _ _ 1); lia. Qed.

Variables nthreads nblocks : Z.
Hypothesis Hthreads : 1 <= nthreads.
Hypothesis Hblocks : 1 <= nblocks.
Hypothesis Hfit : nblocks + nthreads <= 2 ^ w.

(** A claim on a counter that still holds blocks takes the next lower
    index, and the test does not fire. *)
Lemma claim_block (c : Z) :
  1 <= c <= nblocks -> claim w nthreads c = (c - 1, false).
Proof.
  intros Hc. unfold claim, to_size_t.
  rewrite (Z.mod_small (c - 1)) by lia.
  rewrite (Z.mod_small (c - 1 + nthreads)) by lia.
  rewrite (Z.mod_small nthreads) by lia.
  f_equal. apply Z.ltb_ge. lia.
Qed.

(** The [e + 1]-st claim on an exhausted counter wraps, and the test
    fires. *)
Lemma claim_empty (e : Z) :
  0 <= e < nthreads ->
  claim w nthreads (to_size_t w (- e)) = (2 ^ w - 1 - e, true).
Proof.
  intros He. unfold claim, to_size_t.
  assert (((- e) mod 2 ^ w - 1) mod 2 ^ w = 2 ^ w - 1 - e) as ->.
  { destruct (decide (e = 0)) as [-> | Hne].
    - rewrite Z.mod_0_l by lia. rewrite mod_wrap_down by lia. lia.
    - rewrite (mod_wrap_down (- e)) by lia. rewrite Z.mod_small by lia. lia. }
  rewrite (mod_wrap_up (2 ^ w - 1 - e + nthreads)) by lia.
  rewrite (Z.mod_small nthreads) by lia.
  f_equal. apply Z.ltb_lt. lia.
Qed.

Lemma claim_init_inv :
  claim_inv w nthreads nblocks (claim_init w nthreads nblocks) 1 0.
Proof.
  unfold claim_init, claim_inv. simpl.
  assert (to_size_t w (nblocks - 1) = nblocks - 1) as Hsmall
      by (apply Z.mod_small; lia).
  split_and!; [lia | lia | lia | lia | | | | |].
  - f_equal. lia.
  - rewrite length_replicate. lia.
  - apply count_true_replicate.
  - unfold claim_view, valid_claims, empty_claims. simpl. rewrite Hsmall.
    by rewrite Z.sub_0_r.
  - intros t v Hin. apply list_elem_of_singleton in Hin. congruence.
Qed.

Lemma claim_step_inv (s : claim_state) (t m e : nat) :
  claim_inv w nthreads nblocks s m e ->
  exists m' e', claim_inv w nthreads nblocks (claim_step w nthreads s t) m' e'.
Proof.
  intros Hinv. unfold claim_step.
  destruct (complete s !! t) as [[] |] eqn:Ht; [by eauto | | by eauto].
  destruct Hinv as (Hm & He & Hme & Hc & Hlen & Hcount & Hview & Hdone).
  destruct (count_true_set _ _ Ht) as [Hset Hlt].
  destruct (decide (Z.of_nat m < nblocks)) as [Hmore | Hnomore].
  - (* a block is left *)
    assert (e = 0%nat) as -> by lia.
    assert (counter s = nblocks - Z.of_nat m) as Hc'.
    { rewrite Hc. unfold to_size_t. rewrite Z.mod_small by lia. lia. }
    rewrite Hc', claim_block by lia.
    exists (S m), 0%nat. unfold claim_inv. cbn [counter complete claims].
    split_and!; [lia | lia | lia | lia | | lia | done | |].
    + unfold to_size_t. rewrite Z.mod_small by lia. lia.
    + rewrite fmap_app, Hview. unfold valid_claims, empty_claims.
      rewrite seq_S, fmap_app. simpl. rewrite !app_nil_r.
      unfold claim_view. simpl. do 3 f_equal. lia.
    + intros t' v Hin. apply elem_of_app in Hin as [Hin | Hin]; [by eauto |].
      apply list_elem_of_singleton in Hin. congruence.
  - (* the counter is exhausted *)
    assert (Z.of_nat m = nblocks) as Hmn by lia.
    assert (counter s = to_size_t w (- Z.of_nat e)) as Hc'.
    { rewrite Hc. f_equal. lia. }
    rewrite Hc', claim_empty by lia.
    exists m, (S e). unfold claim_inv. cbn [counter complete claims].
    split_and!; [lia | lia | lia | lia | | | | |].
    + unfold to_size_t. rewrite mod_wrap_down by lia. lia.
    + rewrite length_insert. lia.
    + by rewrite Hset, Hcount.
    + rewrite fmap_app, Hview. unfold empty_claims.
      rewrite seq_S, fmap_app, app_assoc. simpl. unfold claim_view. simpl.
      done.
    + intros t' v Hin. apply elem_of_app in Hin as [Hin | Hin].
      * destruct (decide (t = t')) as [<- | Hne].
        -- apply list_lookup_insert_eq. by eapply lookup_lt_Some.
        -- rewrite list_lookup_insert_ne by done. by eauto.
      * apply list_elem_of_singleton in Hin.
        assert (t' = t) as -> by congruence.
        apply list_lookup_insert_eq. by eapply lookup_lt_Some.
Qed.

Lemma claim_run_inv_from (schedule : list nat) : forall s m e,
  claim_inv w nthreads nblocks s m e ->
  exists m' e',
    claim_inv w nthreads nblocks (foldl (claim_step w nthreads) s schedule) m' e'.
Proof.
  induction schedule as [| t schedule IH]; intros s m e Hinv; [by eauto |].
  simpl. destruct (claim_step_inv s t m e Hinv) as (m1 & e1 & Hinv1).
  by apply (IH _ m1 e1).
Qed.

(** The two counts of the invariant are read off the log: [m + e]
    claims have been made. *)
Lemma claim_inv_length (s : claim_state) (m e : nat) :
  claim_inv w nthreads nblocks s m e ->
  length (claims s) = (m + e)%nat.
Proof.
  intros (_ & _ & _ & _ & _ & _ & Hview & _).
  apply (f_equal length) in Hview.
  unfold valid_claims, empty_claims in Hview.
  by rewrite length_fmap, length_app, !length_fmap, !length_seq in Hview.
Qed.

(** The claim of a worker that is still in its loop, after [m + e]
    claims. *)
Lemma claim_step_live (s : claim_state) (t m e : nat) :
  claim_inv w nthreads nblocks s m e ->
  complete s !! t = Some false ->
  claim_step w nthreads s t =
    ClaimState (to_size_t w (counter s - 1))
      (if nblocks <=? Z.of_nat (m + e) then <[t := true]> (complete s)
       else complete s)
      (claims s ++ [(t, to_size_t w (counter s - 1),
                     nblocks <=? Z.of_nat (m + e))]) /\
  (Z.of_nat (m + e) < nblocks ->
   to_size_t w (counter s - 1) = nblocks - 1 - Z.of_nat (m + e)) /\
  (nblocks <= Z.of_nat (m + e) ->
   to_size_t w (counter s - 1) = 2 ^ w - 1 - (Z.of_nat (m + e) - nblocks) /\
   Z.of_nat (m + e) < nblocks + nthreads).
Proof.
  intros (Hm & He & Hme & Hc & Hlen & Hcount & _ & _) Ht.
  destruct (count_true_set _ _ Ht) as [_ Hlt].
  unfold claim_step. rewrite Ht.
  destruct (decide (Z.of_nat m < nblocks)) as [Hmore | Hnomore].
  - assert (e = 0%nat) as -> by lia.
    assert (counter s = nblocks - Z.of_nat m) as Hc'.
    { rewrite Hc. unfold to_size_t. rewrite Z.mod_small by lia. lia. }
    pose proof (claim_block (counter s) ltac:(lia)) as Hclaim.
    assert (to_size_t w (counter s - 1) = counter s - 1) as Hv
        by (by apply (f_equal fst) in Hclaim).
    rewrite Hclaim, Hv.
    destruct (Z.leb_spec nblocks (Z.of_nat (m + 0))) as [Hle | _]; [lia |].
    split_and!; [done | lia | lia].
  - assert (Z.of_nat m = nblocks) as Hmn by lia.
    assert (counter s = to_size_t w (- Z.of_nat e)) as Hc'.
    { rewrite Hc. f_equal. lia. }
    pose proof (claim_empty (Z.of_nat e) ltac:(lia)) as Hclaim.
    rewrite <- Hc' in Hclaim.
    assert (to_size_t w (counter s - 1) = 2 ^ w - 1 - Z.of_nat e) as Hv
        by (by apply (f_equal fst) in Hclaim).
    rewrite Hclaim, Hv.
    destruct (Z.leb_spec nblocks (Z.of_nat (m + e))) as [_ | Hlt']; [| lia].
    split_and!; [done | lia | lia].
Qed.

(** The workers of the log, in the order of their claims, are taken
    from the schedule in its order. *)
Lemma claim_run_workers (schedule : list nat) : forall s,
  exists l,
    (fun c : nat * Z * bool => c.1.1)
      <$> claims (foldl (claim_step w nthreads) s schedule)
    = ((fun c : nat * Z * bool => c.1.1) <$> claims s) ++ l /\
    sublist l schedule.
Proof.
  induction schedule as [| t schedule IH]; intros s; simpl.
  - exists []. by rewrite app_nil_r.
  - destruct (IH (claim_step w nthreads s t)) as (l & Hl & Hsub).
    rewrite Hl. unfold claim_step.
    destruct (complete s !! t) as [[] |];
      [exists l; split; [done | by apply sublist_cons] |
      | exists l; split; [done | by apply sublist_cons]].
    destruct (claim w nthreads (counter s)) as [v empty].
    cbn [claims]. rewrite fmap_app, <- app_assoc. simpl.
    exists (t :: l). split; [done | by apply sublist_skip].
Qed.
End Counter.

(** C9. Starting from [nblocks >= 1] with [nthreads >= 1] workers, under
    every interleaving [schedule] of the workers' claims, let [k] be the
    number of claims made so far (the first, by the calling thread,
    included).  The counter has been decremented [k] times modulo
    [2^w]; the workers of the log are taken from the schedule in its
    order; the first [nblocks] claims took [nblocks - 1, nblocks - 2,
    ..., 0], unwrapped, and every later one a wrapped value, and as many
    workers have left their loop as there were later claims.  When the
    schedule goes on with a worker [t] that is still in its loop, [t]
    claims: the counter is decremented once more, the new value is what
    the worker takes, and the test answers "empty" exactly when
    [nblocks <= k]; then the value is [2^w - 1 - (k - nblocks)], at
    least [2^w - nthreads], and the worker leaves its loop; otherwise it
    is the block [nblocks - 1 - k].
    So every value taken as a block index is below [nblocks], on every
    wrapped value the test [v + nthreads < nthreads] (modulo [2^w]) is
    true, and when the schedule goes on with the worker that read it
    nothing changes: it claims no more.
    ([nblocks + nthreads <= 2^w]: the block count comes from a signed
    [w]-bit length and the thread count from an [int].) *)
Theorem claim_protocol (w nthreads nblocks : Z) (schedule : list nat) :
  0 < w -> 1 <= nthreads -> 1 <= nblocks -> nblocks + nthreads <= 2 ^ w ->
  let s := claim_run w nthreads nblocks schedule in
  let k := Z.of_nat (length (claims s)) in
  1 <= k <= nblocks + nthreads /\
  counter s = to_size_t w (nblocks - k) /\
  Z.of_nat (count_true (complete s)) = Z.max 0 (k - nblocks) /\
  sublist ((fun c : nat * Z * bool => c.1.1) <$> claims s)
          (Z.to_nat (nthreads - 1) :: schedule) /\
  claim_view <$> claims s
    = valid_claims nblocks (Z.to_nat (Z.min k nblocks))
      ++ empty_claims w (Z.to_nat (k - nblocks)) /\
  (forall t, complete s !! t = Some false ->
     claim_run w nthreads nblocks (schedule ++ [t]) =
       ClaimState (to_size_t w (counter s - 1))
         (if nblocks <=? k then <[t := true]> (complete s) else complete s)
         (claims s ++ [(t, to_size_t w (counter s - 1), nblocks <=? k)]) /\
     (k < nblocks -> to_size_t w (counter s - 1) = nblocks - 1 - k) /\
     (nblocks <= k ->
      to_size_t w (counter s - 1) = 2 ^ w - 1 - (k - nblocks) /\
      2 ^ w - nthreads <= to_size_t w (counter s - 1))) /\
  (forall t v empty,
     (t, v, empty) ∈ claims s ->
     (empty = false /\ 0 <= v < nblocks) \/
     (empty = true /\ 2 ^ w - nthreads <= v <= 2 ^ w - 1 /\
      (to_size_t w (v + nthreads) <? to_size_t w nthreads) = true /\
      complete s !! t = Some true /\
      claim_run w nthreads nblocks (schedule ++ [t]) = s)).
Proof.
  intros Hw Hthreads Hblocks Hfit s k.
  destruct (claim_run_inv_from w Hw nthreads nblocks Hthreads Hblocks Hfit
              schedule _ 1%nat 0%nat
              (claim_init_inv w Hw nthreads nblocks Hthreads Hblocks Hfit))
    as (m & e & Hinv).
  fold (claim_run w nthreads nblocks schedule) in Hinv. fold s in Hinv.
  pose proof (claim_inv_length w nthreads nblocks s m e Hinv) as Hk.
  assert (k = Z.of_nat (m + e)) as Hkme by (unfold k; by rewrite Hk).
  pose proof Hinv as (Hm & He & Hme & Hc & Hlen & Hcount & Hview & Hdone).
  assert (forall t, claim_run w nthreads nblocks (schedule ++ [t])
                    = claim_step w nthreads s t) as Hnext.
  { intros t. unfold claim_run. by rewrite foldl_app. }
  assert (Z.to_nat (Z.min k nblocks) = m) as Hmin by lia.
  assert (Z.to_nat (k - nblocks) = e) as Hrest by lia.
  split_and!.
  - lia.
  - lia.
  - rewrite Hc. f_equal. lia.
  - rewrite Hcount. lia.
  - destruct (claim_run_workers w nthreads schedule
                (claim_init w nthreads nblocks)) as (l & Hl & Hsub).
    fold (claim_run w nthreads nblocks schedule) in Hl. fold s in Hl.
    rewrite Hl. simpl. by apply sublist_skip.
  - by rewrite Hmin, Hrest.
  - intros t Ht. rewrite Hnext, Hkme.
    destruct (claim_step_live w Hw nthreads nblocks Hthreads Hblocks Hfit
                s t m e Hinv Ht) as (Hstep & Hblock & Hempty).
    split_and!; [done | done |].
    intros Hle. destruct (Hempty Hle) as [Hv Hlt]. split; [done | lia].
  - intros t v empty Hin.
    assert (claim_view (t, v, empty) ∈ claim_view <$> claims s)
      as Hv by (by apply list_elem_of_fmap_2).
    rewrite Hview in Hv. unfold claim_view in Hv. simpl in Hv.
    apply elem_of_app in Hv as [Hv | Hv].
    + left. apply list_elem_of_fmap in Hv as (i & [= -> ->] & Hi).
      apply elem_of_seq in Hi. split; [done | lia].
    + right. apply list_elem_of_fmap in Hv as (i & [= -> ->] & Hi).
      apply elem_of_seq in Hi.
      pose proof (Hdone t (2 ^ w - 1 - Z.of_nat i) Hin) as Hleft.
      split_and!; [done | lia | lia | | done |].
      * unfold to_size_t. rewrite mod_wrap_up, Z.mod_small by lia.
        apply Z.ltb_lt. lia.
      * rewrite Hnext. unfold claim_step. by rewrite Hleft.
Qed.

Lemma claim_protocol_witness :
  let s := claim_run 64 2 3 [0; 1; 0]%nat in
  let k := Z.of_nat (length (claims s)) in
  1 <= k <= 3 + 2 /\
  counter s = to_size_t 64 (3 - k) /\
  Z.of_nat (count_true (complete s)) = Z.max 0 (k - 3) /\
  sublist ((fun c : nat * Z * bool => c.1.1) <$> claims s)
          (Z.to_nat (2 - 1) :: [0; 1; 0]%nat) /\
  claim_view <$> claims s
    = valid_claims 3 (Z.to_nat (Z.min k 3))
      ++ empty_claims 64 (Z.to_nat (k - 3)) /\
  (forall t, complete s !! t = Some false ->
     claim_run 64 2 3 ([0; 1; 0]%nat ++ [t]) =
       ClaimState (to_size_t 64 (counter s - 1))
         (if 3 <=? k then <[t := true]> (complete s) else complete s)
         (claims s ++ [(t, to_size_t 64 (counter s - 1), 3 <=? k)]) /\
     (k < 3 -> to_size_t 64 (counter s - 1) = 3 - 1 - k) /\
     (3 <= k ->
      to_size_t 64 (counter s - 1) = 2 ^ 64 - 1 - (k - 3) /\
      2 ^ 64 - 2 <= to_size_t 64 (counter s - 1))) /\
  (forall t v empty,
     (t, v, empty) ∈ claims s ->
     (empty = false /\ 0 <= v < 3) \/
     (empty = true /\ 2 ^ 64 - 2 <= v <= 2 ^ 64 - 1 /\
      (to_size_t 64 (v + 2) <? to_size_t 64 2) = true /\
      complete s !! t = Some true /\
      claim_run 64 2 3 ([0; 1; 0]%nat ++ [t]) = s)).
Proof.
  apply (claim_protocol 64 2 3 [0; 1; 0]%nat); lia.
Defined.

(** ** The events of the callback versions *)

Section MovedFacts.
Context {A : Type} (compare : A -> A -> bool).
Implicit Types (a b : list A) (p x v : A) (E : list (event A)).

Lemma select_child_range b n hole :
  0 <= hole -> 2 * hole + 1 < n <= len b ->
  exists c x,
    select_child compare b n (2 * hole + 1) = Ok c /\
    at_ b c = Some x /\ 2 * hole + 1 <= c <= 2 * hole + 2 /\ c < n.
Proof.
  intros Hh Hn. unfold select_child.
  destruct (at_in_range b (2 * hole + 1)) as [l Hl]; [lia |].
  destruct (Z.ltb_spec (2 * hole + 1) (n - 1)) as [Hlt | Hge].
  - destruct (at_in_range b (2 * hole + 1 + 1)) as [r Hr]; [lia |].
    rewrite (rd_Ok _ _ _ Hl), (rd_Ok _ _ _ Hr). simpl.
    destruct (compare l r).
    + exists (2 * hole + 1 + 1), r. repeat split; try done; lia.
    + exists (2 * hole + 1), l. repeat split; try done; lia.
  - exists (2 * hole + 1), l. repeat split; try done; lia.
Qed.

Lemma sift_events_targets b0 b1 p ppos tlo thi flo fhi E i :
  sift_events b0 b1 p ppos tlo thi flo fhi E ->
  i ∈ ev_to <$> E -> tlo <= i <= thi.
Proof.
  intros (_ & Hall & _) Hi.
  apply list_elem_of_fmap in Hi as (e & -> & He).
  by destruct (proj1 (Forall_forall _ _) Hall e He) as [? _].
Qed.

Lemma sift_events_origins b0 b1 p ppos tlo thi flo fhi E i :
  sift_events b0 b1 p ppos tlo thi flo fhi E ->
  i ∈ ev_from <$> E -> i = ppos \/ flo <= i <= fhi.
Proof.
  intros (_ & Hall & _) Hi.
  apply list_elem_of_fmap in Hi as (e & -> & He).
  destruct (proj1 (Forall_forall _ _) Hall e He) as (_ & _ & [[? _] | [? _]]);
    auto.
Qed.

(** The last step of a sift. *)
Lemma place_moved_spec b slot p ppos tlo thi flo fhi :
  0 <= slot < len b -> tlo <= slot <= thi ->
  place_moved b slot p ppos = Ok (upd b slot p, [(p, ppos, slot)]) /\
  sift_events b (upd b slot p) p ppos tlo thi flo fhi [(p, ppos, slot)].
Proof.
  intros Hs Ht. unfold place_moved, moved.
  rewrite wr_Ok by done. simpl.
  rewrite (rd_Ok _ _ p) by (by apply at_upd_eq). simpl.
  split; [done |]. unfold sift_events. split_and!.
  - apply len_upd.
  - apply Forall_singleton. unfold ev_to, ev_from, ev_val. simpl.
    split; [done |]. split; [by apply at_upd_eq | by left].
  - apply NoDup_singleton.
  - apply NoDup_singleton.
  - intros i Hi. apply at_upd_ne. intros ->. apply Hi. simpl. by left.
  - exists (p, ppos, slot). split; [by left | done].
Qed.

(** One move of a sift, before the events of the rest of the sift. *)
Lemma sift_events_cons b b1 p ppos hole c x E
    tlo thi flo fhi tlo' thi' flo' fhi' :
  0 <= hole < len b -> at_ b c = Some x ->
  sift_events (upd b hole x) b1 p ppos tlo' thi' flo' fhi' E ->
  tlo <= hole <= thi -> flo <= c <= fhi ->
  tlo <= tlo' -> thi' <= thi -> flo <= flo' -> fhi' <= fhi ->
  ~ (tlo' <= hole <= thi') -> ~ (flo' <= hole <= fhi') ->
  ~ (flo' <= c <= fhi') -> c <> ppos ->
  sift_events b b1 p ppos tlo thi flo fhi ((x, c, hole) :: E).
Proof.
  intros Hh Hx Hev Hth Hfc Ht1 Ht2 Hf1 Hf2 Hnt Hnf Hnc Hcp.
  pose proof (sift_events_targets _ _ _ _ _ _ _ _ _ hole Hev) as Htg.
  pose proof (sift_events_origins _ _ _ _ _ _ _ _ _ c Hev) as Hor.
  destruct Hev as (Hlen & Hall & Hnd1 & Hnd2 & Hframe & Hp).
  unfold sift_events. split_and!.
  - by rewrite Hlen, len_upd.
  - apply Forall_cons. split.
    + unfold ev_to, ev_from, ev_val. simpl. split; [done |]. split; [| by right].
      rewrite Hframe by tauto. by apply at_upd_eq.
    + eapply Forall_impl; [exact Hall |]. simpl.
      intros e (Hto & Hval & Hfrom). split; [lia |]. split; [done |].
      destruct Hfrom as [Hfrom | [Hfrom Hb]]; [by left | right].
      split; [lia |]. rewrite at_upd_ne in Hb; [done | lia].
  - simpl. apply NoDup_cons. split; [tauto | done].
  - simpl. apply NoDup_cons. split; [| done].
    intros Hin. destruct (Hor Hin); [done | tauto].
  - intros i Hi. simpl in Hi. apply not_elem_of_cons in Hi as [Hne Hi].
    rewrite Hframe by done. by apply at_upd_ne.
  - destruct Hp as (e & He & Hep). exists e. split; [by right | done].
Qed.

Lemma down_loop_moved_spec n p ppos fuel : forall b hole,
  0 <= hole < n -> n <= len b ->
  ppos <= hole \/ n <= ppos ->
  n <= 2 * hole + 1 + Z.of_nat fuel ->
  exists b1 E,
    down_loop_moved compare fuel b n hole (2 * hole + 1) p ppos = Ok (b1, E) /\
    sift_events b b1 p ppos hole (n - 1) (hole + 1) (n - 1) E.
Proof.
  induction fuel as [| fuel IH]; intros b hole Hh Hn Hpp Hfuel; simpl.
  - destruct (Z.ltb_spec (2 * hole + 1) n); [lia |].
    eexists _, _. apply place_moved_spec; lia.
  - destruct (Z.ltb_spec (2 * hole + 1) n) as [Hc | Hc];
      [| eexists _, _; apply place_moved_spec; lia].
    destruct (select_child_range b n hole) as (c & x & Hsel & Hx & Hcc & Hcn);
      [lia | lia |].
    rewrite Hsel. simpl. rewrite (rd_Ok _ _ _ Hx). simpl.
    destruct (compare x p); [eexists _, _; apply place_moved_spec; lia |].
    rewrite wr_Ok by lia. simpl. unfold moved.
    rewrite (rd_Ok _ _ x) by (apply at_upd_eq; lia). simpl.
    destruct (IH (upd b hole x) c) as (b1 & E & Hrun & Hev);
      [lia | rewrite len_upd; lia | lia | lia |].
    rewrite Hrun. simpl. exists b1, ((x, c, hole) :: E). split; [done |].
    apply (sift_events_cons b b1 p ppos hole c x E
             hole (n - 1) (hole + 1) (n - 1) c (n - 1) (c + 1) (n - 1));
      try done; lia.
Qed.

Lemma down_heap_moved_spec n p ppos b hole :
  0 <= hole < n -> n <= len b ->
  ppos <= hole \/ n <= ppos ->
  exists b1 E,
    __down_heap_moved compare b n hole p ppos = Ok (b1, E) /\
    sift_events b b1 p ppos hole (n - 1) (hole + 1) (n - 1) E.
Proof.
  intros. unfold __down_heap_moved. apply down_loop_moved_spec; try done. lia.
Qed.

Lemma up_loop_moved_spec p ppos fuel : forall b hole,
  0 <= hole < len b -> hole <= ppos ->
  hole <= Z.of_nat fuel ->
  exists b1 E,
    up_loop_moved compare fuel b (parent_of hole) hole p ppos = Ok (b1, E) /\
    sift_events b b1 p ppos 0 hole 0 (hole - 1) E.
Proof.
  induction fuel as [| fuel IH]; intros b hole Hh Hpp Hfuel; simpl.
  - destruct (Z.ltb_spec 0 hole); [lia |].
    eexists _, _. apply place_moved_spec; lia.
  - destruct (Z.ltb_spec 0 hole) as [Hpos | Hpos];
      [| eexists _, _; apply place_moved_spec; lia].
    pose proof (parent_of_lt hole Hpos) as Hpl.
    destruct (at_in_range b (parent_of hole)) as [x Hx]; [lia |].
    rewrite (rd_Ok _ _ _ Hx). simpl.
    destruct (compare x p); [| eexists _, _; apply place_moved_spec; lia].
    rewrite wr_Ok by lia. simpl. unfold moved.
    rewrite (rd_Ok _ _ x) by (apply at_upd_eq; lia). simpl.
    change ((parent_of hole - 1) ÷ 2) with (parent_of (parent_of hole)).
    destruct (IH (upd b hole x) (parent_of hole)) as (b1 & E & Hrun & Hev);
      [rewrite len_upd; lia | lia | lia |].
    rewrite Hrun. simpl. exists b1, ((x, parent_of hole, hole) :: E).
    split; [done |].
    apply (sift_events_cons b b1 p ppos hole (parent_of hole) x E
             0 hole 0 (hole - 1) 0 (parent_of hole) 0 (parent_of hole - 1));
      try done; lia.
Qed.

Lemma up_heap_moved_spec p ppos b hole :
  0 <= hole < len b -> hole <= ppos ->
  exists b1 E,
    __up_heap_moved compare b hole p ppos = Ok (b1, E) /\
    sift_events b b1 p ppos 0 hole 0 (hole - 1) E.
Proof.
  intros. unfold __up_heap_moved. apply up_loop_moved_spec; try done. lia.
Qed.
End MovedFacts.

Section RelocationFacts.
Context {A : Type} (compare : A -> A -> bool).
Implicit Types (a b : list A) (p x v : A) (E : list (event A)).

(** A value reported in the slot where it already was. *)
Lemma relocation_stay a i v :
  at_ a i = Some v -> relocation a a [(v, i, i)].
Proof.
  intros Hv. unfold relocation. split_and!; try done.
  - intros e He. apply list_elem_of_singleton in He. by subst e.
  - apply NoDup_singleton.
  - apply NoDup_singleton.
Qed.

(** A sift of the value of slot [ppos]. *)
Lemma sift_relocation a b1 p ppos tlo thi flo fhi E :
  sift_events a b1 p ppos tlo thi flo fhi E ->
  at_ a ppos = Some p ->
  len b1 = len a /\ relocation a b1 E /\ exists e, e ∈ E /\ ev_from e = ppos.
Proof.
  intros (Hlen & Hall & Hnd1 & Hnd2 & Hframe & e & He & Hfrom & _) Hp.
  split; [done |]. split; [| by exists e].
  unfold relocation. split_and!; try done.
  intros e' He'.
  destruct (proj1 (Forall_forall _ _) Hall e' He')
    as (_ & Hto & [[Hf Hv] | [_ Hb]]); [| by split].
  split; [| done]. by rewrite Hf, Hv.
Qed.

(** A sift of the former last value through a hole opened at [k], whose
    value went to the last slot [m], and the event that reports it. *)
Lemma pop_relocation a m k x v b1 E tlo thi flo fhi :
  0 <= k < m -> m < len a ->
  at_ a k = Some x -> at_ a m = Some v ->
  sift_events (upd a m x) b1 v m tlo thi flo fhi E ->
  thi < m -> fhi < m -> ~ (flo <= k <= fhi) ->
  moved b1 m k m = Ok (x, k, m) /\
  len b1 = len a /\
  relocation a b1 (E ++ [(x, k, m)]).
Proof.
  intros Hk Hm Hx Hv Hev Hthi Hfhi Hnk.
  pose proof (sift_events_targets _ _ _ _ _ _ _ _ _ m Hev) as Htg.
  pose proof (sift_events_origins _ _ _ _ _ _ _ _ _ k Hev) as Hor.
  destruct Hev as (Hlen & Hall & Hnd1 & Hnd2 & Hframe & _).
  rewrite len_upd in Hlen.
  assert (at_ b1 m = Some x) as Hlast.
  { rewrite Hframe; [apply at_upd_eq; lia |]. intros Hin. apply Htg in Hin. lia. }
  split; [unfold moved; by rewrite (rd_Ok _ _ _ Hlast) |].
  split; [done |].
  unfold relocation. rewrite !fmap_app. simpl. split_and!.
  - done.
  - intros e He. apply elem_of_app in He as [He | He].
    + destruct (proj1 (Forall_forall _ _) Hall e He)
        as (_ & Hto & [[Hf Hve] | [Hr Hb]]).
      * split; [| done]. by rewrite Hf, Hve.
      * split; [| done]. rewrite at_upd_ne in Hb; [done | lia].
    + apply list_elem_of_singleton in He. by subst e.
  - apply NoDup_app. split; [done |]. split; [| apply NoDup_singleton].
    intros i Hi Him. apply list_elem_of_singleton in Him. subst i.
    apply Htg in Hi. lia.
  - apply NoDup_app. split; [done |]. split; [| apply NoDup_singleton].
    intros i Hi Hik. apply list_elem_of_singleton in Hik. subst i.
    destruct (Hor Hi); [lia | tauto].
  - intros i Hi. apply not_elem_of_app in Hi as [Hi Him].
    apply not_elem_of_cons in Him as [Him _].
    rewrite Hframe by done. by apply at_upd_ne.
Qed.

(** [__pop_heap] with observer on the prefix that ends at slot [m], and
    the callback that its callers make next. *)
Lemma pop_heap_moved_step a m :
  0 < m < len a ->
  exists b1 E x,
    __pop_heap_moved compare a m m = Ok (b1, E) /\
    moved b1 m 0 m = Ok (x, 0, m) /\
    len b1 = len a /\
    relocation a b1 (E ++ [(x, 0, m)]).
Proof.
  intros Hm. unfold __pop_heap_moved.
  destruct (at_in_range a m) as [v Hv]; [lia |].
  destruct (at_in_range a 0) as [x Hx]; [lia |].
  rewrite (rd_Ok _ _ _ Hv), (rd_Ok _ _ _ Hx). simpl.
  rewrite wr_Ok by lia. simpl.
  destruct (down_heap_moved_spec compare m v m (upd a m x) 0)
    as (b1 & E & Hrun & Hev); [lia | rewrite len_upd; lia | lia |].
  rewrite Hrun. exists b1, E, x. split; [done |].
  apply (pop_relocation a m 0 x v b1 E 0 (m - 1) (0 + 1) (m - 1));
    try done; lia.
Qed.


End RelocationFacts.

Section CallbackOperations.
Context {A : Type} (compare : A -> A -> bool).
Implicit Types (a : list A) (E : list (event A)).



Lemma push_heap_moved_spec a :
  1 <= len a ->
  exists a' E,
    push_heap_moved compare a = Ok (a', E) /\
    relocation a a' E /\
    exists e, e ∈ E /\ ev_from e = len a - 1.
Proof.
  intros Hn. unfold push_heap_moved.
  destruct (at_in_range a (len a - 1)) as [p Hp]; [lia |].
  assert (exists a' E,
    (e <- moved a (len a - 1) (len a - 1) (len a - 1) ;; Ok (a, [e]))
      = Ok (a', E) /\
    relocation a a' E /\ exists e, e ∈ E /\ ev_from e = len a - 1) as Hstay.
  { unfold moved. rewrite (rd_Ok _ _ _ Hp). simpl.
    exists a, [(p, len a - 1, len a - 1)]. split; [done |].
    split; [by apply relocation_stay |].
    eexists. split; [by left | done]. }
  destruct (Z.ltb_spec 0 (len a - 1)) as [Hpos | Hpos]; [| done].
  pose proof (parent_of_lt (len a - 1) Hpos) as Hpl.
  change ((len a - 1 - 1) ÷ 2) with (parent_of (len a - 1)).
  destruct (at_in_range a (parent_of (len a - 1))) as [x Hx]; [lia |].
  rewrite (rd_Ok _ _ _ Hx), (rd_Ok _ _ _ Hp). simpl.
  destruct (compare x p); [| done].
  destruct (up_heap_moved_spec compare p (len a - 1) a (len a - 1))
    as (a' & E & Hrun & Hev); [lia | lia |].
  rewrite Hrun. exists a', E. split; [done |].
  by destruct (sift_relocation _ _ _ _ _ _ _ _ _ Hev Hp) as (_ & ? & ?).
Qed.

Lemma pop_heap_moved_spec a :
  1 <= len a ->
  exists a' E,
    pop_heap_moved compare a = Ok (a', E) /\
    relocation a a' E /\
    exists e, e ∈ E /\ ev_from e = 0 /\ ev_to e = len a - 1.
Proof.
  intros Hn. unfold pop_heap_moved.
  destruct (Z.ltb_spec 1 (len a)) as [Hgo | Hone].
  - destruct (pop_heap_moved_step compare a (len a - 1))
      as (b1 & E & x & Hrun & Hmoved & _ & Hrel); [lia |].
    rewrite Hrun. simpl. rewrite Hmoved. simpl.
    exists b1, (E ++ [(x, 0, len a - 1)]). split; [done |]. split; [done |].
    eexists. split; [apply elem_of_app; right; by left | done].
  - simpl. assert (len a - 1 = 0) as -> by lia.
    destruct (at_in_range a 0) as [x Hx]; [lia |].
    unfold moved. rewrite (rd_Ok _ _ _ Hx). simpl.
    exists a, [(x, 0, 0)]. split; [done |].
    split; [by apply relocation_stay |].
    eexists. split; [by left | done].
Qed.

Lemma pop_heap_pos_moved_spec a k :
  0 <= k < len a ->
  exists a' E,
    pop_heap_pos_moved compare a k = Ok (a', E) /\
    relocation a a' E /\
    exists e, e ∈ E /\ ev_from e = k /\ ev_to e = len a - 1.
Proof.
  intros Hk. unfold pop_heap_pos_moved.
  destruct (at_in_range a k) as [x Hx]; [done |].
  destruct (Z.ltb_spec 1 (len a - k)) as [Hgo | Hend].
  2: { simpl. assert (k = len a - 1) as Heq by lia. rewrite <- Heq.
       unfold moved. rewrite (rd_Ok _ _ _ Hx). simpl.
       exists a, [(x, k, k)]. split; [done |].
       split; [by apply relocation_stay |].
       eexists. split; [by left | done]. }
  set (m := len a - 1).
  destruct (at_in_range a m) as [v Hv]; [lia |].
  assert (forall b1 E tlo thi flo fhi r,
    r = Ok (b1, E) ->
    sift_events (upd a m x) b1 v m tlo thi flo fhi E ->
    thi < m -> fhi < m -> ~ (flo <= k <= fhi) ->
    exists a' E',
      (r0 <- r ;; e <- moved r0.1 m k m ;; Ok (r0.1, r0.2 ++ [e]))
        = Ok (a', E') /\
      relocation a a' E' /\
      exists e, e ∈ E' /\ ev_from e = k /\ ev_to e = m) as Hfin.
  { intros b1 E tlo thi flo fhi r -> Hev Hthi Hfhi Hnk.
    destruct (pop_relocation compare a m k x v b1 E tlo thi flo fhi)
      as (Hmoved & _ & Hrel); try done; [lia | lia |].
    simpl. rewrite Hmoved. simpl.
    exists b1, (E ++ [(x, k, m)]). split; [done |]. split; [done |].
    eexists. split; [apply elem_of_app; right; by left | done]. }
  unfold __pop_heap_pos_moved.
  rewrite (rd_Ok _ _ _ Hv), (rd_Ok _ _ _ Hx). simpl.
  rewrite wr_Ok by lia. simpl.
  assert (len (upd a m x) = len a) as Hlen1 by apply len_upd.
  destruct (down_heap_moved_spec compare m v m (upd a m x) k)
    as (bd & Ed & Hdown & Hevd); [lia | lia | lia |].
  destruct (Z.ltb_spec 0 k) as [Hpos | Hzero].
  - pose proof (parent_of_lt k Hpos) as Hpl.
    change ((k - 1) ÷ 2) with (parent_of k).
    destruct (at_in_range (upd a m x) (parent_of k)) as [y Hy]; [lia |].
    rewrite (rd_Ok _ _ _ Hy). simpl.
    destruct (compare y v).
    + destruct (up_heap_moved_spec compare v m (upd a m x) k)
        as (bu & Eu & Hup & Hevu); [lia | lia |].
      apply (Hfin bu Eu 0 k 0 (k - 1)); try done; lia.
    + apply (Hfin bd Ed k (m - 1) (k + 1) (m - 1)); try done; lia.
  - apply (Hfin bd Ed k (m - 1) (k + 1) (m - 1)); try done; lia.
Qed.

Lemma update_heap_moved_spec a k :
  0 <= k < len a ->
  exists a' E,
    update_heap_moved compare a k = Ok (a', E) /\
    relocation a a' E /\
    exists e, e ∈ E /\ ev_from e = k.
Proof.
  intros Hk. unfold update_heap_moved.
  destruct (at_in_range a k) as [p Hp]; [done |].
  destruct (down_heap_moved_spec compare (len a) p k a k)
    as (bd & Ed & Hdown & Hevd); [lia | lia | lia |].
  assert (exists a' E,
    __down_heap_moved compare a (len a) k p k = Ok (a', E) /\
    relocation a a' E /\ exists e, e ∈ E /\ ev_from e = k) as Hdn.
  { exists bd, Ed. split; [done |].
    by destruct (sift_relocation _ _ _ _ _ _ _ _ _ Hevd Hp) as (_ & ? & ?). }
  destruct (Z.ltb_spec 0 k) as [Hpos | Hzero];
    [| by rewrite (rd_Ok _ _ _ Hp)].
  pose proof (parent_of_lt k Hpos) as Hpl.
  change ((k - 1) ÷ 2) with (parent_of k).
  destruct (at_in_range a (parent_of k)) as [y Hy]; [lia |].
  rewrite (rd_Ok _ _ _ Hy), (rd_Ok _ _ _ Hp). simpl.
  destruct (compare y p); [| done].
  destruct (up_heap_moved_spec compare p k a k)
    as (bu & Eu & Hup & Hevu); [lia | lia |].
  exists bu, Eu. split; [done |].
  by destruct (sift_relocation _ _ _ _ _ _ _ _ _ Hevu Hp) as (_ & ? & ?).
Qed.
End CallbackOperations.




(** ** The parallel build on two or more elements *)

Section ParallelFacts.
Context {A : Type} (compare : A -> A -> bool).
Variable w : Z.
Hypothesis Hw : 0 < w.
Implicit Types (a : list A).

(** [make_heap]'s loop is a block of sift-downs followed by the rest of
    the loop. *)
Lemma make_heap_loop_split length (i : nat) : forall (k : nat) a,
  (i <= k)%nat ->
  make_heap_loop compare k a length =
  (a1 <- down_block_loop compare i a length (Z.of_nat k - 1) ;;
   make_heap_loop compare (k - i) a1 length).
Proof.
  induction i as [| i IH]; intros k a Hik.
  - simpl. by rewrite Nat.sub_0_r.
  - destruct k as [| k]; [lia |]. simpl make_heap_loop at 1.
    simpl down_block_loop.
    replace (Z.of_nat (S k) - 1) with (Z.of_nat k) by lia.
    destruct (rd a (Z.of_nat k)) as [p | | |]; simpl; [| done | done | done].
    destruct (__down_heap compare a length (Z.of_nat k) p) as [a1 | | |];
      simpl; [| done | done | done].
    rewrite (IH k a1) by lia. done.
Qed.

(** The number of blocks covers the internal nodes, and the last block
    is not empty. *)
Lemma number_of_blocks_spec (processEnd blockSize : Z) :
  1 <= blockSize -> 1 <= processEnd < 2 ^ (w - 1) ->
  1 <= number_of_blocks w processEnd blockSize <= processEnd /\
  (number_of_blocks w processEnd blockSize - 1) * blockSize < processEnd /\
  processEnd <= number_of_blocks w processEnd blockSize * blockSize.
Proof.
  intros Hbs Hpe. pose proof (pow2_half w Hw) as Hhalf.
  unfold number_of_blocks, to_size_t.
  pose proof (Z.quot_rem' processEnd blockSize) as Hqr.
  pose proof (Z.rem_bound_pos processEnd blockSize ltac:(lia) ltac:(lia)) as Hr.
  assert (0 <= processEnd ÷ blockSize <= processEnd) as Hq.
  { split; [apply Z.quot_pos; lia |]. apply Z.quot_le_upper_bound; nia. }
  rewrite (Z.mod_small (processEnd ÷ blockSize)) by lia.
  destruct (Z.eqb_spec (Z.rem processEnd blockSize) 0) as [Hz | Hnz]; simpl.
  - nia.
  - assert (processEnd ÷ blockSize + 1 <= processEnd) by nia.
    rewrite Z.mod_small by lia. nia.
Qed.

Section Workers.
Variables nthreads nblocks blockSize length : Z.
Hypothesis Hthreads : 1 <= nthreads.
Hypothesis Hblocks : 1 <= nblocks.
Hypothesis Hfit : nblocks + nthreads <= 2 ^ w.
Hypothesis Hbs : 1 <= blockSize.

(** A worker that enters its loop with [b] blocks left processes them
    all, highest first, and leaves on the next claim. *)
Lemma thread_worker_drains (b : nat) : forall fuel a,
  (b < fuel)%nat -> Z.of_nat b <= nblocks ->
  Z.of_nat b * blockSize < 2 ^ (w - 1) ->
  __thread_worker compare w fuel nthreads blockSize length
    (Shared (Z.of_nat b) a) =
  (a' <- make_heap_loop compare (b * Z.to_nat blockSize) a length ;;
   Ok (Shared (2 ^ w - 1) a')).
Proof.
  induction b as [| b IH]; intros fuel a Hfuel Hb Hsmall;
    (destruct fuel as [| fuel]; [lia |]); simpl __thread_worker.
  - unfold worker_iter. cbn [heap blocksRemaining].
    change (claim w nthreads (Z.of_nat 0))
      with (claim w nthreads (to_size_t w (- 0))).
    rewrite (claim_empty w Hw nthreads nblocks) by lia.
    simpl. by rewrite Z.sub_0_r.
  - unfold worker_iter. cbn [heap blocksRemaining].
    rewrite (claim_block w Hw nthreads nblocks) by lia.
    replace (Z.of_nat (S b) - 1) with (Z.of_nat b) by lia.
    assert (0 <= Z.of_nat b * blockSize < 2 ^ (w - 1)) as Hfront by nia.
    assert (to_SizeType w (Z.of_nat b * blockSize) = Z.of_nat b * blockSize)
      as ->.
    { pose proof (pow2_half w Hw). unfold to_SizeType.
      rewrite Z.mod_small by lia.
      destruct (Z.ltb_spec (Z.of_nat b * blockSize) (2 ^ (w - 1))); lia. }
    unfold __down_block.
    rewrite (make_heap_loop_split length (Z.to_nat blockSize)
               (S b * Z.to_nat blockSize) a) by (simpl; lia).
    replace (Z.of_nat (S b * Z.to_nat blockSize) - 1)
      with (Z.of_nat b * blockSize + blockSize - 1) by nia.
    replace (S b * Z.to_nat blockSize - Z.to_nat blockSize)%nat
      with (b * Z.to_nat blockSize)%nat by (simpl; lia).
    destruct (down_block_loop compare (Z.to_nat blockSize) a length
                (Z.of_nat b * blockSize + blockSize - 1)) as [a1 | | |];
      simpl; [| done | done | done].
    apply IH; [lia | lia | lia].
Qed.

(** The workers that start on an exhausted counter leave at once. *)
Lemma spawned_workers_leave (n : nat) : forall fuel (e : Z) a,
  (0 < fuel)%nat -> 1 <= e -> e + Z.of_nat n <= nthreads ->
  spawned_workers compare w n fuel nthreads blockSize length
    (Shared (2 ^ w - e) a) = Ok (Shared (2 ^ w - e - Z.of_nat n) a).
Proof.
  induction n as [| n IH]; intros fuel e a Hfuel He Hen; simpl.
  - do 2 f_equal. lia.
  - destruct fuel as [| fuel]; [lia |]. simpl __thread_worker.
    unfold worker_iter. cbn [heap blocksRemaining].
    assert (claim w nthreads (2 ^ w - e) = (2 ^ w - 1 - e, true)) as ->.
    { rewrite <- (claim_empty w Hw nthreads nblocks) by lia.
      f_equal. unfold to_size_t. rewrite mod_wrap_down by lia. lia. }
    simpl.
    replace (2 ^ w - 1 - e) with (2 ^ w - (e + 1)) by lia.
    rewrite (IH (S fuel) (e + 1) a) by lia.
    do 2 f_equal. lia.
Qed.
End Workers.

Lemma parallel_work_eq_make_heap a (nthreads blockSize : Z) :
  2 <= len a < 2 ^ (w - 1) -> 1 <= blockSize ->
  1 <= nthreads <= number_of_blocks w (len a ÷ 2) blockSize ->
  parallel_work compare w a (len a) (len a ÷ 2)
    (number_of_blocks w (len a ÷ 2) blockSize) nthreads blockSize
  = make_heap compare a.
Proof.
  intros Hlen Hbs Hthreads.
  pose proof (pow2_half w Hw) as Hhalf.
  set (P := len a ÷ 2) in *. assert (1 <= P < 2 ^ (w - 1)) as HP by lia.
  destruct (number_of_blocks_spec P blockSize Hbs HP) as (HB & Hlast & Hcover).
  set (B := number_of_blocks w P blockSize) in *.
  unfold parallel_work, make_heap. fold P.
  assert (to_size_t w (B - 1) = B - 1) as ->
      by (unfold to_size_t; apply Z.mod_small; lia).
  assert (0 <= (B - 1) * blockSize) as Hfront0 by nia.
  assert (to_SizeType w ((B - 1) * blockSize) = (B - 1) * blockSize) as ->.
  { unfold to_SizeType. rewrite Z.mod_small by lia.
    destruct (Z.ltb_spec ((B - 1) * blockSize) (2 ^ (w - 1))); lia. }
  unfold __down_block.
  rewrite (make_heap_loop_split (len a)
             (Z.to_nat (P - (B - 1) * blockSize)) (Z.to_nat P) a) by lia.
  replace ((B - 1) * blockSize + (P - (B - 1) * blockSize) - 1)
    with (Z.of_nat (Z.to_nat P) - 1) by lia.
  destruct (down_block_loop compare (Z.to_nat (P - (B - 1) * blockSize)) a
              (len a) (Z.of_nat (Z.to_nat P) - 1)) as [a1 | | |];
    cbn [bind]; [| done | done | done].
  replace (B - 1) with (Z.of_nat (Z.to_nat (B - 1))) at 1 by lia.
  rewrite (thread_worker_drains nthreads B blockSize (len a))
    by (try rewrite Z2Nat.id; lia).
  replace (Z.to_nat P - Z.to_nat (P - (B - 1) * blockSize))%nat
    with (Z.to_nat (B - 1) * Z.to_nat blockSize)%nat by nia.
  destruct (make_heap_loop compare (Z.to_nat (B - 1) * Z.to_nat blockSize) a1
              (len a)) as [a' | | |]; cbn [bind]; [| done | done | done].
  rewrite (spawned_workers_leave nthreads B blockSize (len a)) by lia.
  done.
Qed.

(** For every sequence of two or more elements, every block size and
    every thread count, the run of [parallel_make_heap] in which each
    block is processed when it is claimed is [make_heap]; so is the run
    of the overload without comparator. *)
Lemma parallel_make_heap_eq_make_heap (hw : Z) a (blockSize maxThreads : Z) :
  2 <= len a < 2 ^ (w - 1) -> 1 <= blockSize ->
  parallel_make_heap compare w hw a blockSize maxThreads
    = make_heap compare a /\
  parallel_make_heap_default compare w hw a blockSize maxThreads
    = make_heap compare a.
Proof.
  intros Hlen Hbs.
  assert (1 <= len a ÷ 2 < 2 ^ (w - 1)) as HP by lia.
  destruct (number_of_blocks_spec (len a ÷ 2) blockSize Hbs HP) as (HB & _).
  assert (1 <= max_threads hw maxThreads) as Hmt.
  { unfold max_threads. destruct (Z.leb_spec maxThreads 0); lia. }
  assert (forall nthreads,
    1 <= nthreads <= number_of_blocks w (len a ÷ 2) blockSize ->
    reserve w (to_size_t w (nthreads - 1)) = Ok tt) as Hreserve.
  { intros nthreads Hn. pose proof (pow2_half w Hw).
    unfold to_size_t. rewrite Z.mod_small by lia.
    apply reserve_small; lia. }
  unfold parallel_make_heap, parallel_make_heap_default. split.
  - assert (1 <= (if Z.min (number_of_blocks w (len a ÷ 2) blockSize)
                         (max_threads hw maxThreads) <? 1
                  then 1
                  else Z.min (number_of_blocks w (len a ÷ 2) blockSize)
                         (max_threads hw maxThreads))
              <= number_of_blocks w (len a ÷ 2) blockSize) as Hn.
    { destruct (Z.ltb_spec
        (Z.min (number_of_blocks w (len a ÷ 2) blockSize)
               (max_threads hw maxThreads)) 1); lia. }
    rewrite (Hreserve _ Hn). cbn [bind].
    by apply parallel_work_eq_make_heap.
  - rewrite Hreserve by lia. cbn [bind].
    apply parallel_work_eq_make_heap; [done | done | lia].
Qed.
End ParallelFacts.

(** ** The operations under an arbitrary comparator

    Nothing is assumed of [compare] in this part: the operations stay
    inside the range and keep the multiset whatever the comparator
    answers. *)

Lemma wr_Ok_inv {A} (a : list A) (i : Z) (v : A) (a1 : list A) :
  wr a i v = Ok a1 -> 0 <= i < len a /\ a1 = upd a i v.
Proof.
  unfold wr, upd. destruct (Z.leb_spec 0 i); [| done].
  destruct (Z.ltb_spec i (len a)); [| done].
  simpl. intros [= <-]. split; [lia | done].
Qed.

Section TotalFacts.
Context {A : Type} (compare : A -> A -> bool).
Implicit Types (a : list A) (p x v : A).

Lemma down_loop_total n p fuel : forall a hole,
  0 <= hole < n -> n <= len a ->
  n <= 2 * hole + 1 + Z.of_nat fuel ->
  exists a',
    down_loop compare fuel a n hole (2 * hole + 1) p = Ok a' /\
    len a' = len a /\
    a' ≡ₚ upd a hole p /\
    forall i, i < hole \/ n <= i -> at_ a' i = at_ a i.
Proof.
  assert (Hplace : forall a hole, 0 <= hole < n -> n <= len a ->
    exists a',
      wr a hole p = Ok a' /\ len a' = len a /\ a' ≡ₚ upd a hole p /\
      forall i, i < hole \/ n <= i -> at_ a' i = at_ a i).
  { intros a hole Hh Hn. rewrite wr_Ok by lia. exists (upd a hole p).
    split; [done |]. split; [apply len_upd |]. split; [done |].
    intros i Hi. apply at_upd_ne. lia. }
  induction fuel as [| fuel IH]; intros a hole Hh Hn Hfuel; simpl.
  - destruct (Z.ltb_spec (2 * hole + 1) n); [lia | by apply Hplace].
  - destruct (Z.ltb_spec (2 * hole + 1) n) as [Hc | Hc]; [| by apply Hplace].
    destruct (select_child_range compare a n hole)
      as (c & x & Hsel & Hx & Hcc & Hcn); [lia | lia |].
    unfold down_body. rewrite Hsel. simpl. rewrite (rd_Ok _ _ _ Hx). simpl.
    destruct (compare x p); simpl; [by apply Hplace |].
    rewrite wr_Ok by lia. simpl.
    destruct (IH (upd a hole x) c) as (a' & Hrun & Hlen & Hperm & Hframe);
      [lia | rewrite len_upd; lia | lia |].
    exists a'. split; [done |]. split; [by rewrite Hlen, len_upd |]. split.
    + rewrite Hperm. apply upd_hole_perm; [lia | lia | done].
    + intros i Hi. rewrite Hframe by lia. apply at_upd_ne. lia.
Qed.

Lemma down_heap_total n p a hole :
  0 <= hole < n -> n <= len a ->
  exists a',
    __down_heap compare a n hole p = Ok a' /\
    len a' = len a /\
    a' ≡ₚ upd a hole p /\
    forall i, i < hole \/ n <= i -> at_ a' i = at_ a i.
Proof.
  intros. unfold __down_heap. apply down_loop_total; try done. lia.
Qed.

Lemma up_loop_total p fuel : forall a hole,
  0 <= hole < len a -> hole <= Z.of_nat fuel ->
  exists a',
    up_loop compare fuel a (parent_of hole) hole p = Ok a' /\
    len a' = len a /\
    a' ≡ₚ upd a hole p /\
    forall i, hole < i -> at_ a' i = at_ a i.
Proof.
  assert (Hplace : forall a hole, 0 <= hole < len a ->
    exists a',
      wr a hole p = Ok a' /\ len a' = len a /\ a' ≡ₚ upd a hole p /\
      forall i, hole < i -> at_ a' i = at_ a i).
  { intros a hole Hh. rewrite wr_Ok by lia. exists (upd a hole p).
    split; [done |]. split; [apply len_upd |]. split; [done |].
    intros i Hi. apply at_upd_ne. lia. }
  induction fuel as [| fuel IH]; intros a hole Hh Hfuel; simpl.
  - destruct (Z.ltb_spec 0 hole); [lia | by apply Hplace].
  - destruct (Z.ltb_spec 0 hole) as [Hpos | Hpos]; [| by apply Hplace].
    pose proof (parent_of_lt hole Hpos) as Hpl.
    destruct (at_in_range a (parent_of hole)) as [x Hx]; [lia |].
    rewrite (rd_Ok _ _ _ Hx). simpl.
    destruct (compare x p); [| by apply Hplace].
    rewrite wr_Ok by lia. simpl.
    change ((parent_of hole - 1) ÷ 2) with (parent_of (parent_of hole)).
    destruct (IH (upd a hole x) (parent_of hole))
      as (a' & Hrun & Hlen & Hperm & Hframe); [rewrite len_upd; lia | lia |].
    exists a'. split; [done |]. split; [by rewrite Hlen, len_upd |]. split.
    + rewrite Hperm. apply upd_hole_perm; [lia | lia | done].
    + intros i Hi. rewrite Hframe by lia. apply at_upd_ne. lia.
Qed.

Lemma up_heap_total p a hole :
  0 <= hole < len a ->
  exists a',
    __up_heap compare a hole p = Ok a' /\
    len a' = len a /\
    a' ≡ₚ upd a hole p /\
    forall i, hole < i -> at_ a' i = at_ a i.
Proof.
  intros. unfold __up_heap. apply up_loop_total; try done. lia.
Qed.

Lemma make_heap_loop_total n k : forall a,
  Z.of_nat k <= n -> n <= len a ->
  exists a',
    make_heap_loop compare k a n = Ok a' /\ len a' = len a /\ a' ≡ₚ a.
Proof.
  induction k as [| k IH]; intros a Hk Hn; [by exists a |]. simpl.
  destruct (at_in_range a (Z.of_nat k)) as [p Hp]; [lia |].
  rewrite (rd_Ok _ _ _ Hp). simpl.
  destruct (down_heap_total n p a (Z.of_nat k))
    as (a1 & Hrun & Hlen & Hperm & _); [lia | lia |].
  rewrite Hrun. simpl.
  destruct (IH a1) as (a' & Hrun' & Hlen' & Hperm'); [lia | lia |].
  exists a'. split; [done |]. split; [congruence |].
  by rewrite Hperm', Hperm, (upd_same _ _ _ Hp).
Qed.

Lemma make_heap_total a :
  exists a', make_heap compare a = Ok a' /\ len a' = len a /\ a' ≡ₚ a.
Proof.
  assert (0 <= len a) by (unfold len; lia).
  unfold make_heap. apply make_heap_loop_total; lia.
Qed.

(** [__pop_heap] on the prefix that ends at slot [m]. *)
Lemma pop_step_total a m :
  0 < m < len a ->
  exists a' x v,
    __pop_heap compare a m m = Ok a' /\
    at_ a 0 = Some x /\ at_ a m = Some v /\
    __down_heap compare (upd a m x) m 0 v = Ok a' /\
    at_ a' m = Some x /\
    len a' = len a /\ a' ≡ₚ a /\
    forall i, m < i -> at_ a' i = at_ a i.
Proof.
  intros Hm. unfold __pop_heap.
  destruct (at_in_range a m) as [v Hv]; [lia |].
  destruct (at_in_range a 0) as [x Hx]; [lia |].
  rewrite (rd_Ok _ _ _ Hv), (rd_Ok _ _ _ Hx). simpl.
  rewrite wr_Ok by lia. simpl.
  destruct (down_heap_total m v (upd a m x) 0)
    as (a' & Hrun & Hlen & Hperm & Hframe); [lia | rewrite len_upd; lia |].
  exists a', x, v. split; [done |]. split; [done |]. split; [done |].
  split; [done |]. split; [| split; [| split]].
  - rewrite Hframe by lia. apply at_upd_eq. lia.
  - by rewrite Hlen, len_upd.
  - rewrite Hperm. by apply upd_swap_perm.
  - intros i Hi. rewrite Hframe by lia. apply at_upd_ne. lia.
Qed.

Lemma push_heap_total a :
  exists a', push_heap compare a = Ok a' /\ len a' = len a /\ a' ≡ₚ a.
Proof.
  unfold push_heap.
  destruct (Z.ltb_spec 0 (len a - 1)) as [Hpos | Hpos]; [| by exists a].
  pose proof (parent_of_lt (len a - 1) Hpos) as Hpl.
  change ((len a - 1 - 1) ÷ 2) with (parent_of (len a - 1)).
  destruct (at_in_range a (parent_of (len a - 1))) as [x Hx]; [lia |].
  destruct (at_in_range a (len a - 1)) as [p Hp]; [lia |].
  rewrite (rd_Ok _ _ _ Hx), (rd_Ok _ _ _ Hp). simpl.
  destruct (compare x p); [| by exists a].
  destruct (up_heap_total p a (len a - 1))
    as (a' & Hrun & Hlen & Hperm & _); [lia |].
  exists a'. split; [done |]. split; [done |].
  by rewrite Hperm, (upd_same _ _ _ Hp).
Qed.

Lemma pop_heap_total a :
  exists a', pop_heap compare a = Ok a' /\ len a' = len a /\ a' ≡ₚ a.
Proof.
  unfold pop_heap.
  destruct (Z.ltb_spec 1 (len a)) as [Hgo | Hstop]; [| by exists a].
  destruct (pop_step_total a (len a - 1))
    as (a' & x & v & Hrun & _ & _ & _ & _ & Hlen & Hperm & _); [lia |].
  by exists a'.
Qed.

Lemma sort_loop_total fuel : forall a last,
  last <= len a -> last <= Z.of_nat fuel ->
  exists a', sort_loop compare fuel a last = Ok a' /\ len a' = len a /\ a' ≡ₚ a.
Proof.
  induction fuel as [| fuel IH]; intros a last Hlast Hfuel; simpl.
  - destruct (Z.ltb_spec 1 last); [lia | by exists a].
  - destruct (Z.ltb_spec 1 last) as [Hgo | Hstop]; [| by exists a].
    destruct (pop_step_total a (last - 1))
      as (a1 & x & v & Hrun & _ & _ & _ & _ & Hlen1 & Hperm1 & _); [lia |].
    rewrite Hrun. simpl.
    destruct (IH a1 (last - 1)) as (a' & Hrun' & Hlen' & Hperm'); [lia | lia |].
    exists a'. split; [done |]. split; [congruence |].
    by rewrite Hperm', Hperm1.
Qed.

Lemma sort_heap_total a :
  exists a', sort_heap compare a = Ok a' /\ len a' = len a /\ a' ≡ₚ a.
Proof. unfold sort_heap. apply sort_loop_total; unfold len; lia. Qed.

Lemma update_heap_total a k :
  0 <= k < len a ->
  exists a', update_heap compare a k = Ok a' /\ len a' = len a /\ a' ≡ₚ a.
Proof.
  intros Hk. unfold update_heap.
  destruct (at_in_range a k) as [p Hp]; [done |].
  assert (exists a',
    __down_heap compare a (len a) k p = Ok a' /\ len a' = len a /\ a' ≡ₚ a)
    as Hdown.
  { destruct (down_heap_total (len a) p a k)
      as (a' & Hrun & Hlen & Hperm & _); [lia | lia |].
    exists a'. split; [done |]. split; [done |].
    by rewrite Hperm, (upd_same _ _ _ Hp). }
  destruct (Z.ltb_spec 0 k) as [Hpos | Hzero];
    [| by rewrite (rd_Ok _ _ _ Hp)].
  pose proof (parent_of_lt k Hpos) as Hpl.
  change ((k - 1) ÷ 2) with (parent_of k).
  destruct (at_in_range a (parent_of k)) as [y Hy]; [lia |].
  rewrite (rd_Ok _ _ _ Hy), (rd_Ok _ _ _ Hp). simpl.
  destruct (compare y p); [| done].
  destruct (up_heap_total p a k) as (a' & Hrun & Hlen & Hperm & _); [lia |].
  exists a'. split; [done |]. split; [done |].
  by rewrite Hperm, (upd_same _ _ _ Hp).
Qed.

Lemma pop_heap_pos_total a k :
  0 <= k < len a ->
  exists a', pop_heap_pos compare a k = Ok a' /\ len a' = len a /\ a' ≡ₚ a.
Proof.
  intros Hk. unfold pop_heap_pos.
  destruct (Z.ltb_spec 1 (len a - k)) as [Hgo | Hend]; [| by exists a].
  set (m := len a - 1).
  destruct (at_in_range a m) as [v Hv]; [lia |].
  destruct (at_in_range a k) as [x Hx]; [lia |].
  unfold __pop_heap_pos.
  rewrite (rd_Ok _ _ _ Hv), (rd_Ok _ _ _ Hx). simpl.
  rewrite wr_Ok by lia. simpl.
  assert (len (upd a m x) = len a) as Hlen1 by apply len_upd.
  assert (upd (upd a m x) k v ≡ₚ a) as Hperm1 by by apply upd_swap_perm.
  assert (exists a',
    __down_heap compare (upd a m x) m k v = Ok a' /\
    len a' = len a /\ a' ≡ₚ a) as Hdown.
  { destruct (down_heap_total m v (upd a m x) k)
      as (a' & Hrun & Hlen & Hperm & _); [lia | lia |].
    exists a'. split; [done |]. split; [congruence |]. by rewrite Hperm. }
  destruct (Z.ltb_spec 0 k) as [Hpos | Hzero]; [| done].
  pose proof (parent_of_lt k Hpos) as Hpl.
  change ((k - 1) ÷ 2) with (parent_of k).
  destruct (at_in_range (upd a m x) (parent_of k)) as [y Hy]; [lia |].
  rewrite (rd_Ok _ _ _ Hy). simpl.
  destruct (compare y v); [| done].
  destruct (up_heap_total v (upd a m x) k)
    as (a' & Hrun & Hlen & Hperm & _); [lia |].
  exists a'. split; [done |]. split; [congruence |]. by rewrite Hperm.
Qed.
End TotalFacts.

(** ** The callback versions compute what the plain versions compute *)

Section EraseFacts.
Context {A : Type} (compare : A -> A -> bool).
Implicit Types (a : list A) (p x v : A).

Lemma erase_Ok_inv {X Y} (m : res (X * Y)) (x : X) :
  (r <- m ;; Ok r.1) = Ok x -> exists y, m = Ok (x, y).
Proof.
  destruct m as [[x' y] | | |]; simpl; [| done | done | done].
  intros [= ->]. by exists y.
Qed.

Lemma moved_written a i v from to a1 :
  wr a i v = Ok a1 -> moved a1 i from to = Ok (v, from, to).
Proof.
  intros [Hr ->]%wr_Ok_inv. unfold moved.
  rewrite (rd_Ok _ _ v); [done |]. by apply at_upd_eq.
Qed.

Lemma place_moved_erase a slot p ppos :
  (r <- place_moved a slot p ppos ;; Ok r.1) = wr a slot p.
Proof.
  unfold place_moved. destruct (wr a slot p) as [a1 | | |] eqn:Hw; [| done | done | done].
  simpl. by rewrite (moved_written _ _ _ _ _ _ Hw).
Qed.

Lemma up_loop_moved_erase fuel : forall a parent child p ppos,
  (r <- up_loop_moved compare fuel a parent child p ppos ;; Ok r.1)
  = up_loop compare fuel a parent child p.
Proof.
  induction fuel as [| fuel IH]; intros a parent child p ppos; simpl;
    (destruct (0 <? child); [| apply place_moved_erase]);
    (destruct (rd a parent) as [x | | |]; [| done | done | done]); simpl;
    (destruct (compare x p); [| apply place_moved_erase]); [done |].
  destruct (wr a child x) as [a1 | | |] eqn:Hw; [| done | done | done]. simpl.
  rewrite (moved_written _ _ _ _ _ _ Hw). simpl.
  rewrite <- (IH a1 ((parent - 1) ÷ 2) parent p ppos).
  by destruct (up_loop_moved compare fuel a1 ((parent - 1) ÷ 2) parent p ppos).
Qed.

Lemma down_loop_moved_erase fuel : forall a n parent child p ppos,
  (r <- down_loop_moved compare fuel a n parent child p ppos ;; Ok r.1)
  = down_loop compare fuel a n parent child p.
Proof.
  induction fuel as [| fuel IH]; intros a n parent child p ppos; simpl;
    (destruct (child <? n); [| apply place_moved_erase]); [done |].
  unfold down_body.
  destruct (select_child compare a n child) as [c | | |]; [| done | done | done].
  simpl. destruct (rd a c) as [x | | |]; [| done | done | done]. simpl.
  destruct (compare x p); [apply place_moved_erase |].
  destruct (wr a parent x) as [a1 | | |] eqn:Hw; [| done | done | done]. simpl.
  rewrite (moved_written _ _ _ _ _ _ Hw). simpl.
  rewrite <- (IH a1 n c (2 * c + 1) p ppos).
  by destruct (down_loop_moved compare fuel a1 n c (2 * c + 1) p ppos).
Qed.

Lemma make_heap_loop_moved_erase n k : forall a,
  (r <- make_heap_loop_moved compare k a n ;; Ok r.1)
  = make_heap_loop compare k a n.
Proof.
  induction k as [| k IH]; intros a; [done |]. simpl.
  destruct (rd a (Z.of_nat k)) as [p | | |]; [| done | done | done]. simpl.
  unfold __down_heap, __down_heap_moved.
  rewrite <- (down_loop_moved_erase (Z.to_nat n) a n (Z.of_nat k)
                (2 * Z.of_nat k + 1) p (Z.of_nat k)).
  destruct (down_loop_moved compare (Z.to_nat n) a n (Z.of_nat k)
              (2 * Z.of_nat k + 1) p (Z.of_nat k)) as [[a1 E1] | | |];
    [| done | done | done].
  simpl. rewrite <- (IH a1).
  by destruct (make_heap_loop_moved compare k a1 n).
Qed.

Lemma pop_heap_moved_erase a last result :
  (r <- __pop_heap_moved compare a last result ;; Ok r.1)
  = __pop_heap compare a last result.
Proof.
  unfold __pop_heap_moved, __pop_heap.
  destruct (rd a last) as [v | | |]; [| done | done | done]. simpl.
  destruct (rd a 0) as [x | | |]; [| done | done | done]. simpl.
  destruct (wr a result x) as [a1 | | |]; [| done | done | done]. simpl.
  apply down_loop_moved_erase.
Qed.

Lemma sort_loop_moved_erase fuel : forall a last,
  last <= len a ->
  (r <- sort_loop_moved compare fuel a last ;; Ok r.1)
  = sort_loop compare fuel a last.
Proof.
  induction fuel as [| fuel IH]; intros a last Hlast; simpl;
    (destruct (Z.ltb_spec 1 last) as [Hgo | Hstop]; [| done]); [done |].
  destruct (pop_step_total compare a (last - 1))
    as (a1 & x & v & Hrun & _ & _ & _ & Hx & Hlen & _); [lia |].
  rewrite Hrun. simpl.
  pose proof (pop_heap_moved_erase a (last - 1) (last - 1)) as Her.
  rewrite Hrun in Her. apply erase_Ok_inv in Her as [E1 ->]. simpl.
  unfold moved. rewrite (rd_Ok _ _ _ Hx). simpl.
  rewrite <- (IH a1 (last - 1)) by lia.
  by destruct (sort_loop_moved compare fuel a1 (last - 1)).
Qed.

Lemma pop_heap_pos_moved_erase a last pos result :
  last = result ->
  (r <- __pop_heap_pos_moved compare a last pos result ;; Ok r.1)
  = __pop_heap_pos compare a last pos result.
Proof.
  intros ->. unfold __pop_heap_pos_moved, __pop_heap_pos.
  destruct (rd a result) as [v | | |]; [| done | done | done]. simpl.
  destruct (rd a pos) as [x | | |]; [| done | done | done]. simpl.
  destruct (wr a result x) as [a1 | | |]; [| done | done | done]. simpl.
  destruct (0 <? pos); [| apply down_loop_moved_erase].
  destruct (rd a1 ((pos - 1) ÷ 2)) as [y | | |]; [| done | done | done]. simpl.
  destruct (compare y v);
    [apply up_loop_moved_erase | apply down_loop_moved_erase].
Qed.
End EraseFacts.

Section EraseOperations.
Context {A : Type} (compare : A -> A -> bool).
Implicit Types (a : list A).

Lemma make_heap_moved_erase a :
  (r <- make_heap_moved compare a ;; Ok r.1) = make_heap compare a.
Proof. apply make_heap_loop_moved_erase. Qed.

Lemma sort_heap_moved_erase a :
  (r <- sort_heap_moved compare a ;; Ok r.1) = sort_heap compare a.
Proof. apply sort_loop_moved_erase. lia. Qed.

Lemma update_heap_moved_erase a k :
  (r <- update_heap_moved compare a k ;; Ok r.1) = update_heap compare a k.
Proof.
  unfold update_heap_moved, update_heap.
  destruct (0 <? k).
  - destruct (rd a ((k - 1) ÷ 2)) as [x | | |]; [| done | done | done]. simpl.
    destruct (rd a k) as [y | | |]; [| done | done | done]. simpl.
    destruct (compare x y);
      [apply up_loop_moved_erase | apply down_loop_moved_erase].
  - destruct (rd a k) as [y | | |]; [| done | done | done]. simpl.
    apply down_loop_moved_erase.
Qed.

Lemma push_heap_moved_erase a :
  1 <= len a ->
  (r <- push_heap_moved compare a ;; Ok r.1) = push_heap compare a.
Proof.
  intros Hn. unfold push_heap_moved, push_heap.
  destruct (at_in_range a (len a - 1)) as [p Hp]; [lia |].
  assert ((r <- (e <- moved a (len a - 1) (len a - 1) (len a - 1) ;;
                 Ok (a, [e])) ;; Ok r.1) = Ok a) as Hstay.
  { unfold moved. by rewrite (rd_Ok _ _ _ Hp). }
  destruct (0 <? len a - 1); [| done].
  destruct (rd a ((len a - 1 - 1) ÷ 2)) as [x | | |]; [| done | done | done]. simpl.
  rewrite (rd_Ok _ _ _ Hp). simpl.
  destruct (compare x p); [apply up_loop_moved_erase | done].
Qed.

Lemma pop_heap_moved_whole_erase a :
  1 <= len a ->
  (r <- pop_heap_moved compare a ;; Ok r.1) = pop_heap compare a.
Proof.
  intros Hn. unfold pop_heap_moved, pop_heap.
  destruct (Z.ltb_spec 1 (len a)) as [Hgo | Hone].
  - destruct (pop_step_total compare a (len a - 1))
      as (a1 & x & v & Hrun & _ & _ & _ & Hx & _); [lia |].
    pose proof (pop_heap_moved_erase compare a (len a - 1) (len a - 1)) as Her.
    rewrite Hrun in Her |- *. apply erase_Ok_inv in Her as [E1 ->]. simpl.
    unfold moved. by rewrite (rd_Ok _ _ _ Hx).
  - simpl. destruct (at_in_range a (len a - 1)) as [x Hx]; [lia |].
    unfold moved. by rewrite (rd_Ok _ _ _ Hx).
Qed.

Lemma pop_heap_pos_moved_whole_erase a k :
  1 <= len a ->
  (r <- pop_heap_pos_moved compare a k ;; Ok r.1) = pop_heap_pos compare a k.
Proof.
  intros Hn. unfold pop_heap_pos_moved.
  pose proof (pop_heap_pos_moved_erase compare a (len a - 1) k (len a - 1)
                eq_refl) as Her.
  unfold pop_heap_pos in *.
  destruct (Z.ltb_spec 1 (len a - k)) as [Hgo | Hend].
  - destruct (Z.le_gt_cases 0 k) as [Hk | Hk].
    + destruct (pop_heap_pos_total compare a k) as (a1 & Hrun & Hlen & _);
        [lia |].
      unfold pop_heap_pos in Hrun.
      destruct (Z.ltb_spec 1 (len a - k)); [| lia].
      rewrite Hrun in Her |- *. apply erase_Ok_inv in Her as [E1 ->]. simpl.
      destruct (at_in_range a1 (len a - 1)) as [x Hx]; [lia |].
      unfold moved. by rewrite (rd_Ok _ _ _ Hx).
    + unfold __pop_heap_pos_moved, __pop_heap_pos.
      destruct (rd a (len a - 1)) as [v | | |]; [| done | done | done]. simpl.
      by rewrite (rd_out a k) by lia.
  - simpl. destruct (at_in_range a (len a - 1)) as [x Hx]; [lia |].
    unfold moved. by rewrite (rd_Ok _ _ _ Hx).
Qed.
End EraseOperations.

(** X1. Whatever the comparator answers (no order is assumed), every
    operation without observer stays inside the range and returns a
    permutation of its input: [make_heap], [push_heap], [pop_heap] and
    [sort_heap] on every sequence, [update_heap] and the positional
    [pop_heap] at every position of the sequence. *)
Theorem operations_keep_the_multiset {A} (compare : A -> A -> bool)
  (a : list A) :
  (exists a', make_heap compare a = Ok a' /\ a' ≡ₚ a) /\
  (exists a', push_heap compare a = Ok a' /\ a' ≡ₚ a) /\
  (exists a', pop_heap compare a = Ok a' /\ a' ≡ₚ a) /\
  (exists a', sort_heap compare a = Ok a' /\ a' ≡ₚ a) /\
  (forall k, 0 <= k < len a ->
     exists a', update_heap compare a k = Ok a' /\ a' ≡ₚ a) /\
  (forall k, 0 <= k < len a ->
     exists a', pop_heap_pos compare a k = Ok a' /\ a' ≡ₚ a).
Proof.
  split_and!.
  - destruct (make_heap_total compare a) as (a' & ? & _ & ?). by exists a'.
  - destruct (push_heap_total compare a) as (a' & ? & _ & ?). by exists a'.
  - destruct (pop_heap_total compare a) as (a' & ? & _ & ?). by exists a'.
  - destruct (sort_heap_total compare a) as (a' & ? & _ & ?). by exists a'.
  - intros k Hk.
    destruct (update_heap_total compare a k Hk) as (a' & ? & _ & ?).
    by exists a'.
  - intros k Hk.
    destruct (pop_heap_pos_total compare a k Hk) as (a' & ? & _ & ?).
    by exists a'.
Qed.

Lemma operations_keep_the_multiset_witness :
  (exists a', update_heap (fun _ _ : Z => true) [3; 1; 2] 1 = Ok a' /\
              a' ≡ₚ [3; 1; 2]) /\
  (exists a', pop_heap_pos (fun _ _ : Z => true) [3; 1; 2] 0 = Ok a' /\
              a' ≡ₚ [3; 1; 2]).
Proof.
  destruct (operations_keep_the_multiset (fun _ _ : Z => true) [3; 1; 2])
    as (_ & _ & _ & _ & Hupd & Hpos).
  split; [apply (Hupd 1) | apply (Hpos 0)]; unfold len; simpl; lia.
Defined.

(** X2. Each operation with a move callback computes the sequence that
    the operation without it computes, and fails where that one fails:
    [make_heap], [sort_heap] and [update_heap] on every input,
    [push_heap], [pop_heap] and the positional [pop_heap] on every
    non-empty range. *)
Theorem callback_versions_agree {A} (compare : A -> A -> bool) (a : list A) :
  (r <- make_heap_moved compare a ;; Ok r.1) = make_heap compare a /\
  (r <- sort_heap_moved compare a ;; Ok r.1) = sort_heap compare a /\
  (forall k,
     (r <- update_heap_moved compare a k ;; Ok r.1)
     = update_heap compare a k) /\
  (1 <= len a ->
   (r <- push_heap_moved compare a ;; Ok r.1) = push_heap compare a /\
   (r <- pop_heap_moved compare a ;; Ok r.1) = pop_heap compare a /\
   forall k,
     (r <- pop_heap_pos_moved compare a k ;; Ok r.1)
     = pop_heap_pos compare a k).
Proof.
  split_and!.
  - apply make_heap_moved_erase.
  - apply sort_heap_moved_erase.
  - apply update_heap_moved_erase.
  - intros Hn. split_and!.
    + by apply push_heap_moved_erase.
    + by apply pop_heap_moved_whole_erase.
    + intros k. by apply pop_heap_pos_moved_whole_erase.
Qed.

Lemma callback_versions_agree_witness :
  (r <- push_heap_moved Z.ltb [9; 3; 7; 8] ;; Ok r.1)
    = push_heap Z.ltb [9; 3; 7; 8] /\
  (r <- pop_heap_moved Z.ltb [9; 3; 7; 8] ;; Ok r.1)
    = pop_heap Z.ltb [9; 3; 7; 8] /\
  forall k,
    (r <- pop_heap_pos_moved Z.ltb [9; 3; 7; 8] k ;; Ok r.1)
    = pop_heap_pos Z.ltb [9; 3; 7; 8] k.
Proof.
  destruct (callback_versions_agree Z.ltb [9; 3; 7; 8]) as (_ & _ & _ & H).
  apply H. unfold len. simpl. lia.
Defined.

(** ** [push_heap], [pop_heap] and [sort_heap] on a heap *)

Lemma at_elem_of {A} (a : list A) (y : A) :
  y ∈ a <-> exists i, at_ a i = Some y.
Proof.
  rewrite list_elem_of_lookup. split.
  - intros [i Hi]. exists (Z.of_nat i). rewrite at_lookup by lia.
    by rewrite Nat2Z.id.
  - intros [i Hi]. pose proof (at_Some_range _ _ _ Hi).
    rewrite at_lookup in Hi by lia. by exists (Z.to_nat i).
Qed.

Lemma at_take_elem_of {A} (a : list A) (m : Z) (y : A) :
  y ∈ take (Z.to_nat m) a <-> exists i, 0 <= i < m /\ at_ a i = Some y.
Proof.
  rewrite list_elem_of_lookup. split.
  - intros [i Hi]. apply lookup_take_Some in Hi as [Hi Hlt].
    exists (Z.of_nat i). split; [lia |].
    rewrite at_lookup by lia. by rewrite Nat2Z.id.
  - intros (i & Hr & Hi). rewrite at_lookup in Hi by lia.
    exists (Z.to_nat i). apply lookup_take_Some. split; [done | lia].
Qed.

(** Two sequences with the same multiset and the same slots from [m] on
    have the same multiset before [m]. *)
Lemma perm_prefix {A} (a b : list A) (m : Z) :
  a ≡ₚ b -> 0 <= m ->
  (forall i, m <= i -> at_ a i = at_ b i) ->
  take (Z.to_nat m) a ≡ₚ take (Z.to_nat m) b.
Proof.
  intros Hperm Hm Hsame.
  assert (drop (Z.to_nat m) a = drop (Z.to_nat m) b) as Hdrop.
  { apply list_eq. intros i. rewrite !lookup_drop.
    specialize (Hsame (Z.of_nat (Z.to_nat m + i))).
    rewrite !at_lookup, Nat2Z.id in Hsame by lia. apply Hsame. lia. }
  rewrite <- (take_drop (Z.to_nat m) a), <- (take_drop (Z.to_nat m) b) in Hperm.
  rewrite Hdrop in Hperm. by apply Permutation_app_inv_r in Hperm.
Qed.

Section ClassicFacts.
Context {A : Type} (compare : A -> A -> bool).
Hypothesis Hswo : StrictWeakOrder compare.
Implicit Types (a : list A) (p x v : A).

(** In a heap nothing compares greater than the root. *)
Lemma heap_root_max n a x :
  heap_on compare n a -> at_ a 0 = Some x ->
  forall i y, 0 <= i < n -> at_ a i = Some y -> compare x y = false.
Proof.
  intros Hheap Hx.
  assert (forall (k : nat) i y, i <= Z.of_nat k -> 0 <= i < n ->
            at_ a i = Some y -> compare x y = false) as Hind.
  { induction k as [| k IH]; intros i y Hik Hi Hy.
    - assert (i = 0) as -> by lia.
      rewrite Hx in Hy. injection Hy as <-. apply (swo_irrefl _ Hswo).
    - destruct (decide (i = 0)) as [-> | Hpos].
      + rewrite Hx in Hy. injection Hy as <-. apply (swo_irrefl _ Hswo).
      + pose proof (parent_of_lt i ltac:(lia)) as Hpl.
        pose proof (at_Some_range _ _ _ Hy) as Hr.
        destruct (at_in_range a (parent_of i)) as [z Hz]; [lia |].
        apply (ge_trans compare Hswo x z y).
        * apply (IH (parent_of i)); [lia | lia | done].
        * apply (Hheap i); [lia | lia | done | done]. }
  intros i y Hi Hy. apply (Hind (Z.to_nat i) i y); [lia | done | done].
Qed.

Lemma push_heap_spec a :
  1 <= len a -> heap_on compare (len a - 1) a ->
  exists a',
    push_heap compare a = Ok a' /\ len a' = len a /\
    heap_on compare (len a) a' /\ a' ≡ₚ a.
Proof.
  intros Hn Hheap. unfold push_heap.
  destruct (Z.ltb_spec 0 (len a - 1)) as [Hpos | Hpos].
  2: { exists a. repeat split; try done. intros j Hj. lia. }
  pose proof (parent_of_lt (len a - 1) Hpos) as Hpl.
  change ((len a - 1 - 1) ÷ 2) with (parent_of (len a - 1)).
  destruct (at_in_range a (parent_of (len a - 1))) as [x Hx]; [lia |].
  destruct (at_in_range a (len a - 1)) as [p Hp]; [lia |].
  rewrite (rd_Ok _ _ _ Hx), (rd_Ok _ _ _ Hp). simpl.
  destruct (compare x p) eqn:Hxp.
  - destruct (up_heap_spec compare Hswo (len a) p a (len a - 1))
      as (a' & Hrun & Hlen & Hheap' & Hperm & _); [lia | lia | |].
    { split; [| split].
      - intros j Hj Hpj Hjl. apply Hheap; [lia | unfold parent_of; lia].
      - intros j y Hj Hpj. apply parent_of_child in Hpj; lia.
      - intros _ z Hz j y Hj Hpj. apply parent_of_child in Hpj; lia. }
    exists a'. split; [done |]. split; [done |]. split; [done |].
    by rewrite Hperm, (upd_same _ _ _ Hp).
  - exists a. repeat split; try done.
    intros j Hj Hlo. destruct (decide (j = len a - 1)) as [-> | Hne].
    + intros x' p'. congruence.
    + apply Hheap; [lia | done].
Qed.

(** [__pop_heap] on the heap [0, m]: the root goes to slot [m], the
    rest is a heap on [0, m). *)
Lemma pop_step_spec a m :
  0 < m < len a -> heap_on compare (m + 1) a ->
  exists a' x,
    __pop_heap compare a m m = Ok a' /\
    at_ a 0 = Some x /\ at_ a' m = Some x /\
    len a' = len a /\ a' ≡ₚ a /\
    heap_on compare m a' /\
    (forall i, m < i -> at_ a' i = at_ a i) /\
    (forall i y, 0 <= i <= m -> at_ a' i = Some y -> compare x y = false).
Proof.
  intros Hm Hheap.
  destruct (pop_step_total compare a m)
    as (a' & x & v & Hrun & Hx & Hv & Hdown & Hlast & Hlen & Hperm & Hframe);
    [done |].
  destruct (down_heap_spec compare Hswo 0 m v (upd a m x) 0)
    as (a'' & Hrun' & _ & Hheap' & _); [lia | lia | rewrite len_upd; lia | |].
  { apply (edited_down_inv compare Hswo a); try done; try lia.
    - apply (heap_on_prefix compare (m + 1)); [lia | done].
    - intros i _ Hi. apply at_upd_ne. lia. }
  assert (a'' = a') as -> by congruence.
  exists a', x. split_and!; try done.
  intros i y Hi Hy.
  assert (y ∈ take (Z.to_nat (m + 1)) a') as Hin.
  { apply at_take_elem_of. exists i. split; [lia | done]. }
  rewrite (perm_prefix a' a (m + 1)) in Hin; [| done | lia |];
    [| intros j Hj; apply Hframe; lia].
  apply at_take_elem_of in Hin as (i' & Hi' & Hy').
  by apply (heap_root_max (m + 1) a x Hheap Hx i' y).
Qed.

Lemma pop_heap_spec a :
  1 <= len a -> heap_on compare (len a) a ->
  exists a' x,
    pop_heap compare a = Ok a' /\
    at_ a 0 = Some x /\ at_ a' (len a - 1) = Some x /\
    len a' = len a /\ a' ≡ₚ a /\
    heap_on compare (len a - 1) a' /\
    (forall i y, 0 <= i < len a -> at_ a' i = Some y ->
                 compare x y = false).
Proof.
  intros Hn Hheap. unfold pop_heap.
  destruct (Z.ltb_spec 1 (len a)) as [Hgo | Hone].
  - destruct (pop_step_spec a (len a - 1))
      as (a' & x & Hrun & Hx & Hlast & Hlen & Hperm & Hheap' & _ & Hmax);
      [lia | by replace (len a - 1 + 1) with (len a) by lia |].
    exists a', x. split_and!; try done.
    intros i y Hi. apply Hmax. lia.
  - destruct (at_in_range a 0) as [x Hx]; [lia |].
    exists a, x. assert (len a - 1 = 0) as -> by lia.
    split_and!; try done.
    + intros j Hj. lia.
    + intros i y Hi Hy. assert (i = 0) as -> by lia.
      rewrite Hx in Hy. injection Hy as <-. apply (swo_irrefl _ Hswo).
Qed.

Lemma sort_loop_spec fuel : forall a last,
  sort_inv compare last a -> last <= len a -> last <= Z.of_nat fuel ->
  exists a',
    sort_loop compare fuel a last = Ok a' /\
    len a' = len a /\ a' ≡ₚ a /\ ascending compare a'.
Proof.
  assert (Hstop : forall a last, sort_inv compare last a -> last <= 1 ->
            ascending compare a).
  { intros a last [_ Hsuf] Hlast i j x y Hij Hx Hy.
    destruct (Z.le_gt_cases last j) as [Hj | Hj]; [by apply (Hsuf i j) |].
    assert (i = j) as -> by lia.
    rewrite Hx in Hy. injection Hy as <-. apply (swo_irrefl _ Hswo). }
  induction fuel as [| fuel IH]; intros a last Hinv Hlast Hfuel; simpl.
  - destruct (Z.ltb_spec 1 last); [lia |].
    exists a. split_and!; try done. by apply (Hstop a last).
  - destruct (Z.ltb_spec 1 last) as [Hgo | Hend].
    2: { exists a. split_and!; try done. by apply (Hstop a last). }
    destruct Hinv as [Hheap Hsuf].
    destruct (pop_step_spec a (last - 1))
      as (a1 & x & Hrun & Hx & Hlast1 & Hlen1 & Hperm1 & Hheap1 & Hframe & Hmax);
      [lia | by replace (last - 1 + 1) with last by lia |].
    rewrite Hrun. simpl.
    destruct (IH a1 (last - 1)) as (a' & Hrun' & Hlen' & Hperm' & Hasc);
      [| lia | lia |].
    { split; [done |]. intros i j xi yj Hij Hj Hxi Hyj.
      destruct (decide (j = last - 1)) as [-> | Hjm].
      - rewrite Hlast1 in Hyj. injection Hyj as <-.
        apply (Hmax i xi); [lia | done].
      - rewrite Hframe in Hyj by lia.
        destruct (Z.le_gt_cases last i) as [Hi | Hi].
        + rewrite Hframe in Hxi by lia.
          apply (Hsuf i j); [lia | lia | done | done].
        + assert (xi ∈ take (Z.to_nat last) a1) as Hin.
          { apply at_take_elem_of. exists i. split; [lia | done]. }
          rewrite (perm_prefix a1 a last) in Hin; [| done | lia |];
            [| intros k Hk; apply Hframe; lia].
          apply at_take_elem_of in Hin as (i' & Hi' & Hxi').
          apply (Hsuf i' j); [lia | lia | done | done]. }
    exists a'. split; [done |]. split; [congruence |].
    split; [by rewrite Hperm', Hperm1 | done].
Qed.

Lemma sort_heap_spec a :
  heap_on compare (len a) a ->
  exists a',
    sort_heap compare a = Ok a' /\
    len a' = len a /\ a' ≡ₚ a /\ ascending compare a'.
Proof.
  intros Hheap. unfold sort_heap.
  apply sort_loop_spec; [| lia | unfold len; lia].
  split; [done |]. intros i j x y Hij Hj Hx Hy.
  apply at_Some_range in Hy. lia.
Qed.
End ClassicFacts.

Section CheckFacts.
Context {A : Type} (compare : A -> A -> bool).
Implicit Types (a : list A).

(** The scan of [is_heap_until] stops at the first child that its
    parent compares less than. *)
Lemma is_heap_loop_spec a fuel : forall parent,
  0 <= parent -> len a <= 2 * parent + 1 + 2 * Z.of_nat fuel ->
  exists r,
    is_heap_loop compare fuel a (len a) parent (2 * parent + 1) = Ok r /\
    (r = len a \/ 2 * parent + 1 <= r < len a) /\
    (forall j, 2 * parent + 1 <= j < r -> edge_ok compare a j) /\
    (r < len a ->
     exists x y, at_ a (parent_of r) = Some x /\ at_ a r = Some y /\
                 compare x y = true).
Proof.
  induction fuel as [| fuel IH]; intros parent Hp Hfuel; simpl.
  - destruct (Z.ltb_spec (2 * parent + 1) (len a)); [lia |].
    exists (len a). split_and!; [done | by left | intros j Hj; lia | lia].
  - destruct (Z.ltb_spec (2 * parent + 1) (len a)) as [Hc | Hc].
    2: { exists (len a).
         split_and!; [done | by left | intros j Hj; lia | lia]. }
    destruct (at_in_range a parent) as [x Hx]; [lia |].
    destruct (at_in_range a (2 * parent + 1)) as [y Hy]; [lia |].
    rewrite (rd_Ok _ _ _ Hx), (rd_Ok _ _ _ Hy). simpl.
    destruct (compare x y) eqn:Hxy.
    { exists (2 * parent + 1).
      split_and!; [done | right; lia | intros j Hj; lia |].
      intros _. exists x, y. by rewrite parent_of_left. }
    assert (edge_ok compare a (2 * parent + 1)) as Hleft.
    { intros x' y'. rewrite parent_of_left by done. congruence. }
    replace (2 * parent + 1 + 1 + 1) with (2 * (parent + 1) + 1) by lia.
    destruct (Z.ltb_spec (2 * parent + 1 + 1) (len a)) as [Hc2 | Hc2].
    + destruct (at_in_range a (2 * parent + 1 + 1)) as [z Hz]; [lia |].
      rewrite (rd_Ok _ _ _ Hz). simpl.
      destruct (compare x z) eqn:Hxz.
      { exists (2 * parent + 1 + 1). split_and!; [done | right; lia | |].
        - intros j Hj. by assert (j = 2 * parent + 1) as -> by lia.
        - intros _. exists x, z.
          replace (2 * parent + 1 + 1) with (2 * parent + 2) in * by lia.
          by rewrite parent_of_right. }
      destruct (IH (parent + 1)) as (r & Hrun & Hr & Hok & Hbad); [lia | lia |].
      exists r. split_and!; [done | lia | | done].
      intros j Hj.
      destruct (decide (j = 2 * parent + 1)) as [-> | Hj1]; [done |].
      destruct (decide (j = 2 * parent + 2)) as [-> | Hj2]; [| apply Hok; lia].
      intros x' z'. rewrite parent_of_right by done.
      replace (2 * parent + 2) with (2 * parent + 1 + 1) by lia. congruence.
    + destruct (IH (parent + 1)) as (r & Hrun & Hr & Hok & Hbad); [lia | lia |].
      exists r. split_and!; [done | lia | | done].
      intros j Hj.
      destruct (decide (j = 2 * parent + 1)) as [-> | Hj1]; [done |].
      apply Hok. lia.
Qed.

(** A heap on a prefix can be checked by running [is_heap] on it. *)
Lemma heap_on_take a (m : Z) :
  0 <= m <= len a ->
  is_heap compare (take (Z.to_nat m) a) = Ok true ->
  heap_on compare m a.
Proof.
  intros Hm Hcheck%is_heap_heap_on.
  assert (len (take (Z.to_nat m) a) = m) as Hlen.
  { unfold len in *. rewrite length_take. lia. }
  rewrite Hlen in Hcheck.
  assert (forall i, 0 <= i < m -> at_ (take (Z.to_nat m) a) i = at_ a i) as Hat.
  { intros i Hi. rewrite !at_lookup by lia. apply lookup_take_lt. lia. }
  intros j Hj Hlo x y Hx Hy. pose proof (parent_of_lt j ltac:(lia)).
  apply (Hcheck j Hj Hlo); by rewrite Hat by lia.
Qed.
End CheckFacts.

(** X3. [is_heap_until] never leaves the range.  It returns the first
    index whose parent compares less than it, or [last] when there is
    none: every index below the result is in order with its parent, and
    a result below [last] is out of order with its parent.  [is_heap]
    answers true exactly on the sequences that satisfy the heap
    property. *)
Theorem is_heap_until_first_violation {A} (compare : A -> A -> bool)
  (a : list A) :
  exists r,
    is_heap_until compare a = Ok r /\
    is_heap compare a = Ok (r =? len a) /\
    (r = len a \/ 1 <= r < len a) /\
    (forall j x y, 0 < j < r ->
       at_ a ((j - 1) ÷ 2) = Some x -> at_ a j = Some y ->
       compare x y = false) /\
    (r < len a ->
     exists x y, at_ a ((r - 1) ÷ 2) = Some x /\ at_ a r = Some y /\
                 compare x y = true) /\
    (is_heap compare a = Ok true <-> heap_on compare (len a) a).
Proof.
  destruct (is_heap_loop_spec compare a (length a) 0)
    as (r & Hrun & Hr & Hok & Hbad); [lia | unfold len; lia |].
  change (2 * 0 + 1) with 1 in *.
  assert (is_heap compare a = Ok (r =? len a)) as His.
  { unfold is_heap, is_heap_until. by rewrite Hrun. }
  exists r. split_and!; try done.
  - intros j x y Hj. apply (Hok j). lia.
  - split; [apply is_heap_heap_on |].
    intros Hheap. rewrite His. f_equal. apply Z.eqb_eq.
    destruct Hr as [-> | Hr]; [done |].
    destruct Hbad as (x & y & Hx & Hy & Hxy); [lia |].
    rewrite (Hheap r) in Hxy; [done | lia | | done | done].
    unfold parent_of. lia.
Qed.

(** X4. If [0, n - 1) is a heap, [push_heap] on [0, n) returns a heap
    on the whole range ([is_heap] answers true) that is a permutation
    of the input. *)
Theorem push_heap_extends_heap {A} (compare : A -> A -> bool) (a : list A) :
  StrictWeakOrder compare ->
  1 <= len a -> heap_on compare (len a - 1) a ->
  exists a',
    push_heap compare a = Ok a' /\
    heap_on compare (len a) a' /\
    is_heap compare a' = Ok true /\
    a' ≡ₚ a.
Proof.
  intros Hswo Hn Hheap.
  destruct (push_heap_spec compare Hswo a Hn Hheap)
    as (a' & Hrun & Hlen & Hheap' & Hperm).
  exists a'. split_and!; try done.
  apply is_heap_true. by rewrite Hlen.
Qed.

Lemma push_heap_extends_heap_witness :
  exists a',
    push_heap Z.ltb [7; 3; 5; 9] = Ok a' /\
    heap_on Z.ltb (len [7; 3; 5; 9]) a' /\
    is_heap Z.ltb a' = Ok true /\
    a' ≡ₚ [7; 3; 5; 9].
Proof.
  apply (push_heap_extends_heap Z.ltb [7; 3; 5; 9] Zltb_swo).
  - unfold len. simpl. lia.
  - apply heap_on_take; [unfold len; simpl; lia | reflexivity].
Defined.

(** X5. On a heap of [n >= 1] elements [pop_heap] returns; slot
    [n - 1] then holds the former root, no element of the sequence
    compares greater than it, the prefix [0, n - 1) is a heap, and the
    prefix together with the former root is a permutation of the
    input. *)
Theorem pop_heap_moves_the_maximum {A} (compare : A -> A -> bool)
  (a : list A) :
  StrictWeakOrder compare ->
  1 <= len a -> heap_on compare (len a) a ->
  exists a' x,
    pop_heap compare a = Ok a' /\
    at_ a 0 = Some x /\
    at_ a' (len a - 1) = Some x /\
    (forall i y, 0 <= i < len a -> at_ a' i = Some y ->
                 compare x y = false) /\
    heap_on compare (len a - 1) a' /\
    x :: take (Z.to_nat (len a - 1)) a' ≡ₚ a.
Proof.
  intros Hswo Hn Hheap.
  destruct (pop_heap_spec compare Hswo a Hn Hheap)
    as (a' & x & Hrun & Hx & Hlast & Hlen & Hperm & Hheap' & Hmax).
  exists a', x. split_and!; try done.
  rewrite <- Hlen in *. by rewrite last_and_prefix.
Qed.

Lemma pop_heap_moves_the_maximum_witness :
  exists a' x,
    pop_heap Z.ltb [16; 14; 10; 8; 7] = Ok a' /\
    at_ [16; 14; 10; 8; 7] 0 = Some x /\
    at_ a' (len [16; 14; 10; 8; 7] - 1) = Some x /\
    (forall i y, 0 <= i < len [16; 14; 10; 8; 7] -> at_ a' i = Some y ->
                 (x <? y) = false) /\
    heap_on Z.ltb (len [16; 14; 10; 8; 7] - 1) a' /\
    x :: take (Z.to_nat (len [16; 14; 10; 8; 7] - 1)) a'
      ≡ₚ [16; 14; 10; 8; 7].
Proof.
  apply (pop_heap_moves_the_maximum Z.ltb [16; 14; 10; 8; 7] Zltb_swo).
  - unfold len. simpl. lia.
  - apply is_heap_heap_on. reflexivity.
Defined.

(** X6. On a heap [sort_heap] returns the elements of the input in
    ascending order: the result is a permutation of the input in which
    no element compares less than an element before it. *)
Theorem sort_heap_sorts {A} (compare : A -> A -> bool) (a : list A) :
  StrictWeakOrder compare ->
  heap_on compare (len a) a ->
  exists a',
    sort_heap compare a = Ok a' /\ a' ≡ₚ a /\ ascending compare a'.
Proof.
  intros Hswo Hheap.
  destruct (sort_heap_spec compare Hswo a Hheap)
    as (a' & Hrun & _ & Hperm & Hasc).
  by exists a'.
Qed.

Lemma sort_heap_sorts_witness :
  exists a',
    sort_heap Z.ltb [16; 14; 10; 8; 7] = Ok a' /\
    a' ≡ₚ [16; 14; 10; 8; 7] /\ ascending Z.ltb a'.
Proof.
  apply (sort_heap_sorts Z.ltb [16; 14; 10; 8; 7] Zltb_swo).
  apply is_heap_heap_on. reflexivity.
Defined.

(** X7. Heap sort: [make_heap] followed by [sort_heap] returns, for
    every sequence, a permutation of it in ascending order. *)
Theorem make_heap_then_sort_heap {A} (compare : A -> A -> bool)
  (a : list A) :
  StrictWeakOrder compare ->
  exists h s,
    make_heap compare a = Ok h /\
    sort_heap compare h = Ok s /\
    s ≡ₚ a /\ ascending compare s.
Proof.
  intros Hswo.
  destruct (make_heap_spec compare Hswo a) as (h & Hmake & Hlen & Hheap & Hperm).
  rewrite <- Hlen in Hheap.
  destruct (sort_heap_spec compare Hswo h Hheap)
    as (s & Hsort & _ & Hperm' & Hasc).
  exists h, s. split_and!; try done. by rewrite Hperm', Hperm.
Qed.

Lemma make_heap_then_sort_heap_witness :
  exists h s,
    make_heap Z.ltb [5; 2; 8; 1; 9; 3] = Ok h /\
    sort_heap Z.ltb h = Ok s /\
    s ≡ₚ [5; 2; 8; 1; 9; 3] /\ ascending Z.ltb s.
Proof.
  exact (make_heap_then_sort_heap Z.ltb [5; 2; 8; 1; 9; 3] Zltb_swo).
Defined.

(** X8. On a heap of [n >= 1] elements, [pop_heap] followed by
    [push_heap] returns a heap on the whole range that is a permutation
    of the input. *)
Theorem pop_heap_then_push_heap {A} (compare : A -> A -> bool) (a : list A) :
  StrictWeakOrder compare ->
  1 <= len a -> heap_on compare (len a) a ->
  exists a1 a2,
    pop_heap compare a = Ok a1 /\
    push_heap compare a1 = Ok a2 /\
    heap_on compare (len a) a2 /\
    a2 ≡ₚ a.
Proof.
  intros Hswo Hn Hheap.
  destruct (pop_heap_spec compare Hswo a Hn Hheap)
    as (a1 & x & Hpop & _ & _ & Hlen1 & Hperm1 & Hheap1 & _).
  rewrite <- Hlen1 in Hheap1.
  destruct (push_heap_spec compare Hswo a1) as (a2 & Hpush & _ & Hheap2 & Hperm2);
    [lia | done |].
  rewrite Hlen1 in Hheap2.
  exists a1, a2. split_and!; try done.
  by rewrite Hperm2, Hperm1.
Qed.

Lemma pop_heap_then_push_heap_witness :
  exists a1 a2,
    pop_heap Z.ltb [16; 14; 10; 8; 7] = Ok a1 /\
    push_heap Z.ltb a1 = Ok a2 /\
    heap_on Z.ltb (len [16; 14; 10; 8; 7]) a2 /\
    a2 ≡ₚ [16; 14; 10; 8; 7].
Proof.
  apply (pop_heap_then_push_heap Z.ltb [16; 14; 10; 8; 7] Zltb_swo).
  - unfold len. simpl. lia.
  - apply is_heap_heap_on. reflexivity.
Defined.

(** ** Heaps without ties *)

Section StrictFacts.
Context {A : Type} (compare : A -> A -> bool).
Implicit Types (a : list A) (p x : A).

(** A heap under the comparator "does not compare less the other way
    round" is a heap without ties; [is_heap] decides it. *)
Lemma strict_heap_on_check a :
  is_heap (fun x y => negb (compare y x)) a = Ok true ->
  strict_heap_on compare (len a) a.
Proof.
  intros Hcheck%is_heap_heap_on j x y Hj Hx Hy.
  pose proof (parent_of_lt j ltac:(lia)).
  pose proof (Hcheck j Hj ltac:(lia) x y Hx Hy) as Hn. simpl in Hn.
  by destruct (compare y x).
Qed.

(** Sifting down a value whose children all compare less than it puts
    it back where it was. *)
Lemma down_heap_strict n a hole p :
  strict_heap_on compare n a ->
  0 <= hole < n -> n <= len a -> at_ a hole = Some p ->
  __down_heap compare a n hole p = Ok a.
Proof.
  intros Hstrict Hh Hn Hp. unfold __down_heap.
  assert (wr a hole p = Ok a) as Hput.
  { rewrite wr_Ok by lia. by rewrite (upd_same _ _ _ Hp). }
  destruct (Z.to_nat n) as [| fuel] eqn:Hfuel; [lia |]. simpl.
  destruct (Z.ltb_spec (2 * hole + 1) n) as [Hc | Hc]; [| done].
  destruct (select_child_range compare a n hole)
    as (c & x & Hsel & Hx & Hcc & Hcn); [lia | lia |].
  unfold down_body. rewrite Hsel. simpl. rewrite (rd_Ok _ _ _ Hx). simpl.
  assert (parent_of c = hole) as Hpc by (apply parent_of_child; lia).
  rewrite (Hstrict c p x); [done | lia | by rewrite Hpc | done].
Qed.

Lemma make_heap_loop_strict n k a :
  strict_heap_on compare n a -> Z.of_nat k <= n -> n <= len a ->
  make_heap_loop compare k a n = Ok a.
Proof.
  intros Hstrict. induction k as [| k IH]; intros Hk Hn; [done |]. simpl.
  destruct (at_in_range a (Z.of_nat k)) as [p Hp]; [lia |].
  rewrite (rd_Ok _ _ _ Hp). simpl.
  rewrite down_heap_strict by (done || lia). simpl.
  apply IH; lia.
Qed.
End StrictFacts.

(** X9. On a heap without ties along its edges (every element compares
    less than its parent) [make_heap], [push_heap] and [update_heap] at
    any position return the sequence as it is. *)
Theorem strict_heap_is_left_unchanged {A} (compare : A -> A -> bool)
  (a : list A) :
  StrictWeakOrder compare ->
  strict_heap_on compare (len a) a ->
  make_heap compare a = Ok a /\
  push_heap compare a = Ok a /\
  forall k, 0 <= k < len a -> update_heap compare a k = Ok a.
Proof.
  intros Hswo Hstrict.
  assert (0 <= len a) as Hlen by (unfold len; lia).
  assert (forall j x y, 0 < j < len a ->
            at_ a (parent_of j) = Some x -> at_ a j = Some y ->
            compare x y = false) as Hge.
  { intros j x y Hj Hx Hy. apply (lt_asym compare Hswo).
    by apply (Hstrict j). }
  split_and!.
  - unfold make_heap. apply make_heap_loop_strict; [done | lia | lia].
  - unfold push_heap.
    destruct (Z.ltb_spec 0 (len a - 1)) as [Hpos | Hpos]; [| done].
    pose proof (parent_of_lt (len a - 1) Hpos) as Hpl.
    change ((len a - 1 - 1) ÷ 2) with (parent_of (len a - 1)).
    destruct (at_in_range a (parent_of (len a - 1))) as [x Hx]; [lia |].
    destruct (at_in_range a (len a - 1)) as [p Hp]; [lia |].
    rewrite (rd_Ok _ _ _ Hx), (rd_Ok _ _ _ Hp). simpl.
    by rewrite (Hge (len a - 1) x p) by (done || lia).
  - intros k Hk. unfold update_heap.
    destruct (at_in_range a k) as [p Hp]; [done |].
    destruct (Z.ltb_spec 0 k) as [Hpos | Hzero].
    + pose proof (parent_of_lt k Hpos) as Hpl.
      change ((k - 1) ÷ 2) with (parent_of k).
      destruct (at_in_range a (parent_of k)) as [x Hx]; [lia |].
      rewrite (rd_Ok _ _ _ Hx), (rd_Ok _ _ _ Hp). simpl.
      rewrite (Hge k x p) by (done || lia).
      by apply down_heap_strict.
    + rewrite (rd_Ok _ _ _ Hp). simpl. by apply down_heap_strict.
Qed.

Lemma strict_heap_is_left_unchanged_witness :
  make_heap Z.ltb [9; 5; 7; 1] = Ok [9; 5; 7; 1] /\
  push_heap Z.ltb [9; 5; 7; 1] = Ok [9; 5; 7; 1] /\
  forall k, 0 <= k < len [9; 5; 7; 1] ->
            update_heap Z.ltb [9; 5; 7; 1] k = Ok [9; 5; 7; 1].
Proof.
  apply (strict_heap_is_left_unchanged Z.ltb [9; 5; 7; 1] Zltb_swo).
  apply strict_heap_on_check. reflexivity.
Defined.

(** With a tie the arrangement can change: the root and its child are
    equivalent, and [make_heap] exchanges them. *)
Example make_heap_on_a_heap_with_a_tie :
  is_heap key_lt [(4, 1); (4, 2)] = Ok true /\
  make_heap key_lt [(4, 1); (4, 2)] = Ok [(4, 2); (4, 1)].
Proof. split; reflexivity. Qed.

(** X10. The positional [pop_heap] at the first position is
    [pop_heap]: the same sequence, and with an observer the same
    callbacks. *)
Theorem pop_heap_pos_at_front {A} (compare : A -> A -> bool) (a : list A) :
  pop_heap_pos compare a 0 = pop_heap compare a /\
  pop_heap_pos_moved compare a 0 = pop_heap_moved compare a.
Proof.
  unfold pop_heap_pos, pop_heap, pop_heap_pos_moved, pop_heap_moved.
  rewrite Z.sub_0_r. split; reflexivity.
Qed.

(** X11. For every sequence of two or more elements (shorter than
    [2^(w-1)], as a signed [w]-bit length is), every block size
    [>= 1] and every [maxThreads], the run of [parallel_make_heap] in
    which each block is processed when it is claimed (the only run when
    one thread is used) returns exactly what [make_heap] returns: a heap
    that is a permutation of the input.  The overload without
    comparator does the same. *)
Theorem parallel_make_heap_builds_heap {A} (compare : A -> A -> bool)
  (w hw : Z) (a : list A) (blockSize maxThreads : Z) :
  StrictWeakOrder compare ->
  0 < w -> 2 <= len a < 2 ^ (w - 1) -> 1 <= blockSize ->
  exists a',
    parallel_make_heap compare w hw a blockSize maxThreads = Ok a' /\
    parallel_make_heap_default compare w hw a blockSize maxThreads = Ok a' /\
    make_heap compare a = Ok a' /\
    is_heap compare a' = Ok true /\
    a' ≡ₚ a.
Proof.
  intros Hswo Hw Hlen Hbs.
  destruct (parallel_make_heap_eq_make_heap compare w Hw hw a blockSize
              maxThreads Hlen Hbs) as [-> ->].
  destruct (make_heap_spec compare Hswo a) as (a' & Hrun & Hlen' & Hheap & Hperm).
  exists a'. split_and!; try done.
  apply is_heap_true. by rewrite Hlen'.
Qed.

Lemma parallel_make_heap_builds_heap_witness :
  exists a',
    parallel_make_heap Z.ltb 64 4 [4; 1; 3; 2; 16; 9; 10; 14; 8; 7] 2 3
      = Ok a' /\
    parallel_make_heap_default Z.ltb 64 4 [4; 1; 3; 2; 16; 9; 10; 14; 8; 7] 2 3
      = Ok a' /\
    make_heap Z.ltb [4; 1; 3; 2; 16; 9; 10; 14; 8; 7] = Ok a' /\
    is_heap Z.ltb a' = Ok true /\
    a' ≡ₚ [4; 1; 3; 2; 16; 9; 10; 14; 8; 7].
Proof.
  apply (parallel_make_heap_builds_heap Z.ltb 64 4
           [4; 1; 3; 2; 16; 9; 10; 14; 8; 7] 2 3 Zltb_swo).
  - lia.
  - unfold len. simpl. lia.
  - lia.
Defined.

(** ** An index map kept by the observer *)

Section TrackFacts.
Context {A : Type} `{EqDecision A}.
Implicit Types (a : list A) (pos : A -> Z) (E : list (event A)).

Lemma track_snoc pos E e v :
  track pos (E ++ [e]) v
  = if decide (v = ev_val e) then ev_to e else track pos E v.
Proof. unfold track. by rewrite foldl_app. Qed.

Lemma track_app pos E1 E2 : track pos (E1 ++ E2) = track (track pos E1) E2.
Proof. unfold track. by rewrite foldl_app. Qed.

(** A value that no event carries keeps its entry. *)
Lemma track_other pos E v :
  (forall e, e ∈ E -> ev_val e <> v) -> track pos E v = pos v.
Proof.
  induction E as [| e E IH] using rev_ind; intros Hno; [done |].
  rewrite track_snoc. destruct (decide (v = ev_val e)) as [-> | _].
  - exfalso. apply (Hno e); [| done]. apply elem_of_app. right. by left.
  - apply IH. intros e' He'. apply Hno. apply elem_of_app. by left.
Qed.

(** A value whose events all name the same target has that target as
    its entry. *)
Lemma track_target pos E v t :
  (exists e, e ∈ E /\ ev_val e = v) ->
  (forall e, e ∈ E -> ev_val e = v -> ev_to e = t) ->
  track pos E v = t.
Proof.
  induction E as [| e E IH] using rev_ind; intros (e0 & He0 & Hv0) Hall.
  - by apply elem_of_nil in He0.
  - rewrite track_snoc. destruct (decide (v = ev_val e)) as [-> | Hne].
    + apply Hall; [| done]. apply elem_of_app. right. by left.
    + apply IH.
      * apply elem_of_app in He0 as [He0 | He0]; [by exists e0 |].
        apply list_elem_of_singleton in He0. congruence.
      * intros e' He'. apply Hall. apply elem_of_app. by left.
Qed.

Lemma at_NoDup a i j v :
  NoDup a -> at_ a i = Some v -> at_ a j = Some v -> i = j.
Proof.
  intros Hnd Hi Hj.
  pose proof (at_Some_range _ _ _ Hi). pose proof (at_Some_range _ _ _ Hj).
  rewrite at_lookup in Hi, Hj by lia.
  pose proof (NoDup_lookup _ _ _ _ Hnd Hi Hj). lia.
Qed.

(** After a relocation of distinct values the map updated with its
    events locates every element. *)
Lemma relocation_tracks a a' E pos :
  relocation a a' E -> NoDup a' -> locates pos a ->
  locates (track pos E) a'.
Proof.
  intros (_ & Hev & _ & _ & Hframe) Hnd Hpos i v Hv.
  destruct (decide (v ∈ ev_val <$> E)) as [Hin | Hout].
  - apply list_elem_of_fmap in Hin as (e & -> & He).
    apply track_target; [by exists e |].
    intros e' He' Hv'. destruct (Hev e' He') as [_ Hto].
    rewrite Hv' in Hto. by apply (at_NoDup a' _ _ _ Hnd Hto).
  - rewrite track_other.
    + apply Hpos. rewrite <- Hframe; [done |].
      intros Hi. apply list_elem_of_fmap in Hi as (e & -> & He).
      destruct (Hev e He) as [_ Hto]. apply Hout.
      apply list_elem_of_fmap. exists e. split; [congruence | done].
    + intros e He Hve. apply Hout. apply list_elem_of_fmap. by exists e.
Qed.
End TrackFacts.

Section TrackOperations.
Context {A : Type} `{EqDecision A} (compare : A -> A -> bool).
Implicit Types (a : list A) (pos : A -> Z) (E : list (event A)).

(** An operation that relocates and keeps the multiset keeps the index
    map right. *)
Lemma tracked_step a a' E pos (plain : res (list A))
    (observed : res (list A * list (event A))) :
  observed = Ok (a', E) ->
  (r <- observed ;; Ok r.1) = plain ->
  (exists b, plain = Ok b /\ b ≡ₚ a) ->
  relocation a a' E ->
  NoDup a -> locates pos a ->
  NoDup a' /\ locates (track pos E) a'.
Proof.
  intros -> Herase (b & -> & Hperm) Hrel Hnd Hpos.
  simpl in Herase. injection Herase as <-.
  assert (NoDup a') as Hnd' by by rewrite Hperm.
  split; [done |]. by apply (relocation_tracks a).
Qed.

Lemma make_heap_loop_moved_tracks n k : forall a pos,
  Z.of_nat k <= n -> n <= len a ->
  NoDup a -> locates pos a ->
  exists a' E,
    make_heap_loop_moved compare k a n = Ok (a', E) /\
    len a' = len a /\ NoDup a' /\ locates (track pos E) a'.
Proof.
  induction k as [| k IH]; intros a pos Hk Hn Hnd Hpos.
  - by exists a, [].
  - simpl.
    destruct (at_in_range a (Z.of_nat k)) as [p Hp]; [lia |].
    rewrite (rd_Ok _ _ _ Hp). simpl.
    destruct (down_heap_moved_spec compare n p (Z.of_nat k) a (Z.of_nat k))
      as (a1 & E1 & Hrun & Hev); [lia | lia | lia |].
    rewrite Hrun. simpl.
    destruct (sift_relocation _ _ _ _ _ _ _ _ _ Hev Hp) as (Hlen1 & Hrel1 & _).
    destruct (down_heap_total compare n p a (Z.of_nat k))
      as (b & Hplain & _ & Hperm & _); [lia | lia |].
    rewrite (upd_same _ _ _ Hp) in Hperm.
    destruct (tracked_step a a1 E1 pos
                (__down_heap compare a n (Z.of_nat k) p) _ Hrun) as [Hnd1 Hpos1];
      [apply down_loop_moved_erase | by exists b | done | done | done |].
    destruct (IH a1 (track pos E1)) as (a' & E2 & Hrun2 & Hlen2 & Hnd2 & Hpos2);
      [lia | lia | done | done |].
    rewrite Hrun2. simpl. exists a', (E1 ++ E2).
    split; [done |]. split; [congruence |]. split; [done |].
    by rewrite track_app.
Qed.

Lemma sort_loop_moved_tracks fuel : forall a last pos,
  last <= len a -> last <= Z.of_nat fuel ->
  NoDup a -> locates pos a ->
  exists a' E,
    sort_loop_moved compare fuel a last = Ok (a', E) /\
    NoDup a' /\ locates (track pos E) a'.
Proof.
  induction fuel as [| fuel IH]; intros a last pos Hlast Hfuel Hnd Hpos; simpl.
  - destruct (Z.ltb_spec 1 last); [lia |]. by exists a, [].
  - destruct (Z.ltb_spec 1 last) as [Hgo | Hstop]; [| by exists a, []].
    destruct (pop_heap_moved_step compare a (last - 1))
      as (b1 & E1 & x & Hrun & Hmoved & Hlen1 & Hrel1); [lia |].
    rewrite Hrun. simpl. rewrite Hmoved. simpl.
    destruct (pop_step_total compare a (last - 1))
      as (b & _ & _ & Hplain & _ & _ & _ & _ & _ & Hperm & _); [lia |].
    pose proof (pop_heap_moved_erase compare a (last - 1) (last - 1)) as Her.
    rewrite Hrun, Hplain in Her. simpl in Her. injection Her as ->.
    assert (NoDup b) as Hnd1 by by rewrite Hperm.
    pose proof (relocation_tracks _ _ _ _ Hrel1 Hnd1 Hpos) as Hpos1.
    destruct (IH b (last - 1) (track pos (E1 ++ [(x, 0, last - 1)])))
      as (a' & E2 & Hrun2 & Hnd2 & Hpos2); [lia | lia | done | done |].
    rewrite Hrun2. simpl. exists a', (E1 ++ (x, 0, last - 1) :: E2).
    split; [done |]. split; [done |].
    by rewrite (cons_middle _ E1 E2), app_assoc, track_app.
Qed.
End TrackOperations.

(** X12. An observer that starts with the slot of every element of a
    sequence of distinct values, and on each callback
    [moved(value, from, to)] sets the entry of [value] to [to], ends
    every operation with a move callback with the slot of every element
    of the result. *)
Theorem index_map_follows_the_moves {A} `{EqDecision A}
  (compare : A -> A -> bool) (a : list A) (pos : A -> Z) :
  NoDup a -> locates pos a ->
  (exists a' E,
     make_heap_moved compare a = Ok (a', E) /\ locates (track pos E) a') /\
  (exists a' E,
     sort_heap_moved compare a = Ok (a', E) /\ locates (track pos E) a') /\
  (1 <= len a ->
   exists a' E,
     push_heap_moved compare a = Ok (a', E) /\ locates (track pos E) a') /\
  (1 <= len a ->
   exists a' E,
     pop_heap_moved compare a = Ok (a', E) /\ locates (track pos E) a') /\
  (forall k, 0 <= k < len a ->
   exists a' E,
     pop_heap_pos_moved compare a k = Ok (a', E) /\
     locates (track pos E) a') /\
  (forall k, 0 <= k < len a ->
   exists a' E,
     update_heap_moved compare a k = Ok (a', E) /\
     locates (track pos E) a').
Proof.
  intros Hnd Hpos.
  assert (0 <= len a) as Hlen by (unfold len; lia).
  split_and!.
  - unfold make_heap_moved.
    destruct (make_heap_loop_moved_tracks compare (len a)
                (Z.to_nat (len a ÷ 2)) a pos)
      as (a' & E & Hrun & _ & _ & Htr); [lia | lia | done | done |].
    by exists a', E.
  - unfold sort_heap_moved.
    destruct (sort_loop_moved_tracks compare (length a) a (len a) pos)
      as (a' & E & Hrun & _ & Htr); [lia | unfold len; lia | done | done |].
    by exists a', E.
  - intros Hn.
    destruct (push_heap_moved_spec compare a Hn) as (a' & E & Hrun & Hrel & _).
    exists a', E. split; [done |].
    destruct (push_heap_total compare a) as (b & Hplain & _ & Hperm).
    apply (tracked_step a a' E pos (push_heap compare a) _ Hrun);
      [by apply push_heap_moved_erase | by exists b | done | done | done].
  - intros Hn.
    destruct (pop_heap_moved_spec compare a Hn) as (a' & E & Hrun & Hrel & _).
    exists a', E. split; [done |].
    destruct (pop_heap_total compare a) as (b & Hplain & _ & Hperm).
    apply (tracked_step a a' E pos (pop_heap compare a) _ Hrun);
      [by apply pop_heap_moved_whole_erase | by exists b | done | done | done].
  - intros k Hk.
    destruct (pop_heap_pos_moved_spec compare a k Hk)
      as (a' & E & Hrun & Hrel & _).
    exists a', E. split; [done |].
    destruct (pop_heap_pos_total compare a k Hk) as (b & Hplain & _ & Hperm).
    apply (tracked_step a a' E pos (pop_heap_pos compare a k) _ Hrun);
      [apply pop_heap_pos_moved_whole_erase; lia
      | by exists b | done | done | done].
  - intros k Hk.
    destruct (update_heap_moved_spec compare a k Hk)
      as (a' & E & Hrun & Hrel & _).
    exists a', E. split; [done |].
    destruct (update_heap_total compare a k Hk) as (b & Hplain & _ & Hperm).
    apply (tracked_step a a' E pos (update_heap compare a k) _ Hrun);
      [apply update_heap_moved_erase | by exists b | done | done | done].
Qed.

Lemma index_map_follows_the_moves_witness :
  (exists a' E,
     pop_heap_moved Z.ltb [9; 3; 7; 8] = Ok (a', E) /\
     locates (track (fun v => if v =? 9 then 0 else if v =? 3 then 1
                              else if v =? 7 then 2 else 3) E) a') /\
  (exists a' E,
     update_heap_moved Z.ltb [9; 3; 7; 8] 1 = Ok (a', E) /\
     locates (track (fun v => if v =? 9 then 0 else if v =? 3 then 1
                              else if v =? 7 then 2 else 3) E) a').
Proof.
  assert (NoDup [9; 3; 7; 8]) as Hnd.
  { repeat (apply NoDup_cons; split;
      [intros Hin;
       repeat (apply elem_of_cons in Hin as [Hin | Hin]; [discriminate |]);
       by apply elem_of_nil in Hin |]).
    apply NoDup_nil_2. }
  assert (locates (fun v => if v =? 9 then 0 else if v =? 3 then 1
                            else if v =? 7 then 2 else 3) [9; 3; 7; 8])
    as Hpos.
  { intros i v Hv. pose proof (at_Some_range _ _ _ Hv) as Hr.
    unfold len in Hr. simpl in Hr.
    assert (i = 0 \/ i = 1 \/ i = 2 \/ i = 3) as [-> | [-> | [-> | ->]]]
      by lia; vm_compute in Hv; injection Hv as <-; reflexivity. }
  destruct (index_map_follows_the_moves Z.ltb [9; 3; 7; 8] _ Hnd Hpos)
    as (_ & _ & _ & Hpop & _ & Hupd).
  split; [apply Hpop | apply (Hupd 1)]; unfold len; simpl; lia.
Defined.

(** ** The order of the callbacks *)

Section ChainFacts.
Context {A : Type} (compare : A -> A -> bool).
Implicit Types (a b : list A) (p x v : A) (E : list (event A)).

Lemma move_chain_cons dir hole p ppos (e : event A) E :
  ev_to e = hole -> dir hole (ev_from e) ->
  move_chain dir (ev_from e) p ppos E ->
  move_chain dir hole p ppos (e :: E).
Proof.
  intros Hto Hdir Hrest. destruct E as [| e' E']; [done |].
  split; [done |]. by split.
Qed.

Lemma place_moved_chain dir b slot p ppos :
  0 <= slot < len b ->
  exists b1 E,
    place_moved b slot p ppos = Ok (b1, E) /\
    move_chain dir slot p ppos E.
Proof.
  intros Hs.
  destruct (place_moved_spec b slot p ppos slot slot 0 0) as [Hrun _];
    [done | lia |].
  exists (upd b slot p), [(p, ppos, slot)]. by split.
Qed.

Lemma down_loop_moved_chain n p ppos fuel : forall b hole,
  0 <= hole < n -> n <= len b ->
  n <= 2 * hole + 1 + Z.of_nat fuel ->
  exists b1 E,
    down_loop_moved compare fuel b n hole (2 * hole + 1) p ppos = Ok (b1, E) /\
    move_chain to_child hole p ppos E.
Proof.
  induction fuel as [| fuel IH]; intros b hole Hh Hn Hfuel; simpl.
  - destruct (Z.ltb_spec (2 * hole + 1) n); [lia |].
    apply place_moved_chain. lia.
  - destruct (Z.ltb_spec (2 * hole + 1) n) as [Hc | Hc];
      [| apply place_moved_chain; lia].
    destruct (select_child_range compare b n hole)
      as (c & x & Hsel & Hx & Hcc & Hcn); [lia | lia |].
    rewrite Hsel. simpl. rewrite (rd_Ok _ _ _ Hx). simpl.
    destruct (compare x p); [apply place_moved_chain; lia |].
    rewrite wr_Ok by lia. simpl. unfold moved.
    rewrite (rd_Ok _ _ x) by (apply at_upd_eq; lia). simpl.
    destruct (IH (upd b hole x) c) as (b1 & E & Hrun & Hchain);
      [lia | rewrite len_upd; lia | lia |].
    rewrite Hrun. simpl. exists b1, ((x, c, hole) :: E). split; [done |].
    apply move_chain_cons; [done | | done].
    unfold to_child, ev_from. simpl. lia.
Qed.

Lemma up_loop_moved_chain p ppos fuel : forall b hole,
  0 <= hole < len b -> hole <= Z.of_nat fuel ->
  exists b1 E,
    up_loop_moved compare fuel b (parent_of hole) hole p ppos = Ok (b1, E) /\
    move_chain to_parent hole p ppos E.
Proof.
  induction fuel as [| fuel IH]; intros b hole Hh Hfuel; simpl.
  - destruct (Z.ltb_spec 0 hole); [lia |].
    apply place_moved_chain. lia.
  - destruct (Z.ltb_spec 0 hole) as [Hpos | Hpos];
      [| apply place_moved_chain; lia].
    pose proof (parent_of_lt hole Hpos) as Hpl.
    destruct (at_in_range b (parent_of hole)) as [x Hx]; [lia |].
    rewrite (rd_Ok _ _ _ Hx). simpl.
    destruct (compare x p); [| apply place_moved_chain; lia].
    rewrite wr_Ok by lia. simpl. unfold moved.
    rewrite (rd_Ok _ _ x) by (apply at_upd_eq; lia). simpl.
    change ((parent_of hole - 1) ÷ 2) with (parent_of (parent_of hole)).
    destruct (IH (upd b hole x) (parent_of hole)) as (b1 & E & Hrun & Hchain);
      [rewrite len_upd; lia | lia |].
    rewrite Hrun. simpl. exists b1, ((x, parent_of hole, hole) :: E).
    split; [done |]. by apply move_chain_cons.
Qed.

Lemma down_heap_moved_chain n p ppos b hole :
  0 <= hole < n -> n <= len b ->
  exists b1 E,
    __down_heap_moved compare b n hole p ppos = Ok (b1, E) /\
    move_chain to_child hole p ppos E.
Proof.
  intros. unfold __down_heap_moved. apply down_loop_moved_chain; try done. lia.
Qed.

Lemma up_heap_moved_chain p ppos b hole :
  0 <= hole < len b ->
  exists b1 E,
    __up_heap_moved compare b hole p ppos = Ok (b1, E) /\
    move_chain to_parent hole p ppos E.
Proof.
  intros. unfold __up_heap_moved. apply up_loop_moved_chain; try done. lia.
Qed.

Lemma down_heap_moved_full n p ppos b hole :
  0 <= hole < n -> n <= len b -> n <= ppos ->
  exists b1 E,
    __down_heap_moved compare b n hole p ppos = Ok (b1, E) /\
    len b1 = len b /\
    (forall i, n <= i -> at_ b1 i = at_ b i) /\
    move_chain to_child hole p ppos E.
Proof.
  intros Hh Hn Hpp.
  destruct (down_heap_moved_chain n p ppos b hole)
    as (b1 & E & Hrun & Hchain); [done | done |].
  destruct (down_heap_moved_spec compare n p ppos b hole)
    as (b1' & E' & Hrun' & Hev); [done | done | lia |].
  rewrite Hrun in Hrun'. injection Hrun' as <- <-.
  exists b1, E. split_and!; try done.
  - by destruct Hev as (? & _).
  - intros i Hi. pose proof Hev as (_ & _ & _ & _ & Hframe & _).
    apply Hframe. intros Hin.
    apply (sift_events_targets _ _ _ _ _ _ _ _ _ i Hev) in Hin. lia.
Qed.

Lemma up_heap_moved_full p ppos b hole :
  0 <= hole < len b -> hole <= ppos ->
  exists b1 E,
    __up_heap_moved compare b hole p ppos = Ok (b1, E) /\
    len b1 = len b /\
    (forall i, hole < i -> at_ b1 i = at_ b i) /\
    move_chain to_parent hole p ppos E.
Proof.
  intros Hh Hpp.
  destruct (up_heap_moved_chain p ppos b hole)
    as (b1 & E & Hrun & Hchain); [done |].
  destruct (up_heap_moved_spec compare p ppos b hole)
    as (b1' & E' & Hrun' & Hev); [done | done |].
  rewrite Hrun in Hrun'. injection Hrun' as <- <-.
  exists b1, E. split_and!; try done.
  - by destruct Hev as (? & _).
  - intros i Hi. pose proof Hev as (_ & _ & _ & _ & Hframe & _).
    apply Hframe. intros Hin.
    apply (sift_events_targets _ _ _ _ _ _ _ _ _ i Hev) in Hin. lia.
Qed.

(** The sift of [__pop_heap_pos] with observer is a chain from [k], up
    or down, that ends with the former last element; the removed element
    is reported after it. *)
Lemma pop_heap_pos_moved_chain a k :
  0 <= k -> 1 < len a - k ->
  exists a' E x v,
    pop_heap_pos_moved compare a k = Ok (a', E ++ [(x, k, len a - 1)]) /\
    at_ a k = Some x /\ at_ a (len a - 1) = Some v /\
    (move_chain to_parent k v (len a - 1) E \/
     move_chain to_child k v (len a - 1) E).
Proof.
  intros Hk Hgo. unfold pop_heap_pos_moved.
  destruct (Z.ltb_spec 1 (len a - k)); [| lia].
  set (m := len a - 1).
  destruct (at_in_range a m) as [v Hv]; [lia |].
  destruct (at_in_range a k) as [x Hx]; [lia |].
  assert (forall b1 E r,
    r = Ok (b1, E) ->
    len b1 = len (upd a m x) -> at_ b1 m = at_ (upd a m x) m ->
    (move_chain to_parent k v m E \/ move_chain to_child k v m E) ->
    exists a' E x v,
      (r0 <- r ;; e <- moved r0.1 m k m ;; Ok (r0.1, r0.2 ++ [e]))
        = Ok (a', E ++ [(x, k, m)]) /\
      at_ a k = Some x /\ at_ a m = Some v /\
      (move_chain to_parent k v m E \/ move_chain to_child k v m E)) as Hfin.
  { intros b1 E r -> Hlen Hlast Hchain. simpl. unfold moved.
    rewrite at_upd_eq in Hlast by lia.
    rewrite (rd_Ok _ _ _ Hlast). simpl. by exists b1, E, x, v. }
  unfold __pop_heap_pos_moved.
  rewrite (rd_Ok _ _ _ Hv), (rd_Ok _ _ _ Hx). cbn [bind].
  rewrite wr_Ok by lia. cbn [bind].
  assert (len (upd a m x) = len a) as Hlen1 by apply len_upd.
  destruct (down_heap_moved_full m v m (upd a m x) k)
    as (bd & Ed & Hdown & Hlend & Hframed & Hcd); [lia | lia | lia |].
  destruct (Z.ltb_spec 0 k) as [Hpos | Hzero].
  - pose proof (parent_of_lt k Hpos) as Hpl.
    change ((k - 1) ÷ 2) with (parent_of k).
    destruct (at_in_range (upd a m x) (parent_of k)) as [y Hy]; [lia |].
    rewrite (rd_Ok _ _ _ Hy). cbn [bind].
    destruct (compare y v).
    + destruct (up_heap_moved_full v m (upd a m x) k)
        as (bu & Eu & Hup & Hlenu & Hframeu & Hcu); [lia | lia |].
      apply (Hfin bu Eu); [done | done | apply Hframeu; lia | by left].
    + apply (Hfin bd Ed); [done | done | apply Hframed; lia | by right].
  - apply (Hfin bd Ed); [done | done | apply Hframed; lia | by right].
Qed.

Lemma update_heap_moved_chain a k :
  0 <= k < len a ->
  exists a' E p,
    update_heap_moved compare a k = Ok (a', E) /\
    at_ a k = Some p /\
    (move_chain to_parent k p k E \/ move_chain to_child k p k E).
Proof.
  intros Hk. unfold update_heap_moved.
  destruct (at_in_range a k) as [p Hp]; [done |].
  assert (exists a' E p0,
    (p1 <- rd a k ;; __down_heap_moved compare a (len a) k p1 k)
      = Ok (a', E) /\
    at_ a k = Some p0 /\
    (move_chain to_parent k p0 k E \/ move_chain to_child k p0 k E)) as Hdown.
  { rewrite (rd_Ok _ _ _ Hp). cbn [bind].
    destruct (down_heap_moved_chain (len a) p k a k)
      as (b1 & E & Hrun & Hchain); [done | lia |].
    exists b1, E, p. split_and!; [done | done | by right]. }
  destruct (Z.ltb_spec 0 k) as [Hpos | Hzero]; [| done].
  pose proof (parent_of_lt k Hpos) as Hpl.
  change ((k - 1) ÷ 2) with (parent_of k).
  destruct (at_in_range a (parent_of k)) as [x Hx]; [lia |].
  rewrite (rd_Ok _ _ _ Hx), (rd_Ok _ _ _ Hp). cbn [bind].
  rewrite (rd_Ok _ _ _ Hp) in Hdown.
  destruct (compare x p); [| done].
  destruct (up_heap_moved_chain p k a k) as (b1 & E & Hrun & Hchain); [done |].
  exists b1, E, p. split_and!; [done | done | by left].
Qed.

Lemma push_heap_moved_chain a :
  1 <= len a ->
  exists a' E p,
    push_heap_moved compare a = Ok (a', E) /\
    at_ a (len a - 1) = Some p /\
    move_chain to_parent (len a - 1) p (len a - 1) E.
Proof.
  intros Hlen. unfold push_heap_moved.
  set (m := len a - 1).
  destruct (at_in_range a m) as [p Hp]; [lia |].
  assert (exists a' E p0,
    (e <- moved a m m m ;; Ok (a, [e])) = Ok (a', E) /\
    at_ a m = Some p0 /\ move_chain to_parent m p0 m E) as Hstay.
  { unfold moved. rewrite (rd_Ok _ _ _ Hp). cbn [bind].
    by exists a, [(p, m, m)], p. }
  destruct (Z.ltb_spec 0 m) as [Hpos | Hzero]; [| done].
  pose proof (parent_of_lt m Hpos) as Hpl.
  change ((m - 1) ÷ 2) with (parent_of m).
  destruct (at_in_range a (parent_of m)) as [x Hx]; [lia |].
  rewrite (rd_Ok _ _ _ Hx), (rd_Ok _ _ _ Hp). cbn [bind].
  destruct (compare x p); [| done].
  destruct (up_heap_moved_chain p m a m) as (b1 & E & Hrun & Hchain); [lia |].
  by exists b1, E, p.
Qed.

Lemma pop_heap_moved_chain a :
  2 <= len a ->
  exists a' E x v,
    pop_heap_moved compare a = Ok (a', E ++ [(x, 0, len a - 1)]) /\
    at_ a 0 = Some x /\ at_ a (len a - 1) = Some v /\
    move_chain to_child 0 v (len a - 1) E.
Proof.
  intros Hlen. unfold pop_heap_moved.
  destruct (Z.ltb_spec 1 (len a)); [| lia].
  set (m := len a - 1).
  destruct (at_in_range a m) as [v Hv]; [lia |].
  destruct (at_in_range a 0) as [x Hx]; [lia |].
  unfold __pop_heap_moved.
  rewrite (rd_Ok _ _ _ Hv), (rd_Ok _ _ _ Hx). cbn [bind].
  rewrite wr_Ok by lia. cbn [bind].
  destruct (down_heap_moved_full m v m (upd a m x) 0)
    as (b1 & E & Hrun & Hlen1 & Hframe & Hchain);
    [lia | rewrite len_upd; lia | lia |].
  rewrite Hrun. cbn [bind fst snd]. unfold moved.
  assert (at_ b1 m = Some x) as Hlast.
  { rewrite Hframe by lia. apply at_upd_eq. lia. }
  rewrite (rd_Ok _ _ _ Hlast). cbn [bind].
  by exists b1, E, x, v.
Qed.
End ChainFacts.

(** X13.  With an observer, the callbacks of one sift arrive in the
    order of the path and form a chain: every callback fills the slot
    that the callback before it emptied, and the last one puts the sifted
    value, which came from its original position, in the slot left empty.
    In [update_heap] the chain starts at the updated position and goes to
    the parents or to the children; in [push_heap] it starts at the last
    position and goes to the parents (a single callback in place when the
    element does not rise); in [pop_heap] it starts at the front, goes to
    the children and carries the former last element, and the removed
    element is reported after it; the positional [pop_heap] does the same
    from the given position, in either direction. *)
Theorem sift_callbacks_form_a_chain {A : Type} (compare : A -> A -> bool)
  (a : list A) :
  (forall k, 0 <= k < len a ->
     exists a' E p,
       update_heap_moved compare a k = Ok (a', E) /\
       at_ a k = Some p /\
       (move_chain to_parent k p k E \/ move_chain to_child k p k E)) /\
  (1 <= len a ->
     exists a' E p,
       push_heap_moved compare a = Ok (a', E) /\
       at_ a (len a - 1) = Some p /\
       move_chain to_parent (len a - 1) p (len a - 1) E) /\
  (2 <= len a ->
     exists a' E x v,
       pop_heap_moved compare a = Ok (a', E ++ [(x, 0, len a - 1)]) /\
       at_ a 0 = Some x /\ at_ a (len a - 1) = Some v /\
       move_chain to_child 0 v (len a - 1) E) /\
  (forall k, 0 <= k -> 1 < len a - k ->
     exists a' E x v,
       pop_heap_pos_moved compare a k = Ok (a', E ++ [(x, k, len a - 1)]) /\
       at_ a k = Some x /\ at_ a (len a - 1) = Some v /\
       (move_chain to_parent k v (len a - 1) E \/
        move_chain to_child k v (len a - 1) E)).
Proof.
  split_and!.
  - apply update_heap_moved_chain.
  - apply push_heap_moved_chain.
  - apply pop_heap_moved_chain.
  - apply pop_heap_pos_moved_chain.
Qed.

Lemma sift_callbacks_form_a_chain_witness :
  (exists a' E p,
     update_heap_moved Z.ltb [9; 3; 7; 8] 1 = Ok (a', E) /\
     at_ [9; 3; 7; 8] 1 = Some p /\
     (move_chain to_parent 1 p 1 E \/ move_chain to_child 1 p 1 E)) /\
  (exists a' E p,
     push_heap_moved Z.ltb [7; 3; 5; 9] = Ok (a', E) /\
     at_ [7; 3; 5; 9] 3 = Some p /\
     move_chain to_parent 3 p 3 E) /\
  (exists a' E x v,
     pop_heap_moved Z.ltb [9; 3; 7; 8] = Ok (a', E ++ [(x, 0, 3)]) /\
     at_ [9; 3; 7; 8] 0 = Some x /\ at_ [9; 3; 7; 8] 3 = Some v /\
     move_chain to_child 0 v 3 E) /\
  (exists a' E x v,
     pop_heap_pos_moved Z.ltb [9; 8; 7; 3; 5] 1
       = Ok (a', E ++ [(x, 1, 4)]) /\
     at_ [9; 8; 7; 3; 5] 1 = Some x /\ at_ [9; 8; 7; 3; 5] 4 = Some v /\
     (move_chain to_parent 1 v 4 E \/ move_chain to_child 1 v 4 E)).
Proof.
  split_and!.
  - apply (sift_callbacks_form_a_chain Z.ltb [9; 3; 7; 8]).
    unfold len. simpl. lia.
  - apply (sift_callbacks_form_a_chain Z.ltb [7; 3; 5; 9]).
    unfold len. simpl. lia.
  - apply (sift_callbacks_form_a_chain Z.ltb [9; 3; 7; 8]).
    unfold len. simpl. lia.
  - apply (sift_callbacks_form_a_chain Z.ltb [9; 8; 7; 3; 5]);
      unfold len; simpl; lia.
Defined.

(** ** The blocks of the parallel construction *)

Section BlockFacts.
Context {A : Type} (compare : A -> A -> bool).
Hypothesis Hswo : StrictWeakOrder compare.
Implicit Types (a : list A).

Lemma down_block_loop_spec n (i : nat) : forall a parent,
  Z.of_nat i <= parent + 1 -> parent < n -> n <= len a ->
  heap_from compare (parent + 1) n a ->
  exists a',
    down_block_loop compare i a n parent = Ok a' /\
    len a' = len a /\
    heap_from compare (parent + 1 - Z.of_nat i) n a' /\
    a' ≡ₚ a /\
    forall j, j < parent + 1 - Z.of_nat i \/ n <= j -> at_ a' j = at_ a j.
Proof.
  induction i as [| i IH]; intros a parent Hi Hp Hn Hheap.
  - exists a. split_and!; try done.
    by replace (parent + 1 - Z.of_nat 0) with (parent + 1) by lia.
  - simpl.
    destruct (at_in_range a parent) as [p Hpv]; [lia |].
    rewrite (rd_Ok _ _ _ Hpv). simpl.
    destruct (down_heap_spec compare Hswo parent n p a parent)
      as (a1 & Hrun & Hlen & Hheap1 & Hperm & Hframe); [lia | lia | lia | |].
    { split.
      - intros j Hj Hlo Hpj _. apply Hheap; [done | lia].
      - intros Hpos Hlo. pose proof (parent_of_lt _ Hpos). lia. }
    rewrite Hrun. simpl.
    destruct (IH a1 (parent - 1))
      as (a' & Hrun' & Hlen' & Hheap' & Hperm' & Hframe');
      [lia | lia | lia | |].
    { by replace (parent - 1 + 1) with parent by lia. }
    exists a'. split_and!.
    + done.
    + congruence.
    + by replace (parent + 1 - Z.of_nat (S i))
        with (parent - 1 + 1 - Z.of_nat i) by lia.
    + by rewrite Hperm', Hperm, (upd_same _ _ _ Hpv).
    + intros j Hj. rewrite Hframe' by lia. apply Hframe. lia.
Qed.

Lemma down_block_spec a length blockFront blockLength :
  0 <= blockFront -> 0 <= blockLength ->
  blockFront + blockLength <= length -> length <= len a ->
  heap_from compare (blockFront + blockLength) length a ->
  exists a',
    __down_block compare a length blockFront blockLength = Ok a' /\
    len a' = len a /\
    heap_from compare blockFront length a' /\
    a' ≡ₚ a /\
    forall j, j < blockFront \/ length <= j -> at_ a' j = at_ a j.
Proof.
  intros Hf Hl Hend Hn Hheap. unfold __down_block.
  destruct (down_block_loop_spec length (Z.to_nat blockLength) a
              (blockFront + blockLength - 1))
    as (a' & Hrun & Hlen & Hheap' & Hperm & Hframe); [lia | lia | lia | |].
  { by replace (blockFront + blockLength - 1 + 1)
      with (blockFront + blockLength) by lia. }
  exists a'. split_and!; try done.
  - by replace (blockFront + blockLength - 1 + 1
                - Z.of_nat (Z.to_nat blockLength)) with blockFront in Hheap'
      by lia.
  - intros j Hj. apply Hframe. lia.
Qed.
End BlockFacts.

(** X14.  Under a strict weak order, [__down_block] on a block of
    internal nodes extends the heap-ordered part of the tree by the
    block: if every node whose parent is at or after the end of the block
    respects the heap order, then after the block every node whose parent
    is at or after the front of the block does.  The block permutes the
    sequence and leaves the slots before the block, and those from
    [length] on, as they are. *)
Theorem down_block_extends_the_heap {A : Type} (compare : A -> A -> bool)
  (a : list A) (length blockFront blockLength : Z) :
  StrictWeakOrder compare ->
  0 <= blockFront -> 0 <= blockLength ->
  blockFront + blockLength <= length -> length <= len a ->
  heap_from compare (blockFront + blockLength) length a ->
  exists a',
    __down_block compare a length blockFront blockLength = Ok a' /\
    len a' = len a /\
    heap_from compare blockFront length a' /\
    a' ≡ₚ a /\
    forall j, j < blockFront \/ length <= j -> at_ a' j = at_ a j.
Proof.
  intros Hswo. by apply down_block_spec.
Qed.

Lemma down_block_extends_the_heap_witness :
  exists a',
    __down_block Z.ltb [1; 2; 3; 4; 5; 6; 7] 7 1 2 = Ok a' /\
    len a' = len [1; 2; 3; 4; 5; 6; 7] /\
    heap_from Z.ltb 1 7 a' /\
    a' ≡ₚ [1; 2; 3; 4; 5; 6; 7] /\
    forall j, j < 1 \/ 7 <= j -> at_ a' j = at_ [1; 2; 3; 4; 5; 6; 7] j.
Proof.
  apply (down_block_extends_the_heap Z.ltb [1; 2; 3; 4; 5; 6; 7] 7 1 2).
  - apply Zltb_swo.
  - lia.
  - lia.
  - lia.
  - unfold len. simpl. lia.
  - intros j Hj Hlo. unfold parent_of in Hlo. lia.
Defined.

(** X15.  A worker that enters its loop with [b] blocks left, [b] at
    most the number of blocks, claims and processes them all, highest
    block first, which is the part of [make_heap]'s loop over the first
    [b * blockSize] internal nodes; the claim after the last block wraps
    the unsigned counter to [2 ^ w - 1], and the worker returns. *)
Theorem thread_worker_processes_the_blocks {A : Type}
  (compare : A -> A -> bool) (w nthreads nblocks blockSize length : Z)
  (b fuel : nat) (a : list A) :
  0 < w -> 1 <= nthreads -> 1 <= nblocks -> nblocks + nthreads <= 2 ^ w ->
  1 <= blockSize ->
  (b < fuel)%nat -> Z.of_nat b <= nblocks ->
  Z.of_nat b * blockSize < 2 ^ (w - 1) ->
  __thread_worker compare w fuel nthreads blockSize length
    (Shared (Z.of_nat b) a) =
  (a' <- make_heap_loop compare (b * Z.to_nat blockSize) a length ;;
   Ok (Shared (2 ^ w - 1) a')).
Proof.
  intros Hw Hthreads Hblocks Hfit Hbs.
  by apply (thread_worker_drains compare w Hw nthreads nblocks).
Qed.

Lemma thread_worker_processes_the_blocks_witness :
  __thread_worker Z.ltb 64 4 2 2 7 (Shared (Z.of_nat 2) [1; 2; 3; 4; 5; 6; 7]) =
  (a' <- make_heap_loop Z.ltb (2 * Z.to_nat 2) [1; 2; 3; 4; 5; 6; 7] 7 ;;
   Ok (Shared (2 ^ 64 - 1) a')).
Proof.
  apply (thread_worker_processes_the_blocks Z.ltb 64 2 2 2 7 2 4
           [1; 2; 3; 4; 5; 6; 7]); lia.
Defined.

(** X16.  The number of blocks that [parallel_make_heap] computes is the
    block count rounded up: at least one and at most [processEnd], the
    blocks cover the internal nodes, and the last block is not empty.
    The computation does not wrap as long as [processEnd] fits the signed
    type. *)
Theorem number_of_blocks_rounds_up (w processEnd blockSize : Z) :
  0 < w -> 1 <= blockSize -> 1 <= processEnd < 2 ^ (w - 1) ->
  1 <= number_of_blocks w processEnd blockSize <= processEnd /\
  (number_of_blocks w processEnd blockSize - 1) * blockSize < processEnd /\
  processEnd <= number_of_blocks w processEnd blockSize * blockSize.
Proof.
  intros Hw. by apply number_of_blocks_spec.
Qed.

Lemma number_of_blocks_rounds_up_witness :
  1 <= number_of_blocks 64 7 3 <= 7 /\
  (number_of_blocks 64 7 3 - 1) * 3 < 7 /\
  7 <= number_of_blocks 64 7 3 * 3.
Proof.
  apply (number_of_blocks_rounds_up 64 7 3); lia.
Defined.

(** X17.  On every sequence of fewer than two elements, for every block
    size from 1 to [2 ^ (w - 1)] and every thread count,
    [parallel_make_heap] computes zero blocks and fails: the overload
    with a comparator raises its thread count to 1, takes a block all
    the same and reads outside the range; the overload without
    comparator keeps the thread count 0 and throws [std::length_error]
    from [threads.reserve(nthreads - 1)] before it reads anything. *)
Theorem parallel_make_heap_needs_two_elements {A : Type}
  (compare : A -> A -> bool) (w hw : Z) (a : list A)
  (blockSize maxThreads : Z) :
  0 < w -> len a <= 1 -> 1 <= blockSize <= 2 ^ (w - 1) ->
  number_of_blocks w (len a ÷ 2) blockSize = 0 /\
  parallel_make_heap compare w hw a blockSize maxThreads = OutOfRange /\
  parallel_make_heap_default compare w hw a blockSize maxThreads
    = LengthError.
Proof.
  intros Hw Hlen Hbs. split.
  - assert (len a ÷ 2 = 0) as ->.
    { assert (0 <= len a) by (unfold len; lia). lia. }
    by apply number_of_blocks_zero.
  - by apply parallel_make_heap_small.
Qed.

Lemma parallel_make_heap_needs_two_elements_witness :
  number_of_blocks 64 (len [5] ÷ 2) 4 = 0 /\
  parallel_make_heap Z.ltb 64 8 [5] 4 2 = OutOfRange /\
  parallel_make_heap_default Z.ltb 64 8 [5] 4 2 = LengthError.
Proof.
  apply (parallel_make_heap_needs_two_elements Z.ltb 64 8 [5] 4 2).
  - lia.
  - unfold len. simpl. lia.
  - lia.
Defined.
